(** * golisp concurrency primitives ([prim_concurrency.go])

    A shallow embedding of the six concurrency primitives of the golisp
    interpreter ([fork], [proc-sleep], [wake], [schedule], [reset-timeout],
    [abandon]) and of [callWithPanicProtection], over a small model of the
    Go features the file relies on: buffered channels, [select], timers,
    goroutines, and [defer]/[recover].

    Layout:
    - [Values]      : the interpreter values the primitives inspect;
    - [GoRuntime]   : channels, 64-bit durations and timers;
    - [Prog]        : the effects of a goroutine, as a small free monad;
    - [exec]        : what one goroutine does until it returns, parks on a
                      channel operation, or panics;
    - the primitives, written after the Go source;
    - [step]        : the interleaving of callers, spawned tasks and the
                      timer runtime;
    - the properties of the primitives. *)

From Stdlib Require Import ZArith Lia Ascii.
From stdpp Require Import prelude strings pretty relations.

Open Scope string_scope.
Open Scope nat_scope.
Open Scope list_scope.

Set Warnings "-clear-no-such-hyp".

(* ===================================================================== *)
(** ** Interpreter values *)
(* ===================================================================== *)

Module Values.

(** [*SymbolTableFrame]: the address of an environment frame. *)
Definition SymbolTableFrame := nat.

(** Modelled from the spec: the callable-value abstraction ([Function] in
    the interpreter's data model, which is not part of this file); the
    primitives only read its required-argument count. *)
Record Function := { Name : string; RequiredArgCount : Z }.

(** Modelled from the spec: the interpreter's value type [Data], which is
    declared outside this file.  [NilD] is the nil pointer (the empty
    list); an [ObjectD] is the opaque tagged handle, carrying a type tag
    and the address of a native payload. *)
Inductive Data : Type :=
| NilD
| ConsCell (car cdr : Data)
| IntegerD (n : Z)
| BooleanD (b : bool)
| StringD (s : string)
| SymbolD (name : string)
| FunctionD (fn : Function)
| PrimitiveD (name : string)
| ObjectD (ObjType : string) (ObjValue : nat).

Definition Car (d : Data) : Data :=
  match d with ConsCell a _ => a | _ => NilD end.
Definition Cdr (d : Data) : Data :=
  match d with ConsCell _ b => b | _ => NilD end.
Definition Cadr (d : Data) : Data := Car (Cdr d).

Definition FunctionP (d : Data) : bool :=
  match d with FunctionD _ => true | _ => false end.
Definition IntegerP (d : Data) : bool :=
  match d with IntegerD _ => true | _ => false end.
Definition ObjectP (d : Data) : bool :=
  match d with ObjectD _ _ => true | _ => false end.

(** [FunctionValue] of a value that is no function is the nil pointer in
    Go; every use below is guarded by [FunctionP], so the placeholder is
    never read. *)
Definition FunctionValue (d : Data) : Function :=
  match d with
  | FunctionD fn => fn
  | _ => {| Name := ""; RequiredArgCount := 0 |}
  end.
Definition IntegerValue (d : Data) : Z :=
  match d with IntegerD n => n | _ => 0%Z end.
Definition ObjectType (d : Data) : string :=
  match d with ObjectD ty _ => ty | _ => "" end.
Definition ObjectValue (d : Data) : nat :=
  match d with ObjectD _ p => p | _ => 0 end.

Definition ObjectWithTypeAndValue (ty : string) (p : nat) : Data := ObjectD ty p.
Definition BooleanWithValue (b : bool) : Data := BooleanD b.
Definition StringWithValue (s : string) : Data := StringD s.
Definition InternalMakeList (ds : list Data) : Data := foldr ConsCell NilD ds.

(** [ProcessError(msg, env)]: the only way this file builds an error. *)
Inductive LispError : Type :=
| ProcessError (msg : string) (env : SymbolTableFrame).

(** A Go [(result *Data, err error)] pair: either a value with a nil
    error, or an error with a nil value. *)
Inductive Result : Type :=
| Ok (d : Data)
| Err (e : LispError).

(** What applying a function can do: return a [(result, err)] pair, or
    raise a runtime fault, of which only the text that [runtime.Stack]
    reports in the deferred handler is observed. *)
Inductive Applied : Type :=
| Returned (r : Result)
| Faulted (stack : string).

End Values.
Export Values.

(** The external collaborators of the primitives: the evaluator, function
    application, and the formatting verbs of [fmt].  The evaluator and
    the applied function act on their own state, [World]. *)
Class Host := {
  World : Type;
  Eval : Data → SymbolTableFrame → World → Result * World;
  ApplyWithoutEval : Function → Data → SymbolTableFrame → World → Applied * World;
  fmt_v : Data → string;
  fmt_sharp_v : LispError → string;
}.

(* ===================================================================== *)
(** ** The Go runtime: channels, durations, timers *)
(* ===================================================================== *)

Module GoRuntime.

(** A buffered channel: its capacity and the values sent and not yet
    received, oldest first. *)
Record chan (T : Type) := { cap : nat; buf : list T }.
Arguments cap {T} _.
Arguments buf {T} _.

(** [make(chan T, n)] *)
Definition make {T} (n : nat) : chan T := {| cap := n; buf := [] |}.

(** [c <- v] can proceed when the buffer has room; [None]: it cannot. *)
Definition chan_send {T} (c : chan T) (v : T) : option (chan T) :=
  if decide (length (buf c) < cap c)%nat
  then Some {| cap := cap c; buf := buf c ++ [v] |}
  else None.

(** [<-c] can proceed when the buffer holds a value. *)
Definition chan_recv {T} (c : chan T) : option (T * chan T) :=
  match buf c with
  | [] => None
  | v :: rest => Some (v, {| cap := cap c; buf := rest |})
  end.

Definition full {T} (c : chan T) : Prop := (cap c ≤ length (buf c))%nat.

(** [int64] arithmetic wraps around. *)
Definition wrap64 (z : Z) : Z := ((z + 2 ^ 63) `mod` 2 ^ 64 - 2 ^ 63)%Z.
Definition maxInt64 : Z := (2 ^ 63 - 1)%Z.

(** [time.Millisecond], in nanoseconds. *)
Definition Millisecond : Z := 1000000%Z.

(** [time.Duration(n) * time.Millisecond] *)
Definition Milliseconds (n : Z) : Z := wrap64 (wrap64 n * Millisecond).

(** The instant a timer of duration [d] started at [now] is due (the
    runtime's [when]: a non-positive duration is due at once, and an
    overflowing sum saturates). *)
Definition when (now d : Z) : Z :=
  if decide (d ≤ 0)%Z then now
  else let t := wrap64 (now + d) in
       if decide (t < 0)%Z then maxInt64 else t.

(** [time.Timer]: the channel [C] of capacity one, the instant it is due
    and whether it is still pending.  This is the timer of the Go
    releases the file was written for: [C] is buffered, and a tick that
    was sent stays in [C] until it is received. *)
Record Timer := { C : chan Z; due : Z; active : bool }.

Definition NewTimer (now d : Z) : Timer :=
  {| C := make 1; due := when now d; active := true |}.

(** [t.Reset(d)] re-arms the timer; it does not drain [C]. *)
Definition Reset (now d : Z) (t : Timer) : Timer :=
  {| C := C t; due := when now d; active := true |}.

(** The runtime fires a pending timer that is due: a non-blocking send of
    the current time on [C]. *)
Definition fire (now : Z) (t : Timer) : option Timer :=
  if active t && bool_decide (due t ≤ now)%Z
  then Some {| C := default (C t) (chan_send (C t) now);
               due := due t; active := false |}
  else None.

End GoRuntime.
Export GoRuntime.

(* ===================================================================== *)
(** ** Processes, tasks and goroutine programs *)
(* ===================================================================== *)

(** [type Process struct].  The channels are owned by the process and
    never reassigned, so they are kept in place; [ScheduleTimer] is the
    address of the timer, nil for a forked process. *)
Record Process := {
  Env : SymbolTableFrame;
  Code : Data;
  Wake : chan bool;
  Abort : chan bool;
  Restart : chan bool;
  ScheduleTimer : option nat;
}.

(** The goroutines started by [go func() {...}()], with the variables the
    closure captures.  [finished] and [running] say where the goroutine
    is: a fork task has run its body or not; a schedule task is inside
    its loop or has left it.  [aborted] is the captured local of
    [ScheduleImpl]. *)
Inductive Task : Type :=
| ForkTask (f procObj : Data) (env : SymbolTableFrame) (finished : bool)
| ScheduleTask (proc : nat) (millis f procObj : Data) (env : SymbolTableFrame)
               (aborted running : bool).

(** The three states of the schedule controller. *)
Inductive Controller : Type := Armed | Aborted | Fired.

Definition controller (aborted running : bool) : Controller :=
  if running then Armed else if aborted then Aborted else Fired.

(** Calls to the external collaborators, in the order they happen. *)
Inductive Event : Type :=
| EvEval (e : Data) (env : SymbolTableFrame)
| EvApply (f : Function) (args : Data) (env : SymbolTableFrame).

(** The channels of a process, by the address of the process. *)
Inductive ChanRef : Type :=
| WakeOf (p : nat)
| AbortOf (p : nat)
| RestartOf (p : nat).

(** A timer, by its own address or as [proc.ScheduleTimer]. *)
Inductive TimerRef : Type :=
| TimerAt (t : nat)
| ScheduleTimerOf (p : nat).

(** The communication clauses of a [select]. *)
Inductive Guard : Type :=
| RecvG (c : ChanRef)            (* case <-c: *)
| SendG (c : ChanRef) (v : bool) (* case c <- v: *)
| TimerG (t : TimerRef).         (* case <-t.C: *)

(** What a goroutine does, one effect after the other; every effect
    carries the rest of the goroutine.  [SelectP gs dflt k] continues
    with the index of the clause that was taken, [None] for [default].
    [ProtectP body handler k] is [body] run under a deferred [handler]
    that recovers a panic: [k] is told the result of [body], or [None]
    when a panic was recovered. *)
Inductive Prog (A : Type) : Type :=
| Ret (a : A)
| EvalP (e : Data) (env : SymbolTableFrame) (k : Result → Prog A)
| ApplyP (f : Function) (args : Data) (env : SymbolTableFrame) (k : Result → Prog A)
| NewP (p : Process) (k : nat → Prog A)
| NewTimerP (d : Z) (k : nat → Prog A)
| GoP (t : Task) (k : Prog A)
| SendP (c : ChanRef) (v : bool) (k : Prog A)
| SelectP (gs : list Guard) (dflt : bool) (k : option nat → Prog A)
| ResetP (t : TimerRef) (d : Z) (k : Prog A)
| LogP (line : string) (k : Prog A)
| PanicP (stack : string)
| ProtectP {B : Type} (body : Prog B) (handler : string → Prog unit)
           (k : option B → Prog A).
Arguments Ret {A} a.
Arguments EvalP {A} e env k.
Arguments ApplyP {A} f args env k.
Arguments NewP {A} p k.
Arguments NewTimerP {A} d k.
Arguments GoP {A} t k.
Arguments SendP {A} c v k.
Arguments SelectP {A} gs dflt k.
Arguments ResetP {A} t d k.
Arguments LogP {A} line k.
Arguments PanicP {A} stack.
Arguments ProtectP {A B} body handler k.

Fixpoint bindP {A B} (p : Prog A) (f : A → Prog B) : Prog B :=
  match p with
  | Ret a => f a
  | EvalP e env k => EvalP e env (λ r, bindP (k r) f)
  | ApplyP fn args env k => ApplyP fn args env (λ r, bindP (k r) f)
  | NewP pr k => NewP pr (λ i, bindP (k i) f)
  | NewTimerP d k => NewTimerP d (λ i, bindP (k i) f)
  | GoP t k => GoP t (bindP k f)
  | SendP c v k => SendP c v (bindP k f)
  | SelectP gs dflt k => SelectP gs dflt (λ i, bindP (k i) f)
  | ResetP t d k => ResetP t d (bindP k f)
  | LogP line k => LogP line (bindP k f)
  | PanicP stack => PanicP stack
  | ProtectP body handler k => ProtectP body handler (λ o, bindP (k o) f)
  end.

(** [x <- c ;; k]: the effect [c], then [k] with its answer. *)
Notation "x <- c ;; k" := (c (λ x, k))
  (at level 20, c at level 99, k at level 200, only parsing).
Notation "c ;;; k" := (c k)
  (at level 20, k at level 200, only parsing).

(* ===================================================================== *)
(** ** Running a goroutine *)
(* ===================================================================== *)

Section Semantics.
Context `{Host}.

(** The state shared by all goroutines: the collaborators' [world], the
    clock (nanoseconds), the allocated processes and timers (an address
    is an index), the spawned tasks, the calls parked on a channel
    operation, the log sink, and the history of calls to the
    collaborators. *)
Record Sys := {
  world : World;
  now : Z;
  procs : list Process;
  timers : list Timer;
  tasks : list Task;
  parked : list (Prog Result);
  logs : list string;
  trace : list Event;
}.

Definition set_world (w : World) (s : Sys) : Sys :=
  {| world := w; now := now s; procs := procs s; timers := timers s;
     tasks := tasks s; parked := parked s; logs := logs s; trace := trace s |}.
Definition set_now (t : Z) (s : Sys) : Sys :=
  {| world := world s; now := t; procs := procs s; timers := timers s;
     tasks := tasks s; parked := parked s; logs := logs s; trace := trace s |}.
Definition set_procs (ps : list Process) (s : Sys) : Sys :=
  {| world := world s; now := now s; procs := ps; timers := timers s;
     tasks := tasks s; parked := parked s; logs := logs s; trace := trace s |}.
Definition set_timers (ts : list Timer) (s : Sys) : Sys :=
  {| world := world s; now := now s; procs := procs s; timers := ts;
     tasks := tasks s; parked := parked s; logs := logs s; trace := trace s |}.
Definition set_tasks (ts : list Task) (s : Sys) : Sys :=
  {| world := world s; now := now s; procs := procs s; timers := timers s;
     tasks := ts; parked := parked s; logs := logs s; trace := trace s |}.
Definition set_parked (ks : list (Prog Result)) (s : Sys) : Sys :=
  {| world := world s; now := now s; procs := procs s; timers := timers s;
     tasks := tasks s; parked := ks; logs := logs s; trace := trace s |}.
Definition set_logs (ls : list string) (s : Sys) : Sys :=
  {| world := world s; now := now s; procs := procs s; timers := timers s;
     tasks := tasks s; parked := parked s; logs := ls; trace := trace s |}.
Definition set_trace (tr : list Event) (s : Sys) : Sys :=
  {| world := world s; now := now s; procs := procs s; timers := timers s;
     tasks := tasks s; parked := parked s; logs := logs s; trace := tr |}.

Definition record (ev : Event) (s : Sys) : Sys := set_trace (trace s ++ [ev]) s.

(** Reading and writing a channel of a process through its address. *)
Definition chan_of (c : ChanRef) (pr : Process) : chan bool :=
  match c with
  | WakeOf _ => Wake pr
  | AbortOf _ => Abort pr
  | RestartOf _ => Restart pr
  end.
Definition owner (c : ChanRef) : nat :=
  match c with WakeOf p | AbortOf p | RestartOf p => p end.
Definition with_chan (c : ChanRef) (ch : chan bool) (pr : Process) : Process :=
  match c with
  | WakeOf _ =>
      {| Env := Env pr; Code := Code pr; Wake := ch; Abort := Abort pr;
         Restart := Restart pr; ScheduleTimer := ScheduleTimer pr |}
  | AbortOf _ =>
      {| Env := Env pr; Code := Code pr; Wake := Wake pr; Abort := ch;
         Restart := Restart pr; ScheduleTimer := ScheduleTimer pr |}
  | RestartOf _ =>
      {| Env := Env pr; Code := Code pr; Wake := Wake pr; Abort := Abort pr;
         Restart := ch; ScheduleTimer := ScheduleTimer pr |}
  end.

Definition get_chan (c : ChanRef) (s : Sys) : option (chan bool) :=
  chan_of c <$> procs s !! owner c.
Definition put_chan (c : ChanRef) (ch : chan bool) (s : Sys) : Sys :=
  set_procs (alter (with_chan c ch) (owner c) (procs s)) s.

(** The address behind a timer reference; [proc.ScheduleTimer] reads the
    field of the process. *)
Definition timer_addr (t : TimerRef) (s : Sys) : option nat :=
  match t with
  | TimerAt i => Some i
  | ScheduleTimerOf p => pr ← procs s !! p; ScheduleTimer pr
  end.

(** A communication clause that can proceed, and the state once it has.
    A clause on a channel that was never allocated cannot proceed. *)
Definition guard_fire (g : Guard) (s : Sys) : option Sys :=
  match g with
  | RecvG c =>
      ch ← get_chan c s; r ← chan_recv ch; Some (put_chan c r.2 s)
  | SendG c v =>
      ch ← get_chan c s; ch' ← chan_send ch v; Some (put_chan c ch' s)
  | TimerG t =>
      i ← timer_addr t s; tm ← timers s !! i; r ← chan_recv (C tm);
      Some (set_timers (<[i := {| C := r.2; due := due tm; active := active tm |}]>
                          (timers s)) s)
  end.

(** The clauses of a [select] that can proceed, each with its index. *)
Fixpoint ready_cases (gs : list Guard) (i : nat) (s : Sys) : list (nat * Sys) :=
  match gs with
  | [] => []
  | g :: rest =>
      match guard_fire g s with
      | Some s' => (i, s') :: ready_cases rest (S i) s
      | None => ready_cases rest (S i) s
      end
  end.

(** [t.Reset(d)]; on a nil timer it is a fault. *)
Definition reset_timer (t : TimerRef) (d : Z) (s : Sys) : option Sys :=
  i ← timer_addr t s; tm ← timers s !! i;
  Some (set_timers (<[i := Reset (now s) d tm]> (timers s)) s).

(** How a goroutine leaves [exec]: it returned [a]; it is parked on a
    channel operation with [k] left to run; or it panicked. *)
Inductive Outcome (A : Type) : Type :=
| Done (a : A) (s : Sys)
| Blocked (k : Prog A) (s : Sys)
| Panicked (stack : string) (s : Sys).
Arguments Done {A} a s.
Arguments Blocked {A} k s.
Arguments Panicked {A} stack s.

(** One goroutine, run from state [s] until it returns, parks or panics.
    A [select] with several clauses ready takes any of them, hence the
    list of outcomes. *)
Fixpoint exec {A} (p : Prog A) (s : Sys) : list (Outcome A) :=
  match p with
  | Ret a => [Done a s]
  | EvalP e env k =>
      let r := Eval e env (world s) in
      exec (k r.1) (record (EvEval e env) (set_world r.2 s))
  | ApplyP f args env k =>
      let r := ApplyWithoutEval f args env (world s) in
      let s' := record (EvApply f args env) (set_world r.2 s) in
      match r.1 with
      | Returned v => exec (k v) s'
      | Faulted stack => [Panicked stack s']
      end
  | NewP pr k => exec (k (length (procs s))) (set_procs (procs s ++ [pr]) s)
  | NewTimerP d k =>
      exec (k (length (timers s)))
           (set_timers (timers s ++ [NewTimer (now s) d]) s)
  | GoP t k => exec k (set_tasks (tasks s ++ [t]) s)
  | SendP c v k =>
      match guard_fire (SendG c v) s with
      | Some s' => exec k s'
      | None => [Blocked (SendP c v k) s]
      end
  | SelectP gs dflt k =>
      match ready_cases gs 0 s with
      | [] => if dflt then exec (k None) s else [Blocked (SelectP gs dflt k) s]
      | rs => flat_map (λ r, exec (k (Some r.1)) r.2) rs
      end
  | ResetP t d k =>
      match reset_timer t d s with
      | Some s' => exec k s'
      | None => [Panicked "invalid memory address or nil pointer dereference" s]
      end
  | LogP line k => exec k (set_logs (logs s ++ [line]) s)
  | PanicP stack => [Panicked stack s]
  | ProtectP body handler k =>
      flat_map (λ o,
        match o with
        | Done b s' => exec (k (Some b)) s'
        | Blocked kb s' => [Blocked (ProtectP kb handler k) s']
        | Panicked stack s' =>
            flat_map (λ o',
              match o' with
              | Done _ s'' => exec (k None) s''
              | Blocked kh s'' => [Blocked (bindP kh (λ _, k None)) s'']
              | Panicked stack' s'' => [Panicked stack' s'']
              end) (exec (handler stack) s')
        end) (exec body s)
  end.

End Semantics.

Arguments Done {_ A} a s.
Arguments Blocked {_ A} k s.
Arguments Panicked {_ A} stack s.

(* ===================================================================== *)
(** ** The primitives *)
(* ===================================================================== *)

Section Primitives.
Context `{Host}.

(** The line feed. *)
Definition nl : ascii := ascii_of_nat 10.
Definition ln (s : string) : string := s +:+ String nl "".

(** [runtime.Stack(buf, false)] writes at most [len(buf)] bytes of the
    stack text; [stackBuf[:n]] keeps what was written. *)
Fixpoint runtime_Stack (size : N) (text : string) : string :=
  match text with
  | EmptyString => ""
  | String c rest =>
      if (size =? 0)%N then "" else String c (runtime_Stack (N.pred size) rest)
  end.

(** [strings.Split(s, sep)] for a separator of one byte. *)
Fixpoint Split (s : string) (sep : ascii) : list string :=
  match s with
  | EmptyString => [""]
  | String c rest =>
      if Ascii.eqb c sep then "" :: Split rest sep
      else match Split rest sep with
           | [] => [String c ""]
           | w :: ws => String c w :: ws
           end
  end.

(** [for i := i; i < i + n; i++ { LogPrintf("%s\n", stack[i]) }]: indexing
    past the end of the slice panics. *)
Fixpoint logStack (stack : list string) (i n : nat) : Prog unit :=
  match n with
  | O => Ret tt
  | S n' =>
      match stack !! i with
      | Some line => LogP (ln line) ;;; logStack stack (S i) n'
      | None => PanicP "runtime error: index out of range"
      end
  end.

(** [callWithPanicProtection(f, prefix)].  The deferred function recovers
    a panic of [f] and logs the first seven lines of the stack text.
    The result says whether [f] returned ([Some]) or was recovered. *)
Definition callWithPanicProtection {A} (f : Prog A) (prefix : string)
  : Prog (option A) :=
  ProtectP f
    (λ text,
       let stackBuf := runtime_Stack 10000%N text in
       let stack := Split stackBuf nl in
       logStack stack 0 7)
    Ret.

Definition newProcess (env : SymbolTableFrame) (f : Data)
    (timer : option nat) : Process :=
  {| Env := env; Code := f; Wake := make 1; Abort := make 1;
     Restart := make 1; ScheduleTimer := timer |}.

Definition ForkImpl (args : Data) (env : SymbolTableFrame) : Prog Result :=
  r <- EvalP (Car args) env ;;
  match r with
  | Err err => Ret (Err err)
  | Ok f =>
      if negb (FunctionP f) then
        Ret (Err (ProcessError
          ("fork expected a function, but received " +:+ fmt_v f +:+ ".") env))
      else if bool_decide (RequiredArgCount (FunctionValue f) ≠ 1%Z) then
        Ret (Err (ProcessError
          ("fork expected a function with arity of 1, but it was "
             +:+ pretty (RequiredArgCount (FunctionValue f)) +:+ ".") env))
      else
        proc <- NewP (newProcess env f None) ;;
        let procObj := ObjectWithTypeAndValue "Process" proc in
        GoP (ForkTask f procObj env false) ;;;
        Ret (Ok procObj)
  end.

(** The goroutine started by [ForkImpl]. *)
Definition forkBody (f procObj : Data) (env : SymbolTableFrame)
  : Prog (option unit) :=
  callWithPanicProtection
    (r <- ApplyP (FunctionValue f) (InternalMakeList [procObj]) env ;;
     match r with
     | Err forkedErr =>
         LogP (ln ("error in forked process: " +:+ fmt_sharp_v forkedErr)) ;;;
         Ret tt
     | Ok _ => Ret tt
     end)
    "fork".

Definition ProcSleepImpl (args : Data) (env : SymbolTableFrame) : Prog Result :=
  r <- EvalP (Car args) env ;;
  match r with
  | Err err => Ret (Err err)
  | Ok procObj =>
      if negb (ObjectP procObj) || bool_decide (ObjectType procObj ≠ "Process") then
        Ret (Err (ProcessError
          ("proc-sleep expects a Process object expected but received "
             +:+ ObjectType procObj +:+ ".") env))
      else
        let proc := ObjectValue procObj in
        r <- EvalP (Cadr args) env ;;
        match r with
        | Err err => Ret (Err err)
        | Ok millis =>
            if negb (IntegerP millis) then
              Ret (Err (ProcessError
                ("proc-sleep expected an integer as a delay, but received "
                   +:+ fmt_v millis +:+ ".") env))
            else
              let woken := false in
              after <- NewTimerP (Milliseconds (IntegerValue millis)) ;;
              i <- SelectP [RecvG (WakeOf proc); TimerG (TimerAt after)] false ;;
              let woken := match i with Some 0 => true | _ => woken end in
              Ret (Ok (BooleanWithValue woken))
        end
  end.

Definition WakeImpl (args : Data) (env : SymbolTableFrame) : Prog Result :=
  r <- EvalP (Car args) env ;;
  match r with
  | Err err => Ret (Err err)
  | Ok procObj =>
      if negb (ObjectP procObj) || bool_decide (ObjectType procObj ≠ "Process") then
        Ret (Err (ProcessError
          ("wake expects a Process object expected but received "
             +:+ ObjectType procObj +:+ ".") env))
      else
        let proc := ObjectValue procObj in
        SendP (WakeOf proc) true ;;;
        Ret (Ok (StringWithValue "OK"))
  end.

Definition ScheduleImpl (args : Data) (env : SymbolTableFrame) : Prog Result :=
  r <- EvalP (Car args) env ;;
  match r with
  | Err err => Ret (Err err)
  | Ok millis =>
      if negb (IntegerP millis) then
        Ret (Err (ProcessError
          ("schedule expected an integer as a delay, but received "
             +:+ fmt_v millis +:+ ".") env))
      else
        r <- EvalP (Cadr args) env ;;
        match r with
        | Err err => Ret (Err err)
        | Ok f =>
            if negb (FunctionP f) then
              Ret (Err (ProcessError
                ("schedule expected a function, but received "
                   +:+ fmt_v f +:+ ".") env))
            else if bool_decide (RequiredArgCount (FunctionValue f) ≠ 1%Z) then
              Ret (Err (ProcessError
                ("schedule expected a function with arity of 1, but it was "
                   +:+ pretty (RequiredArgCount (FunctionValue f)) +:+ ".") env))
            else
              timer <- NewTimerP (Milliseconds (IntegerValue millis)) ;;
              proc <- NewP (newProcess env f (Some timer)) ;;
              let procObj := ObjectWithTypeAndValue "Process" proc in
              let aborted := false in
              GoP (ScheduleTask proc millis f procObj env aborted true) ;;;
              Ret (Ok procObj)
        end
  end.

(** [break Loop] or the next iteration. *)
Inductive LoopCtl : Type := Continue | Break.

(** One iteration of the [for { select {...} }] of the goroutine started
    by [ScheduleImpl]: the new value of [aborted], and whether the loop
    goes on. *)
Definition scheduleLoop (proc : nat) (millis f procObj : Data)
    (env : SymbolTableFrame) (aborted : bool) : Prog (bool * LoopCtl) :=
  i <- SelectP [RecvG (AbortOf proc); RecvG (RestartOf proc);
                TimerG (ScheduleTimerOf proc)] false ;;
  match i with
  | Some 0 =>
      let aborted := true in
      Ret (aborted, Break)
  | Some 1 =>
      ResetP (ScheduleTimerOf proc) (Milliseconds (IntegerValue millis)) ;;;
      Ret (aborted, Continue)
  | _ =>
      r <- ApplyP (FunctionValue f) (InternalMakeList [procObj]) env ;;
      match r with
      | Err forkedErr =>
          LogP (ln ("error in forked process: " +:+ fmt_sharp_v forkedErr)) ;;;
          Ret (aborted, Break)
      | Ok _ => Ret (aborted, Break)
      end
  end.

(** The loop runs inside [callWithPanicProtection]: a panic in any
    iteration unwinds the loop into the deferred handler. *)
Definition scheduleBody (proc : nat) (millis f procObj : Data)
    (env : SymbolTableFrame) (aborted : bool) : Prog (option (bool * LoopCtl)) :=
  callWithPanicProtection (scheduleLoop proc millis f procObj env aborted)
    "schedule".

Definition AbandonImpl (args : Data) (env : SymbolTableFrame) : Prog Result :=
  r <- EvalP (Car args) env ;;
  match r with
  | Err err => Ret (Err err)
  | Ok procObj =>
      if negb (ObjectP procObj) || bool_decide (ObjectType procObj ≠ "Process") then
        Ret (Err (ProcessError
          ("adandon expects a Process object expected but received "
             +:+ ObjectType procObj +:+ ".") env))
      else
        let proc := ObjectValue procObj in
        SendP (AbortOf proc) true ;;;
        Ret (Ok (StringWithValue "OK"))
  end.

Definition ResetTimeoutImpl (args : Data) (env : SymbolTableFrame) : Prog Result :=
  r <- EvalP (Car args) env ;;
  match r with
  | Err err => Ret (Err err)
  | Ok procObj =>
      if negb (ObjectP procObj) || bool_decide (ObjectType procObj ≠ "Process") then
        Ret (Err (ProcessError
          ("restart expects a Process object expected but received "
             +:+ ObjectType procObj +:+ ".") env))
      else
        let proc := ObjectValue procObj in
        i <- SelectP [SendG (RestartOf proc) true] true ;;
        let str := match i with
                   | Some _ => "OK"
                   | None => "task was already completed or abandoned"
                   end in
        Ret (Ok (StringWithValue str))
  end.

(** [RegisterConcurrencyPrimitives]: name, arity, implementation. *)
Definition RegisterConcurrencyPrimitives
  : list (string * nat * (Data → SymbolTableFrame → Prog Result)) :=
  [ ("fork", 1, ForkImpl);
    ("proc-sleep", 2, ProcSleepImpl);
    ("wake", 1, WakeImpl);
    ("schedule", 2, ScheduleImpl);
    ("reset-timeout", 1, ResetTimeoutImpl);
    ("abandon", 1, AbandonImpl) ].

End Primitives.

(* ===================================================================== *)
(** ** Interleaving *)
(* ===================================================================== *)

Section Interleaving.
Context `{Host}.

(** The schedule task after one iteration of its loop: it stays in the
    loop, or has left it, by [break] or by a recovered panic. *)
Definition afterIteration (proc : nat) (millis f procObj : Data)
    (env : SymbolTableFrame) (aborted : bool)
    (o : option (bool * LoopCtl)) : Task :=
  match o with
  | Some (aborted', Continue) => ScheduleTask proc millis f procObj env aborted' true
  | Some (aborted', Break) => ScheduleTask proc millis f procObj env aborted' false
  | None => ScheduleTask proc millis f procObj env aborted false
  end.

Inductive Label : Type :=
| LCall (name : string) (args : Data) (env : SymbolTableFrame) (r : Result)
| LPark (name : string) (args : Data) (env : SymbolTableFrame)
| LResume (i : nat) (r : Result)
| LFork (i : nat)
| LSchedule (i : nat) (o : option (bool * LoopCtl))
| LFire (t : nat)
| LTick (d : Z).

(** What the whole program can do next:
    - a script calls a primitive, which returns, or parks on its channel
      operation;
    - a parked call is resumed and returns;
    - a fork task runs its body; a schedule task runs one iteration;
    - the runtime fires a timer that is due; time passes.

    A call, a body and an iteration each run without interruption up to
    their channel operation: the operations the goroutines compete for
    are the channel operations, and each of those is atomic in Go.  The
    calls that a callback makes are calls like any other, so they
    interleave freely with the task that runs the callback.  A panic
    that nothing recovers ends the program: it has no successor here.
    The evaluator and the callbacks are taken to return or to fault; one
    that never comes back leaves its goroutine without a further step. *)
Inductive step : Sys → Label → Sys → Prop :=
| step_call (name : string) (arity : nat)
    (impl : Data → SymbolTableFrame → Prog Result)
    (args : Data) (env : SymbolTableFrame) (r : Result) (s s' : Sys) :
    (name, arity, impl) ∈ RegisterConcurrencyPrimitives →
    Done r s' ∈ exec (impl args env) s →
    step s (LCall name args env r) s'
| step_park (name : string) (arity : nat)
    (impl : Data → SymbolTableFrame → Prog Result)
    (args : Data) (env : SymbolTableFrame) (k : Prog Result) (s s' : Sys) :
    (name, arity, impl) ∈ RegisterConcurrencyPrimitives →
    Blocked k s' ∈ exec (impl args env) s →
    step s (LPark name args env) (set_parked (parked s' ++ [k]) s')
| step_resume (i : nat) (k : Prog Result) (r : Result) (s s' : Sys) :
    parked s !! i = Some k →
    Done r s' ∈ exec k s →
    step s (LResume i r) (set_parked (delete i (parked s')) s')
| step_fork (i : nat) (f procObj : Data) (env : SymbolTableFrame)
    (o : option unit) (s s' : Sys) :
    tasks s !! i = Some (ForkTask f procObj env false) →
    Done o s' ∈ exec (forkBody f procObj env) s →
    step s (LFork i)
         (set_tasks (<[i := ForkTask f procObj env true]> (tasks s')) s')
| step_schedule (i proc : nat) (millis f procObj : Data)
    (env : SymbolTableFrame) (aborted : bool) (o : option (bool * LoopCtl))
    (s s' : Sys) :
    tasks s !! i = Some (ScheduleTask proc millis f procObj env aborted true) →
    Done o s' ∈ exec (scheduleBody proc millis f procObj env aborted) s →
    step s (LSchedule i o)
         (set_tasks (<[i := afterIteration proc millis f procObj env aborted o]>
                       (tasks s')) s')
| step_fire (t : nat) (tm tm' : Timer) (s : Sys) :
    timers s !! t = Some tm →
    fire (now s) tm = Some tm' →
    step s (LFire t) (set_timers (<[t := tm']> (timers s)) s)
| step_tick (d : Z) (s : Sys) :
    (0 < d)%Z →
    step s (LTick d) (set_now (now s + d) s).

Definition next (s s' : Sys) : Prop := ∃ l, step s l s'.

(** The program before any primitive was called. *)
Definition boot (w : World) : Sys :=
  {| world := w; now := 0; procs := []; timers := []; tasks := [];
     parked := []; logs := []; trace := [] |}.

Definition reachable (s : Sys) : Prop := ∃ w, rtc next (boot w) s.

End Interleaving.

(* ===================================================================== *)
(** ** A small host, to run the primitives on concrete inputs *)
(* ===================================================================== *)

Module Demo.

(** Every expression evaluates to itself, except the symbol [unbound];
    the function [boom] faults with a ten-line stack, [shallow] with a
    three-line one, [fail] returns an error, any other returns nil. *)
Definition stackText (n : nat) : string :=
  foldr (λ i acc, "frame " +:+ pretty i +:+ String nl acc) "" (seq 0 n).

Definition demoEval (e : Data) (env : SymbolTableFrame) (w : unit)
  : Result * unit :=
  match e with
  | SymbolD "unbound" => (Err (ProcessError "unbound symbol" env), w)
  | _ => (Ok e, w)
  end.

Definition demoApply (f : Function) (args : Data) (env : SymbolTableFrame)
    (w : unit) : Applied * unit :=
  if bool_decide (Name f = "boom") then (Faulted (stackText 10), w)
  else if bool_decide (Name f = "shallow") then (Faulted (stackText 3), w)
  else if bool_decide (Name f = "fail") then
    (Returned (Err (ProcessError "failed" env)), w)
  else (Returned (Ok NilD), w).

Definition demoShow (d : Data) : string :=
  match d with
  | NilD => "()"
  | IntegerD n => pretty n
  | StringD s => s
  | SymbolD s => s
  | FunctionD fn => "<function: " +:+ Name fn +:+ ">"
  | _ => "<value>"
  end.

#[export] Instance demoHost : Host :=
  {| World := unit; Eval := demoEval; ApplyWithoutEval := demoApply;
     fmt_v := demoShow;
     fmt_sharp_v := λ e, match e with ProcessError msg _ => msg end |}.

Definition fn (name : string) (n : Z) : Data :=
  FunctionD {| Name := name; RequiredArgCount := n |}.
Definition args1 (a : Data) : Data := InternalMakeList [a].
Definition args2 (a b : Data) : Data := InternalMakeList [a; b].

End Demo.

(* ===================================================================== *)
(** ** Running [callWithPanicProtection] and the task bodies *)
(* ===================================================================== *)

Section BodyFacts.
Context `{Host}.

Implicit Types (s : Sys) (p i : nat).

(** The state after the deferred handler logged [n] lines from line [i]. *)
Definition logged (stack : list string) (i n : nat) (s : Sys) : Sys :=
  set_logs (logs s ++ (ln <$> take n (drop i stack))) s.

Lemma set_logs_id s : set_logs (logs s) s = s.
Proof. by destruct s. Qed.

Lemma exec_logStack_enough stack n i s :
  i + n ≤ length stack →
  exec (logStack stack i n) s = [Done tt (logged stack i n s)].
Proof.
  revert i s. induction n as [|n IH]; intros i s Hlen; simpl.
  - unfold logged. rewrite take_0, fmap_nil, app_nil_r. by rewrite set_logs_id.
  - destruct (lookup_lt_is_Some_2 stack i) as [line Hline]; [lia|].
    rewrite Hline. simpl. rewrite IH by (simpl; lia).
    unfold logged, set_logs; simpl. rewrite (drop_S _ _ _ Hline). simpl.
    by rewrite <- (assoc_L (++)).
Qed.

Lemma exec_logStack_short stack n i s :
  i ≤ length stack < i + n →
  ∃ m, m < n ∧
    exec (logStack stack i n) s
    = [Panicked "runtime error: index out of range" (logged stack i m s)].
Proof.
  revert i s. induction n as [|n IH]; intros i s Hlen; [lia|]. simpl.
  destruct (stack !! i) as [line|] eqn:Hline.
  - apply lookup_lt_Some in Hline as Hi. simpl.
    destruct (IH (S i) (set_logs (logs s ++ [ln line]) s)) as (m & Hm & ->); [lia|].
    exists (S m). split; [lia|].
    unfold logged, set_logs; simpl. rewrite (drop_S _ _ _ Hline). simpl.
    by rewrite <- (assoc_L (++)).
  - exists 0. split; [lia|]. unfold logged.
    rewrite take_0, fmap_nil, app_nil_r. by rewrite set_logs_id.
Qed.

(** The lines the deferred handler of [callWithPanicProtection] works on. *)
Definition stackLines (text : string) : list string :=
  Split (runtime_Stack 10000%N text) nl.

(** [callWithPanicProtection], unfolded once. *)
Lemma exec_callWithPanicProtection {A} (f : Prog A) prefix s :
  exec (callWithPanicProtection f prefix) s
  = flat_map (λ o,
      match o with
      | Done b s' => [Done (Some b) s']
      | Blocked kb s' =>
          [Blocked (ProtectP kb (λ text, logStack (stackLines text) 0 7) Ret) s']
      | Panicked text s' =>
          flat_map (λ o',
            match o' with
            | Done _ s'' => [Done None s'']
            | Blocked kh s'' => [Blocked (bindP kh (λ _, Ret None)) s'']
            | Panicked stack' s'' => [Panicked stack' s'']
            end) (exec (logStack (stackLines text) 0 7) s')
      end) (exec f s).
Proof. reflexivity. Qed.

Lemma exec_protect_returns {A} (f : Prog A) prefix a s s' :
  exec f s = [Done a s'] →
  exec (callWithPanicProtection f prefix) s = [Done (Some a) s'].
Proof. intros Hf. rewrite exec_callWithPanicProtection, Hf. reflexivity. Qed.

Lemma exec_protect_recovers {A} (f : Prog A) prefix text s s' :
  exec f s = [Panicked text s'] →
  7 ≤ length (stackLines text) →
  exec (callWithPanicProtection f prefix) s
  = [Done None (logged (stackLines text) 0 7 s')].
Proof.
  intros Hf Hlen. rewrite exec_callWithPanicProtection, Hf.
  cbn [flat_map].
  rewrite (exec_logStack_enough (stackLines text) 7 0 s') by (simpl; lia).
  reflexivity.
Qed.

Lemma exec_protect_escapes {A} (f : Prog A) prefix text s s' :
  exec f s = [Panicked text s'] →
  length (stackLines text) < 7 →
  ∃ m, m < 7 ∧
    exec (callWithPanicProtection f prefix) s
    = [Panicked "runtime error: index out of range"
         (logged (stackLines text) 0 m s')].
Proof.
  intros Hf Hlen. rewrite exec_callWithPanicProtection, Hf.
  cbn [flat_map].
  destruct (exec_logStack_short (stackLines text) 7 0 s') as (m & Hm & ->);
    [simpl; lia|].
  exists m. by split.
Qed.

End BodyFacts.

(* ===================================================================== *)
(** ** Outcomes of [select], of the protected bodies, of the loop *)
(* ===================================================================== *)

Section Outcomes.
Context `{Host}.

Implicit Types (s : Sys) (p i : nat).

Lemma elem_of_flat_map {X Y} (f : X → list Y) (l : list X) (y : Y) :
  y ∈ flat_map f l ↔ ∃ x, x ∈ l ∧ y ∈ f x.
Proof.
  rewrite list_elem_of_In, in_flat_map.
  by setoid_rewrite list_elem_of_In.
Qed.

Lemma ready_cases_spec gs n s i s1 :
  (i, s1) ∈ ready_cases gs n s ↔
  ∃ g, n ≤ i ∧ gs !! (i - n) = Some g ∧ guard_fire g s = Some s1.
Proof.
  revert n. induction gs as [|g gs IH]; intros n; simpl.
  - split; [by intros ?%elem_of_nil | by intros (? & _ & ? & _)].
  - assert ((i, s1) ∈ ready_cases gs (S n) s ↔
            ∃ g', S n ≤ i ∧ (g :: gs) !! (i - n) = Some g'
                  ∧ guard_fire g' s = Some s1) as Htail.
    { rewrite IH. split; intros (g' & Hle & Hl & Hg); exists g';
        (split; [done|]); split; try done.
      - by replace (i - n) with (S (i - S n)) by lia.
      - by replace (i - n) with (S (i - S n)) in Hl by lia. }
    destruct (guard_fire g s) as [s'|] eqn:Hg.
    + rewrite elem_of_cons, Htail. split.
      * intros [[= -> ->]|(g' & ? & ? & ?)].
        -- exists g. by rewrite Nat.sub_diag.
        -- exists g'. split; [lia|done].
      * intros (g' & Hle & Hl & Hg').
        destruct (decide (i = n)) as [->|].
        -- rewrite Nat.sub_diag in Hl. simplify_eq/=. by left.
        -- right. exists g'. split; [lia|done].
    + rewrite Htail. split.
      * intros (g' & ? & ? & ?). exists g'. split; [lia|done].
      * intros (g' & Hle & Hl & Hg').
        destruct (decide (i = n)) as [->|].
        -- rewrite Nat.sub_diag in Hl. simplify_eq/=.
        -- exists g'. split; [lia|done].
Qed.

(** A blocking [select]: it parks when no clause can proceed, and else
    runs the continuation of one clause that can. *)
Lemma exec_select {A} gs (k : option nat → Prog A) s o :
  o ∈ exec (SelectP gs false k) s ↔
  (ready_cases gs 0 s = [] ∧ o = Blocked (SelectP gs false k) s)
  ∨ (∃ i g s1, gs !! i = Some g ∧ guard_fire g s = Some s1
               ∧ o ∈ exec (k (Some i)) s1).
Proof.
  change (exec (SelectP gs false k) s)
    with (match ready_cases gs 0 s with
          | [] => [Blocked (SelectP gs false k) s]
          | rs => flat_map (λ r, exec (k (Some r.1)) r.2) rs
          end).
  destruct (ready_cases gs 0 s) as [|r rs] eqn:Hr.
  - rewrite list_elem_of_singleton. split.
    + intros ->. by left.
    + intros [[_ ->]|(i & g & s1 & Hi & Hg & _)]; [done|].
      assert ((i, s1) ∈ ready_cases gs 0 s) as Hin.
      { apply ready_cases_spec. exists g. rewrite Nat.sub_0_r.
        split; [lia|done]. }
      rewrite Hr in Hin. by apply elem_of_nil in Hin.
  - rewrite <- Hr. rewrite elem_of_flat_map. split.
    + intros ([i s1] & Hin & Ho). right.
      apply ready_cases_spec in Hin as (g & _ & Hi & Hg).
      rewrite Nat.sub_0_r in Hi. by exists i, g, s1.
    + intros [[Hnil _]|(i & g & s1 & Hi & Hg & Ho)]; [congruence|].
      exists (i, s1). split; [|done].
      apply ready_cases_spec. exists g. rewrite Nat.sub_0_r.
      split; [lia|done].
Qed.

(** What running the callback leaves behind: whether a fault was
    recovered, and the state.  [None]: the deferred handler itself
    panicked, for want of seven lines of stack text. *)
Definition invoke (f : Function) (procObj : Data) (env : SymbolTableFrame)
    (s : Sys) : option (bool * Sys) :=
  let r := ApplyWithoutEval f (InternalMakeList [procObj]) env (world s) in
  let s' := record (EvApply f (InternalMakeList [procObj]) env)
                   (set_world r.2 s) in
  match r.1 with
  | Returned (Ok _) => Some (false, s')
  | Returned (Err forkedErr) =>
      Some (false,
            set_logs (logs s'
                      ++ [ln ("error in forked process: " +:+ fmt_sharp_v forkedErr)])
                     s')
  | Faulted text =>
      if decide (7 ≤ length (stackLines text))
      then Some (true, logged (stackLines text) 0 7 s')
      else None
  end.

Lemma forkBody_done f procObj env s o s' :
  Done o s' ∈ exec (forkBody f procObj env) s ↔
  ∃ recovered, invoke (FunctionValue f) procObj env s = Some (recovered, s')
               ∧ o = if recovered then None else Some tt.
Proof.
  unfold forkBody, invoke. rewrite exec_callWithPanicProtection.
  cbn [exec].
  destruct (ApplyWithoutEval (FunctionValue f) (InternalMakeList [procObj]) env
              (world s)) as [[[d|e]|text] w]; cbn [fst snd exec flat_map app].
  - rewrite list_elem_of_singleton. split.
    + intros [= -> ->]. by exists false.
    + intros (rec & [= <- <-] & ->). done.
  - rewrite list_elem_of_singleton. split.
    + intros [= -> ->]. by exists false.
    + intros (rec & [= <- <-] & ->). done.
  - rewrite app_nil_r. destruct (decide (7 ≤ length (stackLines text))) as [Hlen|Hlen].
    + rewrite exec_logStack_enough by (simpl; lia). cbn [flat_map app].
      rewrite list_elem_of_singleton. split.
      * intros [= -> ->]. by exists true.
      * intros (rec & [= <- <-] & ->). done.
    + edestruct exec_logStack_short as (m & _ & ->); [split; [|apply Nat.nle_gt, Hlen]; lia|].
      cbn [flat_map app]. rewrite list_elem_of_singleton. split; [done|].
      by intros (? & ? & _).
Qed.

(** When the protected body is done: the body returned, or it panicked
    and the handler found its seven lines. *)
Lemma protect_done {A} (f : Prog A) prefix s (o : option A) s' :
  Done o s' ∈ exec (callWithPanicProtection f prefix) s ↔
  (∃ a, o = Some a ∧ Done a s' ∈ exec f s)
  ∨ (o = None ∧ ∃ text s1, Panicked text s1 ∈ exec f s
       ∧ 7 ≤ length (stackLines text)
       ∧ s' = logged (stackLines text) 0 7 s1).
Proof.
  rewrite exec_callWithPanicProtection, elem_of_flat_map. split.
  - intros ([b s1|kb s1|text s1] & Hin & Ho).
    + apply list_elem_of_singleton in Ho as [= -> ->]. left. eauto.
    + by apply list_elem_of_singleton in Ho.
    + right. destruct (decide (7 ≤ length (stackLines text))) as [Hlen|Hlen].
      * rewrite exec_logStack_enough in Ho by (simpl; lia).
        cbn [flat_map app] in Ho.
        apply list_elem_of_singleton in Ho as [= -> ->]. eauto 6.
      * destruct (exec_logStack_short (stackLines text) 7 0 s1)
          as (m & _ & Hm); [simpl; lia|].
        rewrite Hm in Ho. cbn [flat_map app] in Ho.
        by apply list_elem_of_singleton in Ho.
  - intros [(a & -> & Hin)|(-> & text & s1 & Hin & Hlen & ->)].
    + exists (Done a s'). split; [done|]. by apply list_elem_of_singleton.
    + exists (Panicked text s1). split; [done|].
      rewrite exec_logStack_enough by (simpl; lia).
      cbn [flat_map app]. by apply list_elem_of_singleton.
Qed.

(** The outcomes of the callback with its error logging. *)
Lemma exec_callback {A} (f : Function) (procObj : Data) env (a : A) s :
  exec (ApplyP f (InternalMakeList [procObj]) env
          (λ r, match r with
                | Err forkedErr =>
                    LogP (ln ("error in forked process: "
                                +:+ fmt_sharp_v forkedErr)) (Ret a)
                | Ok _ => Ret a
                end)) s
  = let r := ApplyWithoutEval f (InternalMakeList [procObj]) env (world s) in
    let s' := record (EvApply f (InternalMakeList [procObj]) env)
                     (set_world r.2 s) in
    match r.1 with
    | Returned (Ok _) => [Done a s']
    | Returned (Err forkedErr) =>
        [Done a (set_logs (logs s'
                    ++ [ln ("error in forked process: " +:+ fmt_sharp_v forkedErr)])
                   s')]
    | Faulted text => [Panicked text s']
    end.
Proof.
  cbn [exec].
  by destruct (ApplyWithoutEval f (InternalMakeList [procObj]) env (world s))
    as [[[d|e]|text] w].
Qed.

(** One iteration of the schedule task: which clause of the [select] was
    taken, and what it did. *)
Lemma scheduleBody_done proc millis f procObj env aborted s o s' :
  Done o s' ∈ exec (scheduleBody proc millis f procObj env aborted) s ↔
  (guard_fire (RecvG (AbortOf proc)) s = Some s' ∧ o = Some (true, Break))
  ∨ (∃ s1, guard_fire (RecvG (RestartOf proc)) s = Some s1
       ∧ reset_timer (ScheduleTimerOf proc)
           (Milliseconds (IntegerValue millis)) s1 = Some s'
       ∧ o = Some (aborted, Continue))
  ∨ (∃ s1 recovered,
       guard_fire (TimerG (ScheduleTimerOf proc)) s = Some s1
       ∧ invoke (FunctionValue f) procObj env s1 = Some (recovered, s')
       ∧ o = if recovered then None else Some (aborted, Break)).
Proof.
  unfold scheduleBody. rewrite protect_done. unfold scheduleLoop.
  setoid_rewrite exec_select. split.
  - intros [(a & -> & [[_ ?]|(i & g & s1 & Hi & Hg & Ho)])
           |(-> & text & s1 & [[_ ?]|(i & g & s2 & Hi & Hg & Ho)] & Hlen & ->)];
      try done.
    + destruct i as [|[|[|i]]]; simpl in Hi; [| | |done];
        injection Hi as <-.
      * apply list_elem_of_singleton in Ho as [= -> ->]. by left.
      * cbn [exec] in Ho.
        destruct (reset_timer _ _ s1) as [s2|] eqn:Hreset;
          apply list_elem_of_singleton in Ho; [|done].
        injection Ho as -> ->. right; left. eauto.
      * rewrite exec_callback in Ho. right; right. exists s1, false.
        split; [done|]. unfold invoke.
        destruct (ApplyWithoutEval _ _ _ _) as [[[d|e]|text] w];
          cbn [fst snd] in *; apply list_elem_of_singleton in Ho;
          by simplify_eq.
    + destruct i as [|[|[|i]]]; simpl in Hi; [| | |done];
        injection Hi as <-.
      * by apply list_elem_of_singleton in Ho.
      * cbn [exec] in Ho.
        destruct (reset_timer _ _ s2) as [s3|] eqn:Hreset;
          apply list_elem_of_singleton in Ho; [done|].
        injection Ho as -> _. vm_compute in Hlen. lia.
      * rewrite exec_callback in Ho. right; right. exists s2, true.
        split; [done|]. unfold invoke.
        destruct (ApplyWithoutEval _ _ _ _) as [[[d|e]|text'] w];
          cbn [fst snd] in *; apply list_elem_of_singleton in Ho;
          simplify_eq. by rewrite decide_True by done.
  - intros [[Hg ->]|[(s1 & Hg & Hreset & ->)|(s1 & rec & Hg & Hinv & ->)]].
    + left. eexists; split; [done|]. right. exists 0; eexists _, _.
      split; [done|]. split; [done|]. by apply list_elem_of_singleton.
    + left. eexists; split; [done|]. right. exists 1; eexists _, _.
      split; [done|]. split; [done|]. cbn [exec]. rewrite Hreset.
      by apply list_elem_of_singleton.
    + unfold invoke in Hinv.
      destruct (ApplyWithoutEval (FunctionValue f) (InternalMakeList [procObj])
                  env (world s1)) as [[[d|e]|text] w] eqn:Happ;
        cbn [fst snd] in Hinv.
      * injection Hinv as <- <-. left. eexists; split; [done|].
        right. exists 2; eexists _, _. split; [done|]. split; [done|].
        rewrite exec_callback, Happ. by apply list_elem_of_singleton.
      * injection Hinv as <- <-. left. eexists; split; [done|].
        right. exists 2; eexists _, _. split; [done|]. split; [done|].
        rewrite exec_callback, Happ. by apply list_elem_of_singleton.
      * destruct (decide (7 ≤ length (stackLines text))) as [Hlen|]; [|done].
        injection Hinv as <- <-. right. split; [done|]. eexists _, _.
        split; [|done]. right. exists 2; eexists _, _.
        split; [done|]. split; [done|].
        rewrite exec_callback, Happ. by apply list_elem_of_singleton.
Qed.

End Outcomes.

(* ===================================================================== *)
(** ** What a call to a primitive can do to the shared state *)
(* ===================================================================== *)

Section Footprint.
Context `{Host}.

Implicit Types (s : Sys) (p i : nat).

(** The value of an expression in the current world, and the state once
    it has been evaluated. *)
Definition value (e : Data) (env : SymbolTableFrame) (s : Sys) : Result :=
  (Eval e env (world s)).1.
Definition evaluated (e : Data) (env : SymbolTableFrame) (s : Sys) : Sys :=
  record (EvEval e env) (set_world (Eval e env (world s)).2 s).

Definition handle (p : nat) : Data := ObjectD "Process" p.

(** The state after [ForkImpl], resp. [ScheduleImpl], allocated its
    process and started its goroutine. *)
Definition forked (env : SymbolTableFrame) (f : Data) (s : Sys) : Sys :=
  set_tasks (tasks s ++ [ForkTask f (handle (length (procs s))) env false])
    (set_procs (procs s ++ [newProcess env f None]) s).

Definition scheduled (env : SymbolTableFrame) (millis f : Data) (s : Sys) : Sys :=
  set_tasks
    (tasks s ++ [ScheduleTask (length (procs s)) millis f
                   (handle (length (procs s))) env false true])
    (set_procs (procs s ++ [newProcess env f (Some (length (timers s)))])
       (set_timers
          (timers s ++ [NewTimer (now s) (Milliseconds (IntegerValue millis))])
          s)).

(** The channel operations open to the callers of the primitives: they
    send [true] on a channel of a process, receive from its [Wake]
    channel, or wait for a timer of their own. *)
Definition caller_guard (g : Guard) : Prop :=
  match g with
  | SendG _ v => v = true
  | RecvG (WakeOf _) => True
  | RecvG _ => False
  | TimerG (TimerAt _) => True
  | TimerG (ScheduleTimerOf _) => False
  end.

(** The clauses a call can park on: those of [proc-sleep]. *)
Definition sleeper_guard (g : Guard) : Prop :=
  match g with
  | RecvG (WakeOf _) => True
  | TimerG (TimerAt _) => True
  | _ => False
  end.

Lemma sleeper_caller_guard g : sleeper_guard g → caller_guard g.
Proof. by destruct g as [[]| |[]]. Qed.

(** The channel operations of each registered primitive. *)
Definition primitive_guard (name : string) (g : Guard) : Prop :=
  match g with
  | SendG (WakeOf _) _ => name = "wake"
  | SendG (AbortOf _) _ => name = "abandon"
  | SendG (RestartOf _) _ => name = "reset-timeout"
  | RecvG (WakeOf _) | TimerG (TimerAt _) => name = "proc-sleep"
  | _ => False
  end.

(** The elementary changes a call makes, restricted to the channel
    operations [G]. *)
Inductive effect (G : Guard → Prop) (s : Sys) : Sys → Prop :=
| eff_eval e env : effect G s (evaluated e env s)
| eff_guard g s' : G g → caller_guard g → guard_fire g s = Some s' → effect G s s'
| eff_timer d : effect G s (set_timers (timers s ++ [NewTimer (now s) d]) s)
| eff_fork env f : effect G s (forked env f s)
| eff_schedule env millis f : effect G s (scheduled env millis f s).

(** The shape of the calls: evaluations and checks, then at most one
    channel operation or one spawn, then the result. *)
Inductive tame (G : Guard → Prop) : Prog Result → Prop :=
| tame_ret r : tame G (Ret r)
| tame_eval e env k : (∀ r, tame G (k r)) → tame G (EvalP e env k)
| tame_timer d k : (∀ t, tame G (k t)) → tame G (NewTimerP d k)
| tame_send c r :
    G (SendG c true) → tame G (SendP c true (Ret r))
| tame_try gs k :
    Forall (λ g, G g ∧ caller_guard g) gs →
    (∀ taken : option nat, ∃ r, k taken = Ret r) →
    tame G (SelectP gs true k)
| tame_wait gs k :
    Forall (λ g, G g ∧ sleeper_guard g) gs →
    (∀ taken : option nat, ∃ r, k taken = Ret r) →
    tame G (SelectP gs false k)
| tame_fork env f :
    tame G (NewP (newProcess env f None)
              (λ proc, GoP (ForkTask f (handle proc) env false)
                         (Ret (Ok (handle proc)))))
| tame_schedule env millis f :
    tame G (NewTimerP (Milliseconds (IntegerValue millis))
              (λ timer, NewP (newProcess env f (Some timer))
                 (λ proc, GoP (ScheduleTask proc millis f (handle proc) env
                                 false true)
                            (Ret (Ok (handle proc)))))).

(** The calls that can be parked: a blocking send, or a [select] without
    [default]. *)
Inductive parkable (G : Guard → Prop) : Prog Result → Prop :=
| parkable_send c r : G (SendG c true) → parkable G (SendP c true (Ret r))
| parkable_select gs k :
    Forall (λ g, G g ∧ sleeper_guard g) gs →
    (∀ taken : option nat, ∃ r, k taken = Ret r) →
    parkable G (SelectP gs false k).

Definition state_of {A} (o : Outcome A) : Sys :=
  match o with Done _ s | Blocked _ s | Panicked _ s => s end.

Lemma ready_cases_effect G gs n s i s1 :
  Forall (λ g, G g ∧ caller_guard g) gs →
  (i, s1) ∈ ready_cases gs n s → effect G s s1.
Proof.
  intros HG (g & _ & Hi & Hg)%ready_cases_spec.
  apply list_elem_of_lookup_2 in Hi.
  rewrite Forall_forall in HG. destruct (HG g Hi). by eapply eff_guard.
Qed.

(** The clauses a sleeper may wait on are among those a caller may. *)
Lemma Forall_sleeper_caller G gs :
  Forall (λ g, G g ∧ sleeper_guard g) gs →
  Forall (λ g, G g ∧ caller_guard g) gs.
Proof.
  intros HG. eapply Forall_impl; [exact HG|].
  intros g [? ?]. eauto using sleeper_caller_guard.
Qed.

Lemma exec_select_ret G gs dflt (k : option nat → Prog Result) s o :
  Forall (λ g, G g ∧ caller_guard g) gs →
  (∀ taken : option nat, ∃ r, k taken = Ret r) →
  o ∈ exec (SelectP gs dflt k) s →
  (dflt = false ∧ o = Blocked (SelectP gs dflt k) s)
  ∨ (∃ r, o = Done r s)
  ∨ (∃ r s1, o = Done r s1 ∧ effect G s s1).
Proof.
  intros HG Hk Ho.
  change (exec (SelectP gs dflt k) s)
    with (match ready_cases gs 0 s with
          | [] => if dflt then exec (k None) s
                  else [Blocked (SelectP gs dflt k) s]
          | rs => flat_map (λ r, exec (k (Some r.1)) r.2) rs
          end) in Ho.
  destruct (ready_cases gs 0 s) as [|r0 rs] eqn:Hr.
  - destruct dflt.
    + destruct (Hk None) as [r Hr']. rewrite Hr' in Ho.
      apply list_elem_of_singleton in Ho as ->. eauto.
    + apply list_elem_of_singleton in Ho as ->. eauto.
  - rewrite <- Hr in Ho. apply elem_of_flat_map in Ho as ([j s1] & Hin & Ho).
    destruct (Hk (Some j)) as [r Hr']. cbn [fst snd] in Ho.
    rewrite Hr' in Ho. apply list_elem_of_singleton in Ho as ->.
    right; right. exists r, s1. split; [done|].
    by eapply ready_cases_effect.
Qed.

(** A tame call changes the state by elementary effects only, never
    panics, and parks only in a parkable shape. *)
Lemma tame_exec G (prog : Prog Result) s o :
  tame G prog → o ∈ exec prog s →
  rtc (effect G) s (state_of o)
  ∧ match o with
    | Done _ _ => True
    | Blocked k _ => parkable G k
    | Panicked _ _ => False
    end.
Proof.
  intros Htame. revert s.
  induction Htame as [r|e env k _ IH|d k _ IH|c r HG|gs k HG Hk|gs k HG Hk
                      |env f|env millis f]; intros s Ho.
  - apply list_elem_of_singleton in Ho as ->. by split.
  - cbn [exec] in Ho. apply IH in Ho as [Hrtc Ho]. split; [|done].
    eapply rtc_l; [apply eff_eval|done].
  - cbn [exec] in Ho. apply IH in Ho as [Hrtc Ho]. split; [|done].
    eapply rtc_l; [apply eff_timer|done].
  - cbn [exec] in Ho. destruct (guard_fire (SendG c true) s) as [s'|] eqn:Hg.
    + apply list_elem_of_singleton in Ho as ->. split; [|done].
      apply rtc_once. by eapply eff_guard.
    + apply list_elem_of_singleton in Ho as ->. split; [done|].
      by constructor.
  - eapply exec_select_ret in Ho
      as [[? _]|[[r ->]|(r & s1 & -> & Heff)]]; try done.
    split; [|done]. by apply rtc_once.
  - eapply exec_select_ret in Ho
      as [[_ ->]|[[r ->]|(r & s1 & -> & Heff)]];
      [| | |by apply Forall_sleeper_caller|done]; try done.
    + split; [done|]. by constructor.
    + split; [|done]. by apply rtc_once.
  - apply list_elem_of_singleton in Ho as ->. split; [|done].
    apply rtc_once. exact (eff_fork G s env f).
  - apply list_elem_of_singleton in Ho as ->. split; [|done].
    apply rtc_once. exact (eff_schedule G s env millis f).
Qed.

Lemma parkable_exec G (k : Prog Result) s r s' :
  parkable G k → Done r s' ∈ exec k s → effect G s s'.
Proof.
  intros [c r0 HG|gs k0 HG Hk] Ho.
  - cbn [exec] in Ho. destruct (guard_fire (SendG c true) s) as [s1|] eqn:Hg;
      apply list_elem_of_singleton in Ho; [|done].
    injection Ho as _ ->. by eapply eff_guard.
  - apply exec_select in Ho as [[_ ?]|(i & g & s1 & Hi & Hg & Ho)]; [done|].
    destruct (Hk (Some i)) as [r1 Hr]. rewrite Hr in Ho.
    apply list_elem_of_singleton in Ho as [= -> ->].
    apply list_elem_of_lookup_2 in Hi.
    rewrite Forall_forall in HG. destruct (HG g Hi).
    eapply eff_guard; eauto using sleeper_caller_guard.
Qed.

(** Every registered primitive is tame. *)
Lemma primitives_tame G name arity impl args env :
  (name, arity, impl) ∈ RegisterConcurrencyPrimitives →
  (∀ g, primitive_guard name g → G g) →
  tame G (impl args env).
Proof.
  unfold RegisterConcurrencyPrimitives. rewrite !elem_of_cons, elem_of_nil.
  intros [?|[?|[?|[?|[?|[?|[]]]]]]] HG; simplify_eq.
  - unfold ForkImpl. constructor. intros [f|e]; [|constructor].
    destruct (negb (FunctionP f)); [constructor|].
    case_bool_decide; constructor.
  - unfold ProcSleepImpl. constructor. intros [procObj|e]; [|constructor].
    destruct (_ || _); [constructor|].
    constructor. intros [millis|e]; [|constructor].
    destruct (negb (IntegerP millis)); [constructor|].
    constructor. intros t. apply tame_wait; [|by eauto].
    repeat constructor; by apply HG.
  - unfold WakeImpl. constructor. intros [procObj|e]; [|constructor].
    destruct (_ || _); constructor. by apply HG.
  - unfold ScheduleImpl. constructor. intros [millis|e]; [|constructor].
    destruct (negb (IntegerP millis)); [constructor|].
    constructor. intros [f|e]; [|constructor].
    destruct (negb (FunctionP f)); [constructor|].
    case_bool_decide; [constructor|]. apply tame_schedule.
  - unfold ResetTimeoutImpl. constructor. intros [procObj|e]; [|constructor].
    destruct (_ || _); [constructor|].
    apply tame_try; [|by eauto]. repeat constructor. by apply HG.
  - unfold AbandonImpl. constructor. intros [procObj|e]; [|constructor].
    destruct (_ || _); constructor. by apply HG.
Qed.

Lemma primitives_tame_any name arity impl args env :
  (name, arity, impl) ∈ RegisterConcurrencyPrimitives →
  tame (λ _, True) (impl args env).
Proof. intros Hreg. by eapply primitives_tame. Qed.

End Footprint.

(* ===================================================================== *)
(** ** How the elementary operations change the state *)
(* ===================================================================== *)

#[export] Instance Function_eq_dec : EqDecision Function.
Proof. solve_decision. Defined.
#[export] Instance Data_eq_dec : EqDecision Data.
Proof. solve_decision. Defined.

Section Frames.
Context `{Host}.

Implicit Types (s : Sys) (p i : nat) (pr : Process) (c : ChanRef).

(** The callback was applied to this handle by this event. *)
Definition applied_to (procObj : Data) (ev : Event) : bool :=
  match ev with
  | EvApply _ args _ => bool_decide (args = InternalMakeList [procObj])
  | EvEval _ _ => false
  end.

Fixpoint count_applied (procObj : Data) (tr : list Event) : nat :=
  match tr with
  | [] => 0
  | ev :: tr' => (if applied_to procObj ev then 1 else 0) + count_applied procObj tr'
  end.

(** How often a task of this file invoked a callback on the handle. *)
Definition invocations (procObj : Data) (s : Sys) : nat :=
  count_applied procObj (trace s).

Lemma count_applied_app procObj tr1 tr2 :
  count_applied procObj (tr1 ++ tr2)
  = count_applied procObj tr1 + count_applied procObj tr2.
Proof. induction tr1 as [|ev tr1 IH]; simpl; [done|]. rewrite IH. lia. Qed.

(** A channel as the primitives make them: one slot. *)
Definition one_slot {T} (ch : chan T) : Prop := cap ch = 1 ∧ length (buf ch) ≤ 1.

Lemma one_slot_make {T} : one_slot (@make T 1).
Proof. split; simpl; lia. Qed.

Lemma chan_send_Some {T} (ch ch' : chan T) v :
  chan_send ch v = Some ch' ↔
  length (buf ch) < cap ch ∧ ch' = {| cap := cap ch; buf := buf ch ++ [v] |}.
Proof.
  unfold chan_send. destruct (decide _) as [Hlt|Hlt].
  - split; [by intros [= <-]|by intros [_ ->]].
  - split; [done|]. by intros [? _].
Qed.

Lemma chan_send_None {T} (ch : chan T) v : chan_send ch v = None ↔ full ch.
Proof.
  unfold chan_send, full. destruct (decide _) as [Hlt|Hlt].
  - split; [done|lia].
  - split; [lia|done].
Qed.

Lemma chan_recv_Some {T} (ch : chan T) v ch' :
  chan_recv ch = Some (v, ch') ↔
  ∃ rest, buf ch = v :: rest ∧ ch' = {| cap := cap ch; buf := rest |}.
Proof.
  unfold chan_recv. destruct (buf ch) as [|v0 rest0]; split.
  - done.
  - by intros (? & ? & _).
  - intros [= -> <-]. by exists rest0.
  - by intros (? & [= -> <-] & ->).
Qed.

Lemma chan_recv_None {T} (ch : chan T) : chan_recv ch = None ↔ buf ch = [].
Proof. unfold chan_recv. by destruct (buf ch). Qed.

Lemma one_slot_send {T} (ch ch' : chan T) v :
  one_slot ch → chan_send ch v = Some ch' → one_slot ch' ∧ buf ch = [] ∧ buf ch' = [v].
Proof.
  intros [Hcap Hlen] [Hlt ->]%chan_send_Some. rewrite Hcap in Hlt.
  destruct (buf ch) eqn:Hb; simpl in *; [|lia].
  repeat split; simpl; try done; lia.
Qed.

Lemma one_slot_recv {T} (ch ch' : chan T) v :
  one_slot ch → chan_recv ch = Some (v, ch') → one_slot ch' ∧ buf ch = [v] ∧ buf ch' = [].
Proof.
  intros [Hcap Hlen] (rest & Hb & ->)%chan_recv_Some. rewrite Hb in Hlen.
  destruct rest; simpl in *; [|lia]. repeat split; simpl; try done; lia.
Qed.

Lemma one_slot_full {T} (ch : chan T) : one_slot ch → full ch ↔ buf ch ≠ [].
Proof.
  intros [Hcap Hlen]. unfold full. rewrite Hcap.
  destruct (buf ch); simpl; split; intros; try done; lia.
Qed.

(** *** Channel operations through a process address *)

Lemma chan_of_with_chan c c' ch pr :
  chan_of c' (with_chan c ch pr)
  = match c, c' with
    | WakeOf _, WakeOf _ | AbortOf _, AbortOf _ | RestartOf _, RestartOf _ => ch
    | _, _ => chan_of c' pr
    end.
Proof. by destruct c, c'. Qed.

Lemma ScheduleTimer_with_chan c ch pr :
  ScheduleTimer (with_chan c ch pr) = ScheduleTimer pr.
Proof. by destruct c. Qed.

Lemma procs_put_chan c ch s q :
  procs (put_chan c ch s) !! q
  = if decide (q = owner c) then with_chan c ch <$> procs s !! q
    else procs s !! q.
Proof.
  unfold put_chan; simpl. rewrite list_lookup_alter.
  by repeat case_decide; subst.
Qed.

Lemma guard_fire_send c v s s' :
  guard_fire (SendG c v) s = Some s' ↔
  ∃ pr ch', procs s !! owner c = Some pr
            ∧ chan_send (chan_of c pr) v = Some ch' ∧ s' = put_chan c ch' s.
Proof.
  unfold guard_fire, get_chan. split.
  - intros Hg. destruct (procs s !! owner c) as [pr|] eqn:Hp; [|done].
    simpl in Hg. destruct (chan_send (chan_of c pr) v) as [ch'|] eqn:Hs; [|done].
    injection Hg as <-. eauto.
  - intros (pr & ch' & -> & Hs & ->). simpl. by rewrite Hs.
Qed.

Lemma guard_fire_recv c s s' :
  guard_fire (RecvG c) s = Some s' ↔
  ∃ pr v ch', procs s !! owner c = Some pr
              ∧ chan_recv (chan_of c pr) = Some (v, ch') ∧ s' = put_chan c ch' s.
Proof.
  unfold guard_fire, get_chan. split.
  - intros Hg. destruct (procs s !! owner c) as [pr|] eqn:Hp; [|done].
    simpl in Hg.
    destruct (chan_recv (chan_of c pr)) as [[v ch']|] eqn:Hr; [|done].
    injection Hg as <-. by exists pr, v, ch'.
  - intros (pr & v & ch' & -> & Hr & ->). simpl. by rewrite Hr.
Qed.

(** The timer after its tick was taken from [C]. *)
Definition drained (ch : chan Z) (tm : Timer) : Timer :=
  {| C := ch; due := due tm; active := active tm |}.

Lemma guard_fire_timer t s s' :
  guard_fire (TimerG t) s = Some s' ↔
  ∃ i tm v ch', timer_addr t s = Some i ∧ timers s !! i = Some tm
                ∧ chan_recv (C tm) = Some (v, ch')
                ∧ s' = set_timers (<[i := drained ch' tm]> (timers s)) s.
Proof.
  unfold guard_fire. split.
  - intros Hg. destruct (timer_addr t s) as [i|] eqn:Ht; [|done].
    simpl in Hg. destruct (timers s !! i) as [tm|] eqn:Htm; [|done].
    simpl in Hg. destruct (chan_recv (C tm)) as [[v ch']|] eqn:Hr; [|done].
    injection Hg as <-. by exists i, tm, v, ch'.
  - intros (i & tm & v & ch' & -> & Htm & Hr & ->). simpl.
    rewrite Htm. simpl. by rewrite Hr.
Qed.

Lemma guard_fire_trace g s s' :
  guard_fire g s = Some s' → trace s' = trace s ∧ world s' = world s.
Proof.
  destruct g as [c|c v|t].
  - by intros (? & ? & ? & _ & _ & ->)%guard_fire_recv.
  - by intros (? & ? & _ & _ & ->)%guard_fire_send.
  - by intros (? & ? & ? & ? & _ & _ & _ & ->)%guard_fire_timer.
Qed.

Lemma reset_timer_Some t d s s' :
  reset_timer t d s = Some s' ↔
  ∃ i tm, timer_addr t s = Some i ∧ timers s !! i = Some tm
          ∧ s' = set_timers (<[i := Reset (now s) d tm]> (timers s)) s.
Proof.
  unfold reset_timer. split.
  - intros Hg. destruct (timer_addr t s) as [i|] eqn:Ht; [|done].
    simpl in Hg. destruct (timers s !! i) as [tm|] eqn:Htm; [|done].
    injection Hg as <-. by exists i, tm.
  - intros (i & tm & -> & Htm & ->). simpl. by rewrite Htm.
Qed.

End Frames.

(* ===================================================================== *)
(** ** The invariant of the interleaving *)
(* ===================================================================== *)

Section Invariant.
Context `{Host}.

Implicit Types (s : Sys) (p i : nat) (pr : Process) (c : ChanRef) (t : Task).

(** Task [i] belongs to process [i]; its callback ran once if the task
    got that far, and never otherwise; a schedule task leaves its loop
    with [aborted] set only through the abort clause, and its process
    owns an allocated timer. *)
Definition task_ok (s : Sys) (i : nat) (t : Task) : Prop :=
  match t with
  | ForkTask f procObj env finished =>
      procObj = handle i
      ∧ invocations (handle i) s = (if finished then 1 else 0)
  | ScheduleTask proc millis f procObj env aborted running =>
      proc = i ∧ procObj = handle i
      ∧ (running = true → aborted = false)
      ∧ invocations (handle i) s
        = match controller aborted running with Fired => 1 | _ => 0 end
      ∧ ∃ pr tm, procs s !! i = Some pr ∧ ScheduleTimer pr = Some tm
                 ∧ tm < length (timers s)
  end.

Definition proc_ok (pr : Process) : Prop :=
  one_slot (Wake pr) ∧ one_slot (Abort pr) ∧ one_slot (Restart pr).

Record Inv (s : Sys) : Prop := {
  inv_length : length (tasks s) = length (procs s);
  inv_tasks : ∀ i t, tasks s !! i = Some t → task_ok s i t;
  inv_procs : ∀ i pr, procs s !! i = Some pr → proc_ok pr;
  inv_parked : ∀ k, k ∈ parked s → parkable (λ _, True) k;
  inv_fresh : ∀ j, length (procs s) ≤ j → invocations (handle j) s = 0;
}.

(** Changes that keep what [task_ok] reads for task [i]. *)
Definition stable (i : nat) (s s' : Sys) : Prop :=
  invocations (handle i) s' = invocations (handle i) s
  ∧ length (timers s) ≤ length (timers s')
  ∧ (∀ pr, procs s !! i = Some pr →
       ∃ pr', procs s' !! i = Some pr' ∧ ScheduleTimer pr' = ScheduleTimer pr).

Lemma task_ok_stable s s' i t : stable i s s' → task_ok s i t → task_ok s' i t.
Proof.
  intros (Hinv & Htm & Hpr). destruct t as [f procObj env fin
    |proc millis f procObj env aborted running]; simpl.
  - intros [-> Hn]. by rewrite Hinv.
  - intros (-> & -> & Hab & Hn & pr & tm & Hp & Ht & Hlt).
    rewrite Hinv. repeat split; try done.
    destruct (Hpr _ Hp) as (pr' & Hp' & Ht').
    exists pr', tm. rewrite Ht'. repeat split; try done. lia.
Qed.

Lemma stable_put_chan i c ch s : stable i s (put_chan c ch s).
Proof.
  repeat split; try done. intros pr Hp. rewrite procs_put_chan.
  case_decide; rewrite Hp; simpl; eauto using ScheduleTimer_with_chan.
Qed.

Lemma proc_ok_with_chan c ch pr :
  one_slot ch → proc_ok pr → proc_ok (with_chan c ch pr).
Proof. intros Hch (? & ? & ?). by destruct c. Qed.

Lemma Inv_put_chan c ch pr s :
  procs s !! owner c = Some pr → one_slot ch → Inv s → Inv (put_chan c ch s).
Proof.
  intros Hp Hch [Hlen Htasks Hprocs Hparked Hfresh]. split.
  - unfold put_chan; simpl. by rewrite length_alter.
  - intros i t Hi. eapply task_ok_stable; [apply stable_put_chan|].
    by apply Htasks.
  - intros i pr'. rewrite procs_put_chan. case_decide as Hi.
    + subst. rewrite Hp. intros [= <-].
      apply proc_ok_with_chan; [done|]. by eapply Hprocs.
    + apply Hprocs.
  - done.
  - intros j. unfold put_chan; simpl. rewrite length_alter. apply Hfresh.
Qed.

Lemma invocations_evaluated procObj e env s :
  invocations procObj (evaluated e env s) = invocations procObj s.
Proof.
  unfold invocations, evaluated; simpl. rewrite count_applied_app. simpl. lia.
Qed.

Lemma Inv_set_timers ts s :
  length (timers s) ≤ length ts → Inv s → Inv (set_timers ts s).
Proof.
  intros Hts [Hlen Htasks Hprocs Hparked Hfresh]. split; try done.
  intros i t Hi. eapply task_ok_stable; [|by apply Htasks].
  repeat split; try done. eauto.
Qed.

Lemma Inv_guard g s s' :
  caller_guard g → guard_fire g s = Some s' → Inv s → Inv s'.
Proof.
  intros Hg Hfire HI. destruct g as [c|c v|t].
  - apply guard_fire_recv in Hfire as (pr & v & ch' & Hp & Hr & ->).
    apply (Inv_put_chan c ch' pr); try done.
    destruct (inv_procs s HI _ _ Hp) as (? & ? & ?).
    eapply one_slot_recv; [|done]. by destruct c.
  - apply guard_fire_send in Hfire as (pr & ch' & Hp & Hs & ->).
    apply (Inv_put_chan c ch' pr); try done.
    destruct (inv_procs s HI _ _ Hp) as (? & ? & ?).
    eapply one_slot_send; [|done]. by destruct c.
  - apply guard_fire_timer in Hfire as (i & tm & v & ch' & _ & _ & _ & ->).
    apply Inv_set_timers; [|done]. by rewrite length_insert.
Qed.

(** The elementary effects of the callers keep the invariant. *)
Lemma Inv_effect G s s' : effect G s s' → Inv s → Inv s'.
Proof.
  intros [e env|g s1 _ Hg Hfire|d|env f|env millis f] HI.
  - destruct HI as [Hlen Htasks Hprocs Hparked Hfresh]. split; try done.
    + intros i t Hi. eapply task_ok_stable; [|by apply Htasks].
      repeat split; eauto using invocations_evaluated.
    + intros j Hj. rewrite invocations_evaluated. by apply Hfresh.
  - by eapply Inv_guard.
  - apply Inv_set_timers; [|done]. rewrite length_app. lia.
  - destruct HI as [Hlen Htasks Hprocs Hparked Hfresh].
    unfold forked. split; simpl.
    + rewrite !length_app. simpl. lia.
    + intros i t [Hi|[Hi Ht]]%lookup_app_Some.
      * eapply task_ok_stable; [|by apply Htasks].
        repeat split; try done. intros pr Hj. exists pr.
        split; [|done]. simpl. by apply lookup_app_l_Some.
      * destruct (i - length (tasks s)) as [|n] eqn:Hn; [|done].
        simpl in Ht. injection Ht as <-. simpl.
        assert (i = length (procs s)) as -> by lia.
        split; [done|]. by apply (Hfresh (length (procs s))).
    + intros i pr [Hi|[Hi Hp]]%lookup_app_Some; [by eapply Hprocs|].
      destruct (i - length (procs s)) as [|n]; [|done].
      simpl in Hp. injection Hp as <-.
      repeat split; simpl; lia.
    + done.
    + intros j. rewrite length_app. simpl. intros Hj. apply (Hfresh j). lia.
  - destruct HI as [Hlen Htasks Hprocs Hparked Hfresh].
    unfold scheduled. split; simpl.
    + rewrite !length_app. simpl. lia.
    + intros i t [Hi|[Hi Ht]]%lookup_app_Some.
      * eapply task_ok_stable; [|by apply Htasks].
        repeat split; try done.
        -- simpl. rewrite length_app. lia.
        -- intros pr Hj. exists pr.
           split; [|done]. simpl. by apply lookup_app_l_Some.
      * destruct (i - length (tasks s)) as [|n] eqn:Hn; [|done].
        simpl in Ht. injection Ht as <-. simpl.
        assert (i = length (procs s)) as -> by lia.
        repeat split; try done; [by apply (Hfresh (length (procs s)))|].
        eexists _, _. rewrite lookup_app_r, Nat.sub_diag by done.
        simpl. repeat split; try done. rewrite length_app. simpl. lia.
    + intros i pr [Hi|[Hi Hp]]%lookup_app_Some; [by eapply Hprocs|].
      destruct (i - length (procs s)) as [|n]; [|done].
      simpl in Hp. injection Hp as <-.
      repeat split; simpl; lia.
    + done.
    + intros j. rewrite length_app. simpl. intros Hj. apply (Hfresh j). lia.
Qed.

Lemma Inv_effects G s s' : rtc (effect G) s s' → Inv s → Inv s'.
Proof. induction 1; eauto using Inv_effect. Qed.

(** The elementary effects leave the spawned tasks and the parked calls
    as they are, and only add tasks. *)
Lemma effect_tasks G s s' i t :
  effect G s s' → tasks s !! i = Some t → tasks s' !! i = Some t.
Proof.
  intros [e env|g s1 _ Hg Hfire|d|env f|env millis f] Hi; try done.
  - destruct g as [c|c v|tm].
    + by apply guard_fire_recv in Hfire as (? & ? & ? & _ & _ & ->).
    + by apply guard_fire_send in Hfire as (? & ? & _ & _ & ->).
    + by apply guard_fire_timer in Hfire as (? & ? & ? & ? & _ & _ & _ & ->).
  - simpl. by apply lookup_app_l_Some.
  - simpl. by apply lookup_app_l_Some.
Qed.

Lemma effect_parked G s s' : effect G s s' → parked s' = parked s.
Proof.
  intros [e env|g s1 _ Hg Hfire|d|env f|env millis f]; try done.
  destruct g as [c|c v|tm].
  - by apply guard_fire_recv in Hfire as (? & ? & ? & _ & _ & ->).
  - by apply guard_fire_send in Hfire as (? & ? & _ & _ & ->).
  - by apply guard_fire_timer in Hfire as (? & ? & ? & ? & _ & _ & _ & ->).
Qed.

Lemma effects_tasks G s s' i t :
  rtc (effect G) s s' → tasks s !! i = Some t → tasks s' !! i = Some t.
Proof. induction 1; eauto using effect_tasks. Qed.

Lemma effects_parked G s s' : rtc (effect G) s s' → parked s' = parked s.
Proof.
  induction 1 as [|s1 s2 s3 Hstep _ IH]; [done|].
  rewrite IH. by eapply effect_parked.
Qed.

(** *** The tasks *)

Lemma handle_inj i j : handle i = handle j → i = j.
Proof. by intros [= ->]. Qed.

Lemma applied_to_handle i j f env :
  applied_to (handle j) (EvApply f (InternalMakeList [handle i]) env)
  = bool_decide (i = j).
Proof.
  simpl. apply bool_decide_ext. split; [by intros [= ->]|by intros ->].
Qed.

(** Running the callback on the handle of process [i] adds one
    invocation for [i], and changes neither processes, timers, tasks nor
    parked calls. *)
Lemma invoke_frame f i env s recovered s' :
  invoke f (handle i) env s = Some (recovered, s') →
  procs s' = procs s ∧ timers s' = timers s ∧ tasks s' = tasks s
  ∧ parked s' = parked s ∧ now s' = now s
  ∧ trace s' = trace s ++ [EvApply f (InternalMakeList [handle i]) env].
Proof.
  unfold invoke.
  destruct (ApplyWithoutEval f (InternalMakeList [handle i]) env (world s))
    as [[[d|e]|text] w]; cbn [fst snd].
  - by intros [= <- <-].
  - by intros [= <- <-].
  - case_decide; [|done]. by intros [= <- <-].
Qed.

Lemma invoke_invocations f i j env s recovered s' :
  invoke f (handle i) env s = Some (recovered, s') →
  invocations (handle j) s'
  = invocations (handle j) s + (if bool_decide (i = j) then 1 else 0).
Proof.
  intros (_ & _ & _ & _ & _ & Htr)%invoke_frame. unfold invocations.
  rewrite Htr, count_applied_app. cbn [count_applied].
  rewrite applied_to_handle. lia.
Qed.

Lemma task_ok_set_tasks ts s i t : task_ok (set_tasks ts s) i t ↔ task_ok s i t.
Proof. by destruct t. Qed.

(** Replacing task [i] by one that is in order keeps the invariant; the
    old task [i] need not be in order. *)
Lemma Inv_update_task s i t t' :
  length (tasks s) = length (procs s) →
  (∀ j tj, j ≠ i → tasks s !! j = Some tj → task_ok s j tj) →
  (∀ j pr, procs s !! j = Some pr → proc_ok pr) →
  (∀ k, k ∈ parked s → parkable (λ _, True) k) →
  (∀ j, length (procs s) ≤ j → invocations (handle j) s = 0) →
  tasks s !! i = Some t → task_ok s i t' →
  Inv (set_tasks (<[i := t']> (tasks s)) s).
Proof.
  intros Hlen Htasks Hprocs Hparked Hfresh Hi Ht'. split; try done.
  - simpl. by rewrite length_insert.
  - intros j tj. simpl. rewrite task_ok_set_tasks.
    destruct (decide (j = i)) as [->|Hne].
    + rewrite list_lookup_insert_eq by (by eapply lookup_lt_Some).
      by intros [= <-].
    + rewrite list_lookup_insert_ne by done. by apply Htasks.
Qed.

Lemma Inv_replace_task s i t t' :
  Inv s → tasks s !! i = Some t → task_ok s i t' →
  Inv (set_tasks (<[i := t']> (tasks s)) s).
Proof.
  intros [Hlen Htasks Hprocs Hparked Hfresh] Hi Ht'.
  eapply Inv_update_task; eauto.
Qed.

(** After the callback of task [i] ran, the invariant holds again once
    the task is marked with a state that counts the invocation. *)
Lemma Inv_invoke s s' i t t' f env recovered :
  Inv s → tasks s !! i = Some t →
  invoke f (handle i) env s = Some (recovered, s') →
  task_ok s' i t' →
  Inv (set_tasks (<[i := t']> (tasks s')) s').
Proof.
  intros [Hlen Htasks Hprocs Hparked Hfresh] Hi Hinv Ht'.
  pose proof (invoke_frame _ _ _ _ _ _ Hinv) as (Hp & Htm & Hts & Hpk & _ & _).
  apply (Inv_update_task s' i t); rewrite ?Hts, ?Hp, ?Hpk; try done.
  - intros j tj Hne Hj.
    eapply task_ok_stable; [|by apply Htasks].
    repeat split.
    + rewrite (invoke_invocations _ _ j _ _ _ _ Hinv).
      rewrite bool_decide_eq_false_2 by done. lia.
    + by rewrite Htm.
    + rewrite Hp. eauto.
  - intros j Hj.
    rewrite (invoke_invocations _ _ j _ _ _ _ Hinv).
    rewrite bool_decide_eq_false_2; [rewrite Hfresh by done; lia|].
    apply lookup_lt_Some in Hi. lia.
Qed.

Lemma Inv_set_parked ks s :
  (∀ k, k ∈ ks → parkable (λ _, True) k) → Inv s → Inv (set_parked ks s).
Proof.
  intros Hks [Hlen Htasks Hprocs Hparked Hfresh]. by split.
Qed.

Lemma Inv_set_now z s : Inv s → Inv (set_now z s).
Proof.
  intros [Hlen Htasks Hprocs Hparked Hfresh]. by split.
Qed.

Lemma Inv_boot w : Inv (boot w).
Proof.
  split; simpl; try done; intros k Hk; by apply elem_of_nil in Hk.
Qed.

(** Every step of the interleaving keeps the invariant. *)
Lemma Inv_step s l s' : step s l s' → Inv s → Inv s'.
Proof.
  intros Hstep HI. destruct Hstep as
    [name arity impl args env r s s' Hreg Ho
    |name arity impl args env k s s' Hreg Ho
    |i k r s s' Hi Ho
    |i f procObj env o s s' Hi Ho
    |i proc millis f procObj env aborted o s s' Hi Ho
    |tm t t' s Ht Hfire
    |d s Hd].
  - eapply tame_exec in Ho as [Hrtc _]; [|by eapply primitives_tame_any].
    by eapply Inv_effects.
  - eapply tame_exec in Ho as [Hrtc Hk]; [|by eapply primitives_tame_any].
    simpl in Hrtc. pose proof (Inv_effects _ _ _ Hrtc HI) as HI'.
    apply Inv_set_parked; [|done].
    intros k' [Hk'|Hk']%elem_of_app.
    + by apply (inv_parked _ HI').
    + by apply list_elem_of_singleton in Hk' as ->.
  - assert (parkable (λ _, True) k) as Hk.
    { apply (inv_parked _ HI). by eapply list_elem_of_lookup_2. }
    pose proof (parkable_exec _ _ _ _ _ Hk Ho) as Heff.
    pose proof (Inv_effect _ _ _ Heff HI) as HI'.
    apply Inv_set_parked; [|done].
    intros k' Hk'. apply (inv_parked _ HI').
    by eapply list_elem_of_delete_inv.
  - apply forkBody_done in Ho as (rec & Hinv & _).
    destruct (inv_tasks _ HI _ _ Hi) as [-> Hcount].
    eapply Inv_invoke; [done..|]. simpl. split; [done|].
    rewrite (invoke_invocations _ _ i _ _ _ _ Hinv), Hcount.
    by rewrite bool_decide_eq_true_2.
  - destruct (inv_tasks _ HI _ _ Hi)
      as (-> & -> & Hab & Hcount & pr & tm & Hp & Htm & Hlt).
    rewrite Hab in * by done. simpl in Hcount.
    apply scheduleBody_done in Ho
      as [[Hg ->]|[(s1 & Hg & Hreset & ->)|(s1 & rec & Hg & Hinv & ->)]].
    + apply guard_fire_recv in Hg as (pr' & v & ch' & Hp' & Hr & ->).
      simpl in Hp'. rewrite Hp in Hp'. injection Hp' as <-.
      assert (Inv (put_chan (AbortOf i) ch' s)) as HI'.
      { eapply Inv_put_chan; [done| |done].
        eapply one_slot_recv; [|done]. by apply (inv_procs _ HI _ _ Hp). }
      eapply Inv_replace_task; [done|done|]. simpl.
      repeat split; try done. exists (with_chan (AbortOf i) ch' pr), tm.
      rewrite list_lookup_alter, decide_True, Hp by done. done.
    + apply guard_fire_recv in Hg as (pr' & v & ch' & Hp' & Hr & ->).
      simpl in Hp'. rewrite Hp in Hp'. injection Hp' as <-.
      assert (Inv (put_chan (RestartOf i) ch' s)) as HI'.
      { eapply Inv_put_chan; [done| |done].
        eapply one_slot_recv; [|done]. by apply (inv_procs _ HI _ _ Hp). }
      apply reset_timer_Some in Hreset as (j & tm' & Hj & Htm' & ->).
      set (s1 := put_chan (RestartOf i) ch' s) in *.
      assert (Inv (set_timers
                     (<[j := Reset (now s1) (Milliseconds (IntegerValue millis)) tm']>
                        (timers s1)) s1)) as HI''.
      { apply Inv_set_timers; [|done]. by rewrite length_insert. }
      eapply Inv_replace_task; [done|done|]. simpl.
      repeat split; try done.
      exists (with_chan (RestartOf i) ch' pr), tm. simpl.
      rewrite list_lookup_alter, decide_True, Hp by done.
      rewrite length_insert. done.
    + apply guard_fire_timer in Hg as (j & tm' & v & ch' & Hj & Htm' & Hr & ->).
      set (s1 := set_timers (<[j := drained ch' tm']> (timers s)) s) in *.
      assert (Inv s1) as HI'.
      { apply Inv_set_timers; [|done]. by rewrite length_insert. }
      pose proof (invoke_frame _ _ _ _ _ _ Hinv) as (Hp1 & Htm1 & _).
      eapply Inv_invoke; [done|done|done|].
      assert (task_ok s' i
                (ScheduleTask i millis f (handle i) env false false)) as Hok.
      { simpl. repeat split; try done.
        - rewrite (invoke_invocations _ _ i _ _ _ _ Hinv).
          rewrite bool_decide_eq_true_2 by done.
          change (invocations (handle i) s1) with (invocations (handle i) s).
          lia.
        - exists pr, tm. rewrite Hp1, Htm1. simpl. rewrite length_insert. done. }
      by destruct rec.
  - apply Inv_set_timers; [|done]. by rewrite length_insert.
  - by apply Inv_set_now.
Qed.

Lemma Inv_steps s s' : rtc next s s' → Inv s → Inv s'.
Proof. induction 1 as [|s1 s2 s3 [l Hstep] _ IH]; eauto using Inv_step. Qed.

Lemma Inv_reachable s : reachable s → Inv s.
Proof. intros [w Hrtc]. eapply Inv_steps; [done|apply Inv_boot]. Qed.

End Invariant.

(* ===================================================================== *)
(** ** The calls, outcome by outcome *)
(* ===================================================================== *)

Section Calls.
Context `{Host}.

Implicit Types (s : Sys) (p i : nat) (pr : Process) (c : ChanRef).

(** The check [!ObjectP(procObj) || ObjectType(procObj) != "Process"]. *)
Definition notProcess (procObj : Data) : bool :=
  negb (ObjectP procObj) || bool_decide (ObjectType procObj ≠ "Process").

Lemma notProcess_false d : notProcess d = false ↔ ∃ p, d = handle p.
Proof.
  unfold notProcess, handle. split.
  - destruct d; try done. simpl. case_bool_decide as Hty; [done|].
    intros _. rewrite Hty. eauto.
  - by intros [p ->].
Qed.

Definition OK : Result := Ok (StringWithValue "OK").
Definition tooLate : Result :=
  Ok (StringWithValue "task was already completed or abandoned").

(** The error every primitive but [fork] and [schedule] reports for an
    argument that is no [Process] handle. *)
Definition notProcessError (msg : string) (d : Data) (env : SymbolTableFrame)
  : Result :=
  Err (ProcessError (msg +:+ ObjectType d +:+ ".") env).

(** A call parked on its blocking send. *)
Definition parkedSend (c : ChanRef) : Prog Result := SendP c true (Ret OK).

(** [wake] and [abandon]: the blocking send. *)
Lemma exec_WakeImpl args env s :
  exec (WakeImpl args env) s
  = let s1 := evaluated (Car args) env s in
    match value (Car args) env s with
    | Err err => [Done (Err err) s1]
    | Ok procObj =>
        if notProcess procObj then
          [Done (notProcessError
                   "wake expects a Process object expected but received "
                   procObj env) s1]
        else
          match guard_fire (SendG (WakeOf (ObjectValue procObj)) true) s1 with
          | Some s2 => [Done OK s2]
          | None => [Blocked (parkedSend (WakeOf (ObjectValue procObj))) s1]
          end
    end.
Proof.
  unfold WakeImpl, value, evaluated. cbn [exec].
  destruct (Eval (Car args) env (world s)) as [[d|e] w]; cbn [fst snd]; [|done].
  fold (notProcess d). by destruct (notProcess d).
Qed.

Lemma exec_AbandonImpl args env s :
  exec (AbandonImpl args env) s
  = let s1 := evaluated (Car args) env s in
    match value (Car args) env s with
    | Err err => [Done (Err err) s1]
    | Ok procObj =>
        if notProcess procObj then
          [Done (notProcessError
                   "adandon expects a Process object expected but received "
                   procObj env) s1]
        else
          match guard_fire (SendG (AbortOf (ObjectValue procObj)) true) s1 with
          | Some s2 => [Done OK s2]
          | None => [Blocked (parkedSend (AbortOf (ObjectValue procObj))) s1]
          end
    end.
Proof.
  unfold AbandonImpl, value, evaluated. cbn [exec].
  destruct (Eval (Car args) env (world s)) as [[d|e] w]; cbn [fst snd]; [|done].
  fold (notProcess d). by destruct (notProcess d).
Qed.

(** [reset-timeout]: the send that gives up at once. *)
Lemma exec_ResetTimeoutImpl args env s :
  exec (ResetTimeoutImpl args env) s
  = let s1 := evaluated (Car args) env s in
    match value (Car args) env s with
    | Err err => [Done (Err err) s1]
    | Ok procObj =>
        if notProcess procObj then
          [Done (notProcessError
                   "restart expects a Process object expected but received "
                   procObj env) s1]
        else
          match guard_fire (SendG (RestartOf (ObjectValue procObj)) true) s1 with
          | Some s2 => [Done OK s2]
          | None => [Done tooLate s1]
          end
    end.
Proof.
  unfold ResetTimeoutImpl, value, evaluated. cbn [exec].
  destruct (Eval (Car args) env (world s)) as [[d|e] w]; cbn [fst snd]; [|done].
  fold (notProcess d). destruct (notProcess d); [done|].
  cbn [exec ready_cases].
  by destruct (guard_fire (SendG (RestartOf (ObjectValue d)) true) _).
Qed.

(** A send through the address of process [p], in terms of its buffer. *)
Lemma send_after_eval c e env s pr :
  procs s !! owner c = Some pr →
  guard_fire (SendG c true) (evaluated e env s)
  = (λ ch, put_chan c ch (evaluated e env s)) <$> chan_send (chan_of c pr) true.
Proof.
  intros Hp. unfold guard_fire, get_chan. simpl. rewrite Hp. simpl.
  by destruct (chan_send (chan_of c pr) true).
Qed.

(** A [proc-sleep] waiting for its two events: a value on [Wake], or the
    tick of the timer it armed. *)
Definition sleepWait (p t : nat) : Prog Result :=
  SelectP [RecvG (WakeOf p); TimerG (TimerAt t)] false
    (λ taken,
       Ret (Ok (BooleanWithValue match taken with Some 0 => true | _ => false end))).

(** The two events of the race: which are at hand decides the outcomes. *)
Definition race (p t : nat) (s : Sys) : list (Outcome Result) :=
  match guard_fire (RecvG (WakeOf p)) s, guard_fire (TimerG (TimerAt t)) s with
  | Some sw, Some st => [Done (Ok (BooleanD true)) sw; Done (Ok (BooleanD false)) st]
  | Some sw, None => [Done (Ok (BooleanD true)) sw]
  | None, Some st => [Done (Ok (BooleanD false)) st]
  | None, None => [Blocked (sleepWait p t) s]
  end.

Lemma exec_sleepWait p t s : exec (sleepWait p t) s = race p t s.
Proof.
  unfold sleepWait, race. cbn [exec ready_cases].
  by destruct (guard_fire (RecvG (WakeOf p)) s),
              (guard_fire (TimerG (TimerAt t)) s).
Qed.

(** The state in which [proc-sleep] starts to wait: both arguments
    evaluated, the one-shot timer armed. *)
Definition asleep (args : Data) (env : SymbolTableFrame) (millis : Data)
    (s : Sys) : Sys :=
  let s2 := evaluated (Cadr args) env (evaluated (Car args) env s) in
  set_timers (timers s2 ++ [NewTimer (now s2) (Milliseconds (IntegerValue millis))]) s2.

Lemma exec_ProcSleepImpl args env s :
  exec (ProcSleepImpl args env) s
  = let s1 := evaluated (Car args) env s in
    match value (Car args) env s with
    | Err err => [Done (Err err) s1]
    | Ok procObj =>
        if notProcess procObj then
          [Done (notProcessError
                   "proc-sleep expects a Process object expected but received "
                   procObj env) s1]
        else
          let s2 := evaluated (Cadr args) env s1 in
          match value (Cadr args) env s1 with
          | Err err => [Done (Err err) s2]
          | Ok millis =>
              if negb (IntegerP millis) then
                [Done (Err (ProcessError
                   ("proc-sleep expected an integer as a delay, but received "
                      +:+ fmt_v millis +:+ ".") env)) s2]
              else
                exec (sleepWait (ObjectValue procObj) (length (timers s)))
                     (asleep args env millis s)
          end
    end.
Proof.
  unfold ProcSleepImpl, asleep, value, evaluated. cbn [exec].
  destruct (Eval (Car args) env (world s)) as [[d|e] w]; cbn [fst snd]; [|done].
  fold (notProcess d). destruct (notProcess d); [done|]. cbn [exec].
  cbn [world set_world record set_trace].
  destruct (Eval (Cadr args) env w) as [[m|e] w']; cbn [fst snd]; [|done].
  by destruct (negb (IntegerP m)).
Qed.

(** [fork] and [schedule]: the checks on the function. *)
Definition notFunctionError (who : string) (f : Data) (env : SymbolTableFrame)
  : Result :=
  Err (ProcessError
         (who +:+ " expected a function, but received " +:+ fmt_v f +:+ ".") env).
Definition arityError (who : string) (f : Data) (env : SymbolTableFrame)
  : Result :=
  Err (ProcessError
         (who +:+ " expected a function with arity of 1, but it was "
            +:+ pretty (RequiredArgCount (FunctionValue f)) +:+ ".") env).
Definition notIntegerError (who : string) (millis : Data)
    (env : SymbolTableFrame) : Result :=
  Err (ProcessError
         (who +:+ " expected an integer as a delay, but received "
            +:+ fmt_v millis +:+ ".") env).

Lemma exec_ForkImpl args env s :
  exec (ForkImpl args env) s
  = let s1 := evaluated (Car args) env s in
    match value (Car args) env s with
    | Err err => [Done (Err err) s1]
    | Ok f =>
        if negb (FunctionP f) then [Done (notFunctionError "fork" f env) s1]
        else if bool_decide (RequiredArgCount (FunctionValue f) ≠ 1%Z) then
          [Done (arityError "fork" f env) s1]
        else [Done (Ok (handle (length (procs s)))) (forked env f s1)]
    end.
Proof.
  unfold ForkImpl, value, evaluated. cbn [exec].
  destruct (Eval (Car args) env (world s)) as [[f|e] w]; cbn [fst snd]; [|done].
  destruct (negb (FunctionP f)); [done|]. by case_bool_decide.
Qed.

Lemma exec_ScheduleImpl args env s :
  exec (ScheduleImpl args env) s
  = let s1 := evaluated (Car args) env s in
    match value (Car args) env s with
    | Err err => [Done (Err err) s1]
    | Ok millis =>
        if negb (IntegerP millis) then
          [Done (notIntegerError "schedule" millis env) s1]
        else
          let s2 := evaluated (Cadr args) env s1 in
          match value (Cadr args) env s1 with
          | Err err => [Done (Err err) s2]
          | Ok f =>
              if negb (FunctionP f) then
                [Done (notFunctionError "schedule" f env) s2]
              else if bool_decide (RequiredArgCount (FunctionValue f) ≠ 1%Z) then
                [Done (arityError "schedule" f env) s2]
              else
                [Done (Ok (handle (length (procs s))))
                      (scheduled env millis f s2)]
          end
    end.
Proof.
  unfold ScheduleImpl, value, evaluated. cbn [exec].
  destruct (Eval (Car args) env (world s)) as [[m|e] w]; cbn [fst snd]; [|done].
  destruct (negb (IntegerP m)); [done|]. cbn [exec].
  cbn [world set_world record set_trace].
  destruct (Eval (Cadr args) env w) as [[f|e] w']; cbn [fst snd]; [|done].
  destruct (negb (FunctionP f)); [done|]. by case_bool_decide.
Qed.

(** A one-slot channel takes a value exactly when it is empty. *)
Lemma one_slot_chan_send {T} (ch : chan T) v :
  one_slot ch →
  chan_send ch v
  = match buf ch with
    | [] => Some {| cap := 1; buf := [v] |}
    | _ => None
    end.
Proof.
  intros [Hcap Hlen]. unfold chan_send. rewrite Hcap.
  destruct (decide (length (buf ch) < 1)) as [Hlt|Hlt];
    destruct (buf ch) as [|v0 rest]; simpl in *; try done; lia.
Qed.

(** The state once [true] sits in the slot of channel [c]. *)
Definition delivered (c : ChanRef) (s : Sys) : Sys :=
  put_chan c {| cap := 1; buf := [true] |} s.

Lemma exec_parkedSend c s pr :
  procs s !! owner c = Some pr → one_slot (chan_of c pr) →
  exec (parkedSend c) s
  = match buf (chan_of c pr) with
    | [] => [Done OK (delivered c s)]
    | _ => [Blocked (parkedSend c) s]
    end.
Proof.
  intros Hp Hslot. unfold parkedSend. cbn [exec].
  unfold guard_fire, get_chan. rewrite Hp. simpl.
  rewrite one_slot_chan_send by done.
  by destruct (buf (chan_of c pr)).
Qed.

Lemma sent_after_eval c e env s pr :
  procs s !! owner c = Some pr → one_slot (chan_of c pr) →
  guard_fire (SendG c true) (evaluated e env s)
  = match buf (chan_of c pr) with
    | [] => Some (delivered c (evaluated e env s))
    | _ => None
    end.
Proof.
  intros Hp Hslot. rewrite (send_after_eval _ _ _ _ pr) by done.
  rewrite one_slot_chan_send by done.
  by destruct (buf (chan_of c pr)).
Qed.

End Calls.

(* ===================================================================== *)
(** ** Properties of the primitives *)
(* ===================================================================== *)

Section Properties.
Context `{Host}.

Implicit Types (s : Sys) (p i : nat) (pr : Process) (c : ChanRef).

Lemma reachable_proc_ok s p pr :
  reachable s → procs s !! p = Some pr → proc_ok pr.
Proof. intros Hs%Inv_reachable. apply (inv_procs _ Hs). Qed.

(** C7: [wake] on a [Process] handle sends one [true] into the one-slot
    [Wake] channel of the process.  With the slot empty the call returns
    the string ["OK"] at once; with the slot taken the call parks, stays
    parked in every later state in which the slot is still taken, and
    returns ["OK"] in a state in which the slot was emptied.  Nothing
    but the handle is checked. *)
Theorem wake_delivers_or_parks args env s p pr :
  reachable s →
  value (Car args) env s = Ok (handle p) →
  procs s !! p = Some pr →
  let s1 := evaluated (Car args) env s in
  cap (Wake pr) = 1
  ∧ (buf (Wake pr) = [] →
       exec (WakeImpl args env) s = [Done OK (delivered (WakeOf p) s1)])
  ∧ (buf (Wake pr) ≠ [] →
       exec (WakeImpl args env) s = [Blocked (parkedSend (WakeOf p)) s1])
  ∧ (∀ s2 pr2, reachable s2 → procs s2 !! p = Some pr2 →
       (buf (Wake pr2) ≠ [] →
          exec (parkedSend (WakeOf p)) s2 = [Blocked (parkedSend (WakeOf p)) s2])
       ∧ (buf (Wake pr2) = [] →
            exec (parkedSend (WakeOf p)) s2 = [Done OK (delivered (WakeOf p) s2)])).
Proof.
  intros Hs Hv Hp s1.
  destruct (reachable_proc_ok _ _ _ Hs Hp) as (Hwake & _ & _).
  assert (exec (WakeImpl args env) s
          = match buf (Wake pr) with
            | [] => [Done OK (delivered (WakeOf p) s1)]
            | _ => [Blocked (parkedSend (WakeOf p)) s1]
            end) as Hexec.
  { rewrite exec_WakeImpl, Hv. cbn zeta.
    rewrite (proj2 (notProcess_false (handle p))) by eauto.
    cbn [ObjectValue handle].
    rewrite (sent_after_eval (WakeOf p) _ _ _ pr) by done.
    simpl. by destruct (buf (Wake pr)). }
  split; [apply Hwake|]. split; [|split].
  - intros Hb. by rewrite Hexec, Hb.
  - intros Hb. rewrite Hexec. by destruct (buf (Wake pr)).
  - intros s2 pr2 Hs2 Hp2.
    destruct (reachable_proc_ok _ _ _ Hs2 Hp2) as (Hwake2 & _ & _).
    rewrite (exec_parkedSend (WakeOf p) _ pr2) by done. simpl.
    split; intros Hb; by destruct (buf (Wake pr2)).
Qed.

(** *** The race of [proc-sleep] *)

Lemma fire_NewTimer z now0 d :
  is_Some (fire z (NewTimer now0 d)) ↔ (when now0 d ≤ z)%Z.
Proof.
  unfold fire, NewTimer. simpl. case_bool_decide; split; try done.
Qed.

Lemma race_outcome p t s o :
  o ∈ race p t s →
  (∃ sw, o = Done (Ok (BooleanD true)) sw
         ∧ guard_fire (RecvG (WakeOf p)) s = Some sw)
  ∨ (∃ st, o = Done (Ok (BooleanD false)) st
           ∧ guard_fire (TimerG (TimerAt t)) s = Some st)
  ∨ (o = Blocked (sleepWait p t) s
     ∧ guard_fire (RecvG (WakeOf p)) s = None
     ∧ guard_fire (TimerG (TimerAt t)) s = None).
Proof.
  unfold race.
  destruct (guard_fire (RecvG (WakeOf p)) s) as [sw|],
           (guard_fire (TimerG (TimerAt t)) s) as [st|];
    rewrite ?elem_of_cons, ?elem_of_nil; intros Ho;
    repeat (destruct Ho as [->|Ho]); try done; eauto 6.
Qed.

(** C4: [proc-sleep] on a [Process] handle and an integer arms a
    one-shot timer of that many milliseconds and waits for two events
    only: a value on the [Wake] channel of the process, and the tick of
    that timer.  Each way the call returns carries one boolean: [true]
    together with the wake having been received, [false] together with
    the tick having been received; with only one of the two at hand that
    one decides, and with neither the call stays parked. *)
Theorem proc_sleep_race args env s p n :
  value (Car args) env s = Ok (handle p) →
  value (Cadr args) env (evaluated (Car args) env s) = Ok (IntegerD n) →
  let t := length (timers s) in
  let s3 := asleep args env (IntegerD n) s in
  timers s3 !! t = Some (NewTimer (now s) (Milliseconds n))
  ∧ (∀ z, is_Some (fire z (NewTimer (now s) (Milliseconds n)))
          ↔ (when (now s) (Milliseconds n) ≤ z)%Z)
  ∧ exec (ProcSleepImpl args env) s = race p t s3
  ∧ guard_fire (TimerG (TimerAt t)) s3 = None
  ∧ (∀ s4, exec (sleepWait p t) s4 = race p t s4)
  ∧ (∀ s4 o, o ∈ race p t s4 →
       (∃ sw, o = Done (Ok (BooleanD true)) sw
              ∧ guard_fire (RecvG (WakeOf p)) s4 = Some sw)
       ∨ (∃ st, o = Done (Ok (BooleanD false)) st
                ∧ guard_fire (TimerG (TimerAt t)) s4 = Some st)
       ∨ (o = Blocked (sleepWait p t) s4
          ∧ guard_fire (RecvG (WakeOf p)) s4 = None
          ∧ guard_fire (TimerG (TimerAt t)) s4 = None)).
Proof.
  intros Hp Hn t s3.
  assert (timers s3 !! t = Some (NewTimer (now s) (Milliseconds n))) as Ht.
  { unfold s3, asleep, t. simpl. by rewrite lookup_app_r, Nat.sub_diag. }
  split; [done|]. split; [intros z; apply fire_NewTimer|].
  split; [|split; [|split]].
  - rewrite exec_ProcSleepImpl, Hp. cbn zeta.
    rewrite (proj2 (notProcess_false (handle p))) by eauto.
    rewrite Hn. simpl negb. cbn iota. apply exec_sleepWait.
  - unfold guard_fire. cbn [timer_addr mbind option_bind]. by rewrite Ht.
  - apply exec_sleepWait.
  - apply race_outcome.
Qed.

(** *** The order of the checks of [proc-sleep] *)

(** The error [proc-sleep] reports for its first argument, if any. *)
Definition processArgumentError (args : Data) (env : SymbolTableFrame)
    (s : Sys) : option Result :=
  match value (Car args) env s with
  | Err err => Some (Err err)
  | Ok procObj =>
      if notProcess procObj then
        Some (notProcessError
                "proc-sleep expects a Process object expected but received "
                procObj env)
      else None
  end.

(** C10: [proc-sleep] evaluates and checks the process expression before
    it evaluates the milliseconds expression.  When the first argument
    fails to evaluate or is no [Process] handle, the call returns that
    error at once, having evaluated the first expression only -- whatever
    the second expression is; otherwise the second expression is
    evaluated next, after the first. *)
Theorem proc_sleep_left_to_right args env s :
  let s1 := evaluated (Car args) env s in
  trace s1 = trace s ++ [EvEval (Car args) env]
  ∧ world s1 = (Eval (Car args) env (world s)).2
  ∧ match processArgumentError args env s with
    | Some err =>
        exec (ProcSleepImpl args env) s = [Done err s1]
        ∧ (∃ e, err = Err e)
        ∧ ∀ args', Car args' = Car args →
            exec (ProcSleepImpl args' env) s = [Done err s1]
    | None =>
        ∀ o, o ∈ exec (ProcSleepImpl args env) s →
          trace (state_of o)
          = trace s ++ [EvEval (Car args) env; EvEval (Cadr args) env]
    end.
Proof.
  intros s1. split; [done|]. split; [done|].
  unfold processArgumentError.
  destruct (value (Car args) env s) as [d|e] eqn:Hv;
    [destruct (notProcess d) eqn:Hd|].
  - split; [|split; [by eexists|]].
    + by rewrite exec_ProcSleepImpl, Hv, Hd.
    + intros args' Hcar. by rewrite exec_ProcSleepImpl, Hcar, Hv, Hd.
  - intros o. rewrite exec_ProcSleepImpl, Hv, Hd. cbn zeta. fold s1.
    assert (trace (evaluated (Cadr args) env s1)
            = trace s ++ [EvEval (Car args) env; EvEval (Cadr args) env])
      as Htr by (simpl; by rewrite <- (assoc_L (++))).
    destruct (value (Cadr args) env s1) as [m|e];
      [destruct (negb (IntegerP m))|].
    + intros ->%list_elem_of_singleton. exact Htr.
    + rewrite exec_sleepWait.
      intros [(sw & -> & Hg)|[(st & -> & Hg)|(-> & _)]]%race_outcome;
        simpl; [apply guard_fire_trace in Hg as [-> _]..|]; exact Htr.
    + intros ->%list_elem_of_singleton. exact Htr.
  - split; [|split; [by eexists|]].
    + by rewrite exec_ProcSleepImpl, Hv.
    + intros args' Hcar. by rewrite exec_ProcSleepImpl, Hcar, Hv.
Qed.

(** *** Rejected calls of [fork] and [schedule] *)

Inductive Spawner : Type := fork | schedule.

Definition spawnerImpl (who : Spawner) : Data → SymbolTableFrame → Prog Result :=
  match who with fork => ForkImpl | schedule => ScheduleImpl end.

(** Nothing was allocated, started, parked, logged or invoked between
    [s] and [s']. *)
Definition spawns_nothing (s s' : Sys) : Prop :=
  tasks s' = tasks s ∧ procs s' = procs s ∧ timers s' = timers s
  ∧ parked s' = parked s ∧ logs s' = logs s ∧ now s' = now s
  ∧ ∀ procObj, invocations procObj s' = invocations procObj s.

Lemma spawns_nothing_evaluated e env s : spawns_nothing s (evaluated e env s).
Proof.
  unfold spawns_nothing. repeat (split; [done|]).
  intros procObj. apply invocations_evaluated.
Qed.

Lemma spawns_nothing_trans s1 s2 s3 :
  spawns_nothing s1 s2 → spawns_nothing s2 s3 → spawns_nothing s1 s3.
Proof.
  intros (? & ? & ? & ? & ? & ? & ?) (? & ? & ? & ? & ? & ? & ?).
  repeat split; try congruence.
Qed.

(** The calls the claim is about: the function expression yields a value
    that is no function, or a function whose required-argument count is
    not 1; for [schedule], also a delay that is no integer.  With each,
    the error of the source and the state the call ends in. *)
Inductive rejects (args : Data) (env : SymbolTableFrame) (s : Sys)
  : Spawner → Result → Sys → Prop :=
| fork_not_callable f :
    value (Car args) env s = Ok f → FunctionP f = false →
    rejects args env s fork (notFunctionError "fork" f env)
            (evaluated (Car args) env s)
| fork_arity f :
    value (Car args) env s = Ok f → FunctionP f = true →
    RequiredArgCount (FunctionValue f) ≠ 1%Z →
    rejects args env s fork (arityError "fork" f env)
            (evaluated (Car args) env s)
| schedule_not_integer millis :
    value (Car args) env s = Ok millis → IntegerP millis = false →
    rejects args env s schedule (notIntegerError "schedule" millis env)
            (evaluated (Car args) env s)
| schedule_not_callable millis f :
    value (Car args) env s = Ok millis → IntegerP millis = true →
    value (Cadr args) env (evaluated (Car args) env s) = Ok f →
    FunctionP f = false →
    rejects args env s schedule (notFunctionError "schedule" f env)
            (evaluated (Cadr args) env (evaluated (Car args) env s))
| schedule_arity millis f :
    value (Car args) env s = Ok millis → IntegerP millis = true →
    value (Cadr args) env (evaluated (Car args) env s) = Ok f →
    FunctionP f = true → RequiredArgCount (FunctionValue f) ≠ 1%Z →
    rejects args env s schedule (arityError "schedule" f env)
            (evaluated (Cadr args) env (evaluated (Car args) env s)).

(** C5: [fork] and [schedule] return an error, as the result of the call
    itself, when the function expression yields no function (the
    "expected a function" error) or a function whose required-argument
    count is not 1 (the "arity of 1" error), and [schedule] when its
    delay is no integer; the call then has only evaluated its
    arguments: no process, timer or task was created, nothing was
    logged and no callback was invoked. *)
Theorem spawner_rejects_invalid args env s who r s' :
  rejects args env s who r s' →
  exec (spawnerImpl who args env) s = [Done r s']
  ∧ (∃ e, r = Err e)
  ∧ spawns_nothing s s'.
Proof.
  intros [f Hv Hf|f Hv Hf Har|m Hv Hm|m f Hv Hm Hv' Hf|m f Hv Hm Hv' Hf Har];
    cbn [spawnerImpl].
  - rewrite exec_ForkImpl, Hv, Hf. simpl.
    eauto using spawns_nothing_evaluated.
  - rewrite exec_ForkImpl, Hv, Hf. simpl.
    rewrite bool_decide_eq_true_2 by done.
    eauto using spawns_nothing_evaluated.
  - rewrite exec_ScheduleImpl, Hv, Hm. simpl.
    eauto using spawns_nothing_evaluated.
  - rewrite exec_ScheduleImpl, Hv, Hm. cbn [negb]. cbn iota zeta.
    rewrite Hv', Hf. simpl.
    eauto using spawns_nothing_evaluated, spawns_nothing_trans.
  - rewrite exec_ScheduleImpl, Hv, Hm. cbn [negb]. cbn iota zeta.
    rewrite Hv', Hf. cbn [negb]. cbn iota.
    rewrite bool_decide_eq_true_2 by done.
    split; [done|]. split; [by eexists|].
    eauto using spawns_nothing_evaluated, spawns_nothing_trans.
Qed.

End Properties.

(* ===================================================================== *)
(** ** What the steps do to one process and to one task *)
(* ===================================================================== *)

Section Stability.
Context `{Host}.

Implicit Types (s : Sys) (p i : nat) (pr : Process) (c : ChanRef) (t : Task).

(** The channel operations of callers on process [p]: a send of [true]
    on one of its channels, or a receive from its [Wake] channel. *)
Inductive chan_op (G : Guard → Prop) (p : nat) (pr : Process) : Process → Prop :=
| op_send c ch' :
    owner c = p → G (SendG c true) →
    chan_send (chan_of c pr) true = Some ch' →
    chan_op G p pr (with_chan c ch' pr)
| op_recv_wake v ch' :
    G (RecvG (WakeOf p)) →
    chan_recv (Wake pr) = Some (v, ch') →
    chan_op G p pr (with_chan (WakeOf p) ch' pr).

Lemma put_chan_other c ch s q :
  q ≠ owner c → procs (put_chan c ch s) !! q = procs s !! q.
Proof. intros Hq. rewrite procs_put_chan. by rewrite decide_False. Qed.

Lemma put_chan_owner c ch s pr :
  procs s !! owner c = Some pr →
  procs (put_chan c ch s) !! owner c = Some (with_chan c ch pr).
Proof. intros Hp. rewrite procs_put_chan, decide_True, Hp by done. done. Qed.

Lemma effect_proc G s s' p pr :
  effect G s s' → procs s !! p = Some pr →
  ∃ pr', procs s' !! p = Some pr' ∧ rtc (chan_op G p) pr pr'.
Proof.
  intros [e env|g s1 HG Hg Hfire|d|env f|env millis f] Hp.
  - by exists pr.
  - destruct g as [c|c v|t].
    + destruct c as [q|q|q]; try done.
      apply guard_fire_recv in Hfire as (pr0 & v & ch' & Hq & Hr & ->).
      simpl in Hq. destruct (decide (p = q)) as [->|Hne].
      * rewrite Hp in Hq. injection Hq as <-.
        eexists. split; [by apply (put_chan_owner (WakeOf q))|].
        apply rtc_once. by eapply op_recv_wake.
      * exists pr. by rewrite put_chan_other.
    + simpl in Hg. subst v.
      apply guard_fire_send in Hfire as (pr0 & ch' & Hq & Hs & ->).
      destruct (decide (p = owner c)) as [->|Hne].
      * rewrite Hp in Hq. injection Hq as <-.
        eexists. split; [by apply put_chan_owner|].
        apply rtc_once. by eapply op_send.
      * exists pr. by rewrite put_chan_other.
    + apply guard_fire_timer in Hfire as (? & ? & ? & ? & _ & _ & _ & ->).
      by exists pr.
  - by exists pr.
  - exists pr. split; [|done]. simpl. by apply lookup_app_l_Some.
  - exists pr. split; [|done]. simpl. by apply lookup_app_l_Some.
Qed.

Lemma effects_proc G s s' p pr :
  rtc (effect G) s s' → procs s !! p = Some pr →
  ∃ pr', procs s' !! p = Some pr' ∧ rtc (chan_op G p) pr pr'.
Proof.
  intros Hrtc. revert pr. induction Hrtc as [s|s s1 s2 Heff _ IH]; intros pr Hp.
  - by exists pr.
  - destruct (effect_proc _ _ _ _ _ Heff Hp) as (pr1 & Hp1 & Hops).
    destruct (IH _ Hp1) as (pr2 & Hp2 & Hops').
    exists pr2. split; [done|]. by etrans.
Qed.

(** A channel that only takes sends grows. *)
Definition grows {T} (ch ch' : chan T) : Prop :=
  cap ch' = cap ch ∧ buf ch `prefix_of` buf ch'.

#[local] Instance grows_preorder {T} : PreOrder (@grows T).
Proof.
  split.
  - by split.
  - intros ch1 ch2 ch3 [? ?] [? ?]. split; [congruence|by etrans].
Qed.

Lemma chan_send_grows {T} (ch ch' : chan T) v :
  chan_send ch v = Some ch' → grows ch ch'.
Proof. intros [_ ->]%chan_send_Some. split; [done|]. by apply prefix_app_r. Qed.

Lemma chan_op_grows G p pr pr' :
  chan_op G p pr pr' →
  grows (Abort pr) (Abort pr') ∧ grows (Restart pr) (Restart pr')
  ∧ ScheduleTimer pr' = ScheduleTimer pr.
Proof.
  intros [c ch' _ _ Hs|v ch' _ _].
  - apply chan_send_grows in Hs. by destruct c.
  - done.
Qed.

Lemma chan_ops_grows G p pr pr' :
  rtc (chan_op G p) pr pr' →
  grows (Abort pr) (Abort pr') ∧ grows (Restart pr) (Restart pr')
  ∧ ScheduleTimer pr' = ScheduleTimer pr.
Proof.
  induction 1 as [|pr1 pr2 pr3 Hop _ (IH1 & IH2 & IH3)]; [done|].
  apply chan_op_grows in Hop as (? & ? & ?).
  split; [|split]; [by etrans|by etrans|congruence].
Qed.

(** Without a send on channel [c0], channel [c0] is left as it is. *)
Definition no_send (c0 : ChanRef) (g : Guard) : Prop := g ≠ SendG c0 true.

Lemma chan_ops_keep c0 pr pr' :
  (∀ q, c0 ≠ WakeOf q) →
  rtc (chan_op (no_send c0) (owner c0)) pr pr' →
  chan_of c0 pr' = chan_of c0 pr.
Proof.
  intros Hc0. induction 1 as [|pr1 pr2 pr3 Hop _ IH]; [done|].
  rewrite IH. destruct Hop as [c ch' Hown HG Hs|v ch' _ _].
  - rewrite chan_of_with_chan.
    destruct c0 as [q0|q0|q0], c as [q|q|q]; simpl in *; try done;
      subst; by destruct HG.
  - rewrite chan_of_with_chan. destruct c0; [by edestruct Hc0|done..].
Qed.

(** A task that runs no loop on the channels of its process: a fork
    task, or a schedule task that left its loop. *)
Definition idle (t : Task) : Prop :=
  match t with
  | ForkTask _ _ _ _ => True
  | ScheduleTask _ _ _ _ _ _ running => running = false
  end.

(** What one iteration of a schedule task leaves untouched. *)
Lemma scheduleBody_frame proc millis f env aborted s o s' :
  Done o s' ∈ exec (scheduleBody proc millis f (handle proc) env aborted) s →
  tasks s' = tasks s ∧ parked s' = parked s
  ∧ ∀ q, q ≠ proc → procs s' !! q = procs s !! q.
Proof.
  intros [[Hg ->]|[(s1 & Hg & Hreset & ->)|(s1 & rec & Hg & Hinv & ->)]]
    %scheduleBody_done.
  - apply guard_fire_recv in Hg as (pr' & v & ch' & _ & _ & ->).
    repeat split; try done. intros q Hq. by apply put_chan_other.
  - apply guard_fire_recv in Hg as (pr' & v & ch' & _ & _ & ->).
    apply reset_timer_Some in Hreset as (j & tm' & _ & _ & ->).
    repeat split; try done. intros q Hq. by apply put_chan_other.
  - apply guard_fire_timer in Hg as (j & tm' & v & ch' & _ & _ & _ & ->).
    apply invoke_frame in Hinv as (-> & _ & -> & -> & _).
    done.
Qed.

(** The step with this label changes the state by the channel
    operations [G] only. *)
Definition label_ok (G : Guard → Prop) (s : Sys) (l : Label) : Prop :=
  match l with
  | LCall name args env r =>
      ∀ arity impl s', (name, arity, impl) ∈ RegisterConcurrencyPrimitives →
        Done r s' ∈ exec (impl args env) s → rtc (effect G) s s'
  | LPark name args env =>
      ∀ arity impl k s', (name, arity, impl) ∈ RegisterConcurrencyPrimitives →
        Blocked k s' ∈ exec (impl args env) s → rtc (effect G) s s'
  | LResume j _ => ∀ k, parked s !! j = Some k → parkable G k
  | _ => True
  end.

Lemma label_ok_any s l : Inv s → label_ok (λ _, True) s l.
Proof.
  intros HI. destruct l as [name args env r|name args env|j r| | | |]; simpl;
    try done.
  - intros arity impl s' Hreg Ho.
    by eapply (tame_exec _ _ _ (Done r s')); [by eapply primitives_tame_any|].
  - intros arity impl k s' Hreg Ho.
    by eapply (tame_exec _ _ _ (Blocked k s')); [by eapply primitives_tame_any|].
  - intros k Hk. apply (inv_parked _ HI). by eapply list_elem_of_lookup_2.
Qed.

(** A step other than an iteration of the schedule task of process [p]
    changes process [p] by the channel operations of callers only. *)
Lemma step_proc G s l s' p pr :
  step s l s' → Inv s → label_ok G s l →
  (∀ o, l ≠ LSchedule p o) →
  procs s !! p = Some pr →
  ∃ pr', procs s' !! p = Some pr' ∧ rtc (chan_op G p) pr pr'.
Proof.
  intros Hstep HI Hok Hl Hp. destruct Hstep as
    [name arity impl args env r s s' Hreg Ho
    |name arity impl args env k s s' Hreg Ho
    |i k r s s' Hi Ho
    |i f procObj env o s s' Hi Ho
    |i proc millis f procObj env aborted o s s' Hi Ho
    |tm t t' s Ht Hfire
    |d s Hd]; simpl in Hok.
  - eapply effects_proc; [|done]. by eapply Hok.
  - change (procs (set_parked (parked s' ++ [k]) s')) with (procs s').
    eapply effects_proc; [|done]. by eapply Hok.
  - change (procs (set_parked (delete i (parked s')) s')) with (procs s').
    eapply effect_proc; [|done]. eapply parkable_exec; [|done]. by apply Hok.
  - apply forkBody_done in Ho as (rec & Hinv & _).
    destruct (inv_tasks _ HI _ _ Hi) as [-> _].
    apply invoke_frame in Hinv as (Hps & _). simpl. rewrite Hps. by exists pr.
  - destruct (inv_tasks _ HI _ _ Hi) as (-> & -> & _).
    apply scheduleBody_frame in Ho as (_ & _ & Hps). simpl.
    rewrite Hps; [by exists pr|]. intros ->. by eapply Hl.
  - by exists pr.
  - by exists pr.
Qed.

(** An idle task stays idle, and no step is an iteration of it. *)
Lemma step_idle s l s' i t :
  step s l s' → Inv s → tasks s !! i = Some t → idle t →
  (∀ o, l ≠ LSchedule i o)
  ∧ ∃ t', tasks s' !! i = Some t' ∧ idle t'
          ∧ match t with
            | ScheduleTask _ _ _ _ _ _ _ => t' = t
            | ForkTask _ _ _ _ => True
            end.
Proof.
  intros Hstep HI Ht Hidle. destruct Hstep as
    [name arity impl args env r s s' Hreg Ho
    |name arity impl args env k s s' Hreg Ho
    |j k r s s' Hj Ho
    |j f procObj env o s s' Hj Ho
    |j proc millis f procObj env aborted o s s' Hj Ho
    |tm tm1 tm2 s Htm Hfire
    |d s Hd]; (split; [try done|]).
  - exists t. split; [|by destruct t].
    eapply tame_exec in Ho as [Hrtc _]; [|by eapply primitives_tame_any].
    by eapply effects_tasks.
  - exists t. split; [|by destruct t].
    eapply tame_exec in Ho as [Hrtc _]; [|by eapply primitives_tame_any].
    change (tasks (set_parked (parked s' ++ [k]) s')) with (tasks s').
    by eapply effects_tasks.
  - exists t. split; [|by destruct t].
    change (tasks (set_parked (delete j (parked s')) s')) with (tasks s').
    eapply effect_tasks; [|done]. eapply parkable_exec; [|done].
    apply (inv_parked _ HI). by eapply list_elem_of_lookup_2.
  - apply forkBody_done in Ho as (rec & Hinv & _).
    destruct (inv_tasks _ HI _ _ Hj) as [-> _].
    apply invoke_frame in Hinv as (_ & _ & Hts & _). simpl. rewrite Hts.
    destruct (decide (i = j)) as [->|Hne].
    + rewrite list_lookup_insert_eq by (by eapply lookup_lt_Some).
      rewrite Ht in Hj. injection Hj as ->. by eexists.
    + rewrite list_lookup_insert_ne by done. exists t. by destruct t.
  - intros o' [= -> ->]. rewrite Ht in Hj. by injection Hj as ->.
  - destruct (inv_tasks _ HI _ _ Hj) as (-> & -> & _).
    apply scheduleBody_frame in Ho as (Hts & _). simpl. rewrite Hts.
    destruct (decide (i = j)) as [->|Hne].
    + rewrite Ht in Hj. by injection Hj as ->.
    + rewrite list_lookup_insert_ne by done. exists t. by destruct t.
  - exists t. by destruct t.
  - exists t. by destruct t.
Qed.

(** The variables a task captured when it was started. *)
Definition captured (t : Task) : option nat * option Data * Data * Data * SymbolTableFrame :=
  match t with
  | ForkTask f procObj env _ => (None, None, f, procObj, env)
  | ScheduleTask proc millis f procObj env _ _ =>
      (Some proc, Some millis, f, procObj, env)
  end.

Lemma captured_afterIteration proc millis f procObj env aborted o :
  captured (afterIteration proc millis f procObj env aborted o)
  = captured (ScheduleTask proc millis f procObj env aborted true).
Proof. by destruct o as [[a []]|]. Qed.

(** No step changes what a task captured. *)
Lemma step_captured s l s' i t :
  step s l s' → Inv s → tasks s !! i = Some t →
  ∃ t', tasks s' !! i = Some t' ∧ captured t' = captured t.
Proof.
  intros Hstep HI Ht. destruct Hstep as
    [name arity impl args env r s s' Hreg Ho
    |name arity impl args env k s s' Hreg Ho
    |j k r s s' Hj Ho
    |j f procObj env o s s' Hj Ho
    |j proc millis f procObj env aborted o s s' Hj Ho
    |tm tm1 tm2 s Htm Hfire
    |d s Hd].
  - exists t. split; [|done].
    eapply tame_exec in Ho as [Hrtc _]; [|by eapply primitives_tame_any].
    by eapply effects_tasks.
  - exists t. split; [|done].
    eapply tame_exec in Ho as [Hrtc _]; [|by eapply primitives_tame_any].
    change (tasks (set_parked (parked s' ++ [k]) s')) with (tasks s').
    by eapply effects_tasks.
  - exists t. split; [|done].
    change (tasks (set_parked (delete j (parked s')) s')) with (tasks s').
    eapply effect_tasks; [|done]. eapply parkable_exec; [|done].
    apply (inv_parked _ HI). by eapply list_elem_of_lookup_2.
  - apply forkBody_done in Ho as (rec & Hinv & _).
    destruct (inv_tasks _ HI _ _ Hj) as [-> _].
    apply invoke_frame in Hinv as (_ & _ & Hts & _). simpl. rewrite Hts.
    destruct (decide (i = j)) as [->|Hne].
    + rewrite list_lookup_insert_eq by (by eapply lookup_lt_Some).
      rewrite Ht in Hj. injection Hj as ->. by eexists.
    + rewrite list_lookup_insert_ne by done. by exists t.
  - destruct (inv_tasks _ HI _ _ Hj) as (-> & -> & _).
    apply scheduleBody_frame in Ho as (Hts & _). simpl. rewrite Hts.
    destruct (decide (i = j)) as [->|Hne].
    + rewrite list_lookup_insert_eq by (by eapply lookup_lt_Some).
      rewrite Ht in Hj. injection Hj as ->. eexists. split; [done|].
      apply captured_afterIteration.
    + rewrite list_lookup_insert_ne by done. by exists t.
  - by exists t.
  - by exists t.
Qed.

Lemma steps_captured s s' i t :
  rtc next s s' → Inv s → tasks s !! i = Some t →
  ∃ t', tasks s' !! i = Some t' ∧ captured t' = captured t.
Proof.
  intros Hrtc. revert t.
  induction Hrtc as [s|s s1 s2 [l Hstep] _ IH]; intros t HI Ht; [by exists t|].
  destruct (step_captured _ _ _ _ _ Hstep HI Ht) as (t1 & Ht1 & Hc1).
  destruct (IH t1) as (t2 & Ht2 & Hc2); [by eapply Inv_step|done|].
  exists t2. split; [done|congruence].
Qed.

(** Once a task is idle, the [Abort] and [Restart] channels of its
    process have no consumer: whatever happens, the task stays idle and
    the two channels only grow. *)
Lemma steps_idle s s' i t pr :
  rtc next s s' → Inv s → tasks s !! i = Some t → idle t →
  procs s !! i = Some pr →
  ∃ t' pr', tasks s' !! i = Some t' ∧ idle t'
            ∧ match t with
              | ScheduleTask _ _ _ _ _ _ _ => t' = t
              | ForkTask _ _ _ _ => True
              end
            ∧ procs s' !! i = Some pr'
            ∧ grows (Abort pr) (Abort pr') ∧ grows (Restart pr) (Restart pr').
Proof.
  intros Hrtc. revert t pr.
  induction Hrtc as [s|s s1 s2 [l Hstep] _ IH]; intros t pr HI Ht Hidle Hp.
  - exists t, pr. split; [done|]. split; [done|]. by destruct t.
  - destruct (step_idle _ _ _ _ _ Hstep HI Ht Hidle)
      as (Hl & t1 & Ht1 & Hidle1 & Hsame1).
    destruct (step_proc (λ _, True) _ _ _ _ _ Hstep HI (label_ok_any _ _ HI) Hl Hp)
      as (pr1 & Hp1 & Hops).
    apply chan_ops_grows in Hops as (Hab1 & Hre1 & _).
    destruct (IH t1 pr1) as (t2 & pr2 & Ht2 & Hidle2 & Hsame2 & Hp2 & Hab2 & Hre2);
      [by eapply Inv_step|done..|].
    exists t2, pr2. split; [done|]. split; [done|].
    split; [destruct t; [done|]; by subst t1|].
    split; [done|]. split; by etrans.
Qed.

Lemma grows_nonempty {T} (ch ch' : chan T) :
  grows ch ch' → buf ch ≠ [] → buf ch' ≠ [].
Proof. intros [_ [l ->]]. by destruct (buf ch). Qed.

(** The timer of a process is never replaced. *)
Lemma step_timer_field s l s' p pr :
  step s l s' → Inv s → procs s !! p = Some pr →
  ∃ pr', procs s' !! p = Some pr' ∧ ScheduleTimer pr' = ScheduleTimer pr.
Proof.
  intros Hstep HI Hp.
  assert ((∃ o, l = LSchedule p o) ∨ (∀ o, l ≠ LSchedule p o)) as [[o ->]|Hl].
  { destruct l as [| | | |j o| |]; try (by right).
    destruct (decide (j = p)) as [->|]; [left; by eexists|right; congruence]. }
  - inversion Hstep as
      [| | | |i0 proc millis0 f0 procObj env0 aborted o0 s3 s4 Hi Ho| |]; subst.
    destruct (inv_tasks _ HI _ _ Hi) as (-> & -> & _).
    apply scheduleBody_done in Ho
      as [[Hg ->]|[(s5 & Hg & Hreset & ->)|(s5 & rec & Hg & Hinv & ->)]].
    + apply guard_fire_recv in Hg as (pr0 & v & ch' & Hp0 & _ & ->).
      simpl in Hp0. rewrite Hp in Hp0. injection Hp0 as <-.
      eexists. split; [by apply (put_chan_owner (AbortOf p))|done].
    + apply guard_fire_recv in Hg as (pr0 & v & ch' & Hp0 & _ & ->).
      simpl in Hp0. rewrite Hp in Hp0. injection Hp0 as <-.
      apply reset_timer_Some in Hreset as (j & tm' & _ & _ & ->).
      eexists. split; [by apply (put_chan_owner (RestartOf p))|done].
    + apply guard_fire_timer in Hg as (j & tm' & v & ch' & _ & _ & _ & ->).
      apply invoke_frame in Hinv as (Hps & _). simpl. rewrite Hps. by exists pr.
  - destruct (step_proc (λ _, True) _ _ _ _ _ Hstep HI (label_ok_any _ _ HI) Hl Hp)
      as (pr' & Hp' & Hops).
    apply chan_ops_grows in Hops as (_ & _ & Htm). eauto.
Qed.

Lemma steps_idle_timer s s' p pr :
  rtc next s s' → Inv s → procs s !! p = Some pr →
  ∃ pr', procs s' !! p = Some pr' ∧ ScheduleTimer pr' = ScheduleTimer pr.
Proof.
  intros Hrtc. revert pr.
  induction Hrtc as [s|s s1 s2 [l Hstep] _ IH]; intros pr HI Hp; [by exists pr|].
  destruct (step_timer_field _ _ _ _ _ Hstep HI Hp) as (pr1 & Hp1 & Htm1).
  destruct (IH pr1) as (pr2 & Hp2 & Htm2); [by eapply Inv_step|done|].
  exists pr2. split; [done|congruence].
Qed.

End Stability.

(* ===================================================================== *)
(** ** The schedule controller, [abandon] and [reset-timeout] *)
(* ===================================================================== *)

Section Controller.
Context `{Host}.

Implicit Types (s : Sys) (p i : nat) (pr : Process) (c : ChanRef) (t : Task).

Lemma reachable_steps s s' : reachable s → rtc next s s' → reachable s'.
Proof. intros [w Hs] Hrtc. exists w. by etrans. Qed.

(** The state of the schedule controller that a step of task [i] leaves,
    by the clause of the [select] it took. *)
Lemma schedule_step s i millis f env o s' :
  Inv s →
  tasks s !! i = Some (ScheduleTask i millis f (handle i) env false true) →
  step s (LSchedule i o) s' →
  let cb := EvApply (FunctionValue f) (InternalMakeList [handle i]) env in
  (o = Some (true, Break)
   ∧ is_Some (guard_fire (RecvG (AbortOf i)) s)
   ∧ trace s' = trace s
   ∧ tasks s' !! i = Some (ScheduleTask i millis f (handle i) env true false))
  ∨ (o = Some (false, Continue)
     ∧ (∃ s1, guard_fire (RecvG (RestartOf i)) s = Some s1
              ∧ reset_timer (ScheduleTimerOf i)
                  (Milliseconds (IntegerValue millis)) s1
                = Some (set_tasks (tasks s) s'))
     ∧ trace s' = trace s
     ∧ tasks s' !! i = Some (ScheduleTask i millis f (handle i) env false true))
  ∨ ((o = None ∨ o = Some (false, Break))
     ∧ is_Some (guard_fire (TimerG (ScheduleTimerOf i)) s)
     ∧ trace s' = trace s ++ [cb]
     ∧ tasks s' !! i = Some (ScheduleTask i millis f (handle i) env false false)).
Proof.
  intros HI Ht Hstep cb. inversion Hstep as
    [| | | |i0 proc millis0 f0 procObj env0 aborted o0 s0 s1 Hi Ho| |]; subst.
  rewrite Ht in Hi. injection Hi as <- <- <- <- <- <-.
  assert (i < length (tasks s)) as Hlt by (by eapply lookup_lt_Some).
  apply scheduleBody_done in Ho
    as [[Hg ->]|[(s2 & Hg & Hreset & ->)|(s2 & rec & Hg & Hinv & ->)]].
  - left. split; [done|]. split; [by eexists|].
    apply guard_fire_recv in Hg as (pr' & v & ch' & _ & _ & ->).
    split; [done|]. simpl. by rewrite list_lookup_insert_eq.
  - right; left. split; [done|].
    pose proof Hg as Hg'.
    apply guard_fire_recv in Hg as (pr' & v & ch' & _ & _ & ->).
    pose proof Hreset as Hreset'.
    apply reset_timer_Some in Hreset as (j & tm' & _ & _ & ->).
    split; [|split; [done|]].
    + eexists. split; [done|]. rewrite Hreset'. f_equal.
    + simpl. by rewrite list_lookup_insert_eq.
  - right; right. split; [destruct rec; eauto|]. split; [by eexists|].
    apply guard_fire_timer in Hg as (j & tm' & v & ch' & _ & _ & _ & ->).
    apply invoke_frame in Hinv as (_ & _ & Hts & _ & _ & Htr).
    split; [done|]. simpl. rewrite Hts. simpl.
    rewrite list_lookup_insert_eq by done. by destruct rec.
Qed.

(** An Armed controller with a restart event at hand can take its
    restart clause: the timer of its process is there to be reset. *)
Lemma restart_can_step s i millis f env :
  Inv s →
  tasks s !! i = Some (ScheduleTask i millis f (handle i) env false true) →
  is_Some (guard_fire (RecvG (RestartOf i)) s) →
  ∃ s', step s (LSchedule i (Some (false, Continue))) s'.
Proof.
  intros HI Ht [s1 Hg].
  destruct (inv_tasks _ HI _ _ Ht) as (_ & _ & _ & _ & pr & tm & Hp & Htm & Hlt).
  assert (is_Some (reset_timer (ScheduleTimerOf i)
                     (Milliseconds (IntegerValue millis)) s1)) as [s2 Hreset].
  { pose proof Hg as Hg'.
    apply guard_fire_recv in Hg' as (pr0 & v & ch' & Hp0 & _ & ->).
    simpl in Hp0. rewrite Hp in Hp0. injection Hp0 as <-.
    unfold reset_timer. simpl.
    rewrite list_lookup_alter, decide_True, Hp by done. simpl.
    rewrite Htm. simpl.
    destruct (lookup_lt_is_Some_2 (timers s) tm Hlt) as [timer ->].
    by eexists. }
  eexists. eapply step_schedule; [exact Ht|].
  apply scheduleBody_done. right; left. eauto.
Qed.

(** C1: the goroutine started by [schedule] is a three-state machine.
    Its task is the controller of its own process and passes the handle
    of that process as the only argument of the callback.  While Armed,
    an iteration takes one of three clauses: a receive on [Abort], which
    leaves the loop without any invocation (Aborted); a receive on
    [Restart], which stays Armed; a tick of the timer, which invokes the
    callback once and leaves the loop (Fired); a clause can be taken
    whenever its event is there.  Once the loop is left no
    step is an iteration of the task, the task never changes again, and
    the [Abort] and [Restart] channels are only ever added to.  In every
    reachable state the callback was invoked once if the controller is
    Fired, and never if it is Armed or Aborted. *)
Theorem controller_three_states s i proc millis f procObj env aborted running :
  reachable s →
  tasks s !! i = Some (ScheduleTask proc millis f procObj env aborted running) →
  let cb := EvApply (FunctionValue f) (InternalMakeList [handle i]) env in
  proc = i ∧ procObj = handle i
  ∧ (controller aborted running = Armed →
       aborted = false
       ∧ (is_Some (guard_fire (RecvG (AbortOf i)) s) →
            ∃ s', step s (LSchedule i (Some (true, Break))) s')
       ∧ (is_Some (guard_fire (RecvG (RestartOf i)) s) →
            ∃ s', step s (LSchedule i (Some (false, Continue))) s')
       ∧ (∀ s1, guard_fire (TimerG (ScheduleTimerOf i)) s = Some s1 →
            is_Some (invoke (FunctionValue f) (handle i) env s1) →
            ∃ o s', step s (LSchedule i o) s')
       ∧ ∀ o s', step s (LSchedule i o) s' →
           ∃ aborted' running',
             tasks s' !! i
               = Some (ScheduleTask i millis f (handle i) env aborted' running')
             ∧ ((is_Some (guard_fire (RecvG (AbortOf i)) s)
                 ∧ controller aborted' running' = Aborted
                 ∧ trace s' = trace s)
                ∨ (is_Some (guard_fire (RecvG (RestartOf i)) s)
                   ∧ controller aborted' running' = Armed
                   ∧ trace s' = trace s)
                ∨ (is_Some (guard_fire (TimerG (ScheduleTimerOf i)) s)
                   ∧ controller aborted' running' = Fired
                   ∧ trace s' = trace s ++ [cb])))
  ∧ (controller aborted running ≠ Armed →
       ∀ s', rtc next s s' →
         tasks s' !! i
           = Some (ScheduleTask proc millis f procObj env aborted running)
         ∧ (∀ o s'', ¬ step s' (LSchedule i o) s'')
         ∧ ∀ pr, procs s !! i = Some pr →
             ∃ pr', procs s' !! i = Some pr'
                    ∧ grows (Abort pr) (Abort pr')
                    ∧ grows (Restart pr) (Restart pr'))
  ∧ invocations (handle i) s
    = match controller aborted running with Fired => 1 | _ => 0 end
  ∧ invocations (handle i) s ≤ 1.
Proof.
  intros Hs Ht cb. pose proof (Inv_reachable _ Hs) as HI.
  destruct (inv_tasks _ HI _ _ Ht)
    as (-> & -> & Hab & Hcount & pr & tm & Hp & Htm & Hlt).
  split; [done|]. split; [done|]. split; [|split; [|split]].
  - intros Harmed. assert (running = true) as -> by (by destruct running, aborted).
    rewrite Hab in * by done. split; [done|].
    split; [|split; [|split]].
    { intros [s1 Hg]. eexists. eapply step_schedule; [exact Ht|].
      apply scheduleBody_done. left. eauto. }
    { by eapply restart_can_step. }
    { intros s1 Hg [[rec s2] Hinv]. eexists _, _.
      eapply step_schedule; [exact Ht|].
      apply scheduleBody_done. right; right. eauto. }
    intros o s' Hstep.
    destruct (schedule_step _ _ _ _ _ _ _ HI Ht Hstep)
      as [(_ & Hg & Htr & Ht')|[(_ & (s1 & Hg & _) & Htr & Ht')
         |(_ & Hg & Htr & Ht')]]; eexists _, _; (split; [exact Ht'|]).
    + left. done.
    + right; left. split; [by eexists|done].
    + right; right. done.
  - intros Hexit s' Hrtc.
    assert (running = false) as -> by (by destruct running, aborted).
    destruct (steps_idle _ _ _ _ _ Hrtc HI Ht eq_refl Hp)
      as (t' & pr' & Ht' & _ & -> & Hp' & Hgrow).
    split; [done|]. split.
    + intros o s'' Hstep. inversion Hstep; subst. congruence.
    + intros pr0 Hp0. rewrite Hp in Hp0. injection Hp0 as <-. eauto.
  - done.
  - rewrite Hcount. destruct (controller aborted running); lia.
Qed.

(** [abandon] on a process whose task is idle: nobody receives from
    [Abort], so the send gets through exactly when the slot is empty,
    and a parked send stays parked for good. *)
Lemma abandon_idle args env s p t pr :
  Inv s → tasks s !! p = Some t → idle t →
  procs s !! p = Some pr →
  value (Car args) env s = Ok (handle p) →
  let s1 := evaluated (Car args) env s in
  (buf (Abort pr) = [] →
     exec (AbandonImpl args env) s = [Done OK (delivered (AbortOf p) s1)])
  ∧ (buf (Abort pr) ≠ [] →
       exec (AbandonImpl args env) s = [Blocked (parkedSend (AbortOf p)) s1]
       ∧ ∀ s2, rtc next s s2 →
           exec (parkedSend (AbortOf p)) s2
           = [Blocked (parkedSend (AbortOf p)) s2]).
Proof.
  intros HI Ht Hidle Hp Hv s1.
  destruct (inv_procs _ HI _ _ Hp) as (_ & Hslot & _).
  assert (exec (AbandonImpl args env) s
          = match buf (Abort pr) with
            | [] => [Done OK (delivered (AbortOf p) s1)]
            | _ => [Blocked (parkedSend (AbortOf p)) s1]
            end) as Hexec.
  { rewrite exec_AbandonImpl, Hv. cbn zeta.
    rewrite (proj2 (notProcess_false (handle p))) by eauto.
    cbn [ObjectValue handle].
    rewrite (sent_after_eval (AbortOf p) _ _ _ pr) by done.
    simpl. by destruct (buf (Abort pr)). }
  split.
  - intros Hb. by rewrite Hexec, Hb.
  - intros Hb. split; [rewrite Hexec; by destruct (buf (Abort pr))|].
    intros s2 Hrtc.
    destruct (steps_idle _ _ _ _ _ Hrtc HI Ht Hidle Hp)
      as (t' & pr' & _ & _ & _ & Hp' & Hgrow & _).
    pose proof (Inv_steps _ _ Hrtc HI) as HI2.
    destruct (inv_procs _ HI2 _ _ Hp') as (_ & Hslot' & _).
    rewrite (exec_parkedSend (AbortOf p) _ pr') by done. simpl.
    pose proof (grows_nonempty _ _ Hgrow Hb). by destruct (buf (Abort pr')).
Qed.

(** [reset-timeout]: the send gets through exactly when the [Restart]
    slot is empty; the controller is not looked at. *)
Lemma reset_timeout_slot args env s p pr :
  Inv s → procs s !! p = Some pr →
  value (Car args) env s = Ok (handle p) →
  exec (ResetTimeoutImpl args env) s
  = match buf (Restart pr) with
    | [] => [Done OK (delivered (RestartOf p) (evaluated (Car args) env s))]
    | _ => [Done tooLate (evaluated (Car args) env s)]
    end.
Proof.
  intros HI Hp Hv. destruct (inv_procs _ HI _ _ Hp) as (_ & _ & Hslot).
  rewrite exec_ResetTimeoutImpl, Hv. cbn zeta.
  rewrite (proj2 (notProcess_false (handle p))) by eauto.
  cbn [ObjectValue handle].
  rewrite (sent_after_eval (RestartOf p) _ _ _ pr) by done.
  simpl. by destruct (buf (Restart pr)).
Qed.

(** C3, as the code has it: [abandon] on a scheduled process whose
    controller has left its loop (Fired or Aborted) finds no consumer.
    With the [Abort] slot empty the call returns ["OK"] at once and fills
    the slot; with the slot taken the call parks, and it can never be
    resumed, in no state the program can reach from there. *)
Theorem abandon_after_exit args env s p proc millis f procObj env0 aborted pr :
  reachable s →
  tasks s !! p = Some (ScheduleTask proc millis f procObj env0 aborted false) →
  procs s !! p = Some pr →
  value (Car args) env s = Ok (handle p) →
  let s1 := evaluated (Car args) env s in
  (buf (Abort pr) = [] →
     exec (AbandonImpl args env) s = [Done OK (delivered (AbortOf p) s1)])
  ∧ (buf (Abort pr) ≠ [] →
       exec (AbandonImpl args env) s = [Blocked (parkedSend (AbortOf p)) s1]
       ∧ ∀ s2, rtc next s s2 →
           exec (parkedSend (AbortOf p)) s2
           = [Blocked (parkedSend (AbortOf p)) s2]).
Proof.
  intros Hs Ht Hp Hv. eapply abandon_idle; eauto using Inv_reachable.
  done.
Qed.

(** The claim C3 as it is worded: once the controller has left its loop,
    every [abandon] on the process parks. *)
Definition abandon_parks_once_exited : Prop :=
  ∀ args env s p proc millis f procObj env0 aborted,
    reachable s →
    tasks s !! p = Some (ScheduleTask proc millis f procObj env0 aborted false) →
    value (Car args) env s = Ok (handle p) →
    ∀ o, o ∈ exec (AbandonImpl args env) s → ∃ k s', o = Blocked k s'.

(** The claim C2 as it is worded: once the controller has left its loop,
    [reset-timeout] answers with the informational string. *)
Definition reset_timeout_detects_exit : Prop :=
  ∀ args env s p proc millis f procObj env0 aborted,
    reachable s →
    tasks s !! p = Some (ScheduleTask proc millis f procObj env0 aborted false) →
    value (Car args) env s = Ok (handle p) →
    ∀ o, o ∈ exec (ResetTimeoutImpl args env) s → ∃ s', o = Done tooLate s'.

(** *** The delay of a restart *)

Lemma scheduled_task env millis f s :
  Inv s →
  tasks (scheduled env millis f s) !! length (procs s)
  = Some (ScheduleTask (length (procs s)) millis f (handle (length (procs s)))
            env false true)
  ∧ procs (scheduled env millis f s) !! length (procs s)
    = Some (newProcess env f (Some (length (timers s))))
  ∧ timers (scheduled env millis f s) !! length (timers s)
    = Some (NewTimer (now s) (Milliseconds (IntegerValue millis))).
Proof.
  intros HI. unfold scheduled. simpl.
  rewrite <- (inv_length _ HI) at 1.
  by rewrite !lookup_app_r, !Nat.sub_diag.
Qed.

(** What a call of [schedule] that returns a handle did. *)
Lemma ScheduleImpl_returns args env s d s1 :
  Done (Ok d) s1 ∈ exec (ScheduleImpl args env) s →
  ∃ millis f,
    value (Car args) env s = Ok millis ∧ IntegerP millis = true
    ∧ value (Cadr args) env (evaluated (Car args) env s) = Ok f
    ∧ FunctionP f = true ∧ RequiredArgCount (FunctionValue f) = 1%Z
    ∧ d = handle (length (procs s))
    ∧ s1 = scheduled env millis f
             (evaluated (Cadr args) env (evaluated (Car args) env s)).
Proof.
  rewrite exec_ScheduleImpl. cbn zeta.
  destruct (value (Car args) env s) as [m|e];
    [|by intros [=]%list_elem_of_singleton].
  destruct (IntegerP m) eqn:Hm; simpl;
    [|by intros [=]%list_elem_of_singleton].
  destruct (value (Cadr args) env _) as [f|e];
    [|by intros [=]%list_elem_of_singleton].
  destruct (FunctionP f) eqn:Hf; simpl;
    [|by intros [=]%list_elem_of_singleton].
  case_bool_decide as Har; [by intros [=]%list_elem_of_singleton|].
  intros [= -> ->]%list_elem_of_singleton.
  exists m, f. repeat split; done.
Qed.

(** C6: from a call of [schedule] that returned the handle of process
    [i] with the delay expression evaluating to [millis], the timer of
    the process is armed for [millis] milliseconds; and whenever, in any
    later state, the controller takes its restart clause, it consumes
    the restart event, re-arms that timer for the same [millis]
    milliseconds counted from the current time, without draining it, and
    stays Armed with the same captured delay; an Armed controller can
    take that clause whenever a restart event is there. *)
Theorem restart_rearms_captured_delay args env s0 i s1 millis :
  reachable s0 →
  Done (Ok (handle i)) s1 ∈ exec (ScheduleImpl args env) s0 →
  value (Car args) env s0 = Ok millis →
  let d := Milliseconds (IntegerValue millis) in
  ∃ f tm,
    tasks s1 !! i = Some (ScheduleTask i millis f (handle i) env false true)
    ∧ (∃ pr, procs s1 !! i = Some pr ∧ ScheduleTimer pr = Some tm)
    ∧ timers s1 !! tm = Some (NewTimer (now s0) d)
    ∧ (∀ s, rtc next s1 s →
         tasks s !! i = Some (ScheduleTask i millis f (handle i) env false true) →
         is_Some (guard_fire (RecvG (RestartOf i)) s) →
         ∃ s', step s (LSchedule i (Some (false, Continue))) s')
    ∧ ∀ s a s', rtc next s1 s → step s (LSchedule i (Some (a, Continue))) s' →
        tasks s !! i = Some (ScheduleTask i millis f (handle i) env false true)
        ∧ (∃ pr pr', procs s !! i = Some pr ∧ buf (Restart pr) ≠ []
                     ∧ procs s' !! i = Some pr' ∧ buf (Restart pr') = []
                     ∧ ScheduleTimer pr = Some tm
                     ∧ ScheduleTimer pr' = Some tm)
        ∧ (∃ timer, timers s !! tm = Some timer
                    ∧ timers s' !! tm = Some (Reset (now s) d timer)
                    ∧ C (Reset (now s) d timer) = C timer
                    ∧ due (Reset (now s) d timer) = when (now s) d
                    ∧ active (Reset (now s) d timer) = true)
        ∧ tasks s' !! i = Some (ScheduleTask i millis f (handle i) env false true).
Proof.
  intros Hs0 Hdone Hv d. pose proof (Inv_reachable _ Hs0) as HI0.
  apply ScheduleImpl_returns in Hdone
    as (millis' & f & Hv' & _ & _ & _ & _ & [= ->] & ->).
  rewrite Hv in Hv'. injection Hv' as <-.
  set (s2 := evaluated (Cadr args) env (evaluated (Car args) env s0)).
  assert (Inv s2) as HI2.
  { eapply Inv_effects; [|exact HI0].
    eapply rtc_l; [apply (eff_eval (λ _, True))|].
    apply rtc_once, (eff_eval (λ _, True)). }
  assert (Inv (scheduled env millis f s2)) as HI1.
  { eapply Inv_effect; [apply (eff_schedule (λ _, True))|done]. }
  destruct (scheduled_task env millis f s2 HI2) as (Ht1 & Hp1 & Htm1).
  change (procs s2) with (procs s0) in *. change (timers s2) with (timers s0) in *.
  change (now s2) with (now s0) in *.
  exists f, (length (timers s0)). split; [done|]. split; [by eexists|].
  split; [done|]. split.
  { intros s Hrtc Ht Hg. eapply restart_can_step; [|done..].
    by eapply Inv_steps. }
  intros s a s' Hrtc Hstep.
  pose proof (Inv_steps _ _ Hrtc HI1) as HI.
  destruct (steps_captured _ _ _ _ Hrtc HI1 Ht1) as (t & Ht & Hcap).
  inversion Hstep as
    [| | | |i0 proc millis0 f0 procObj env0 aborted o0 s3 s4 Hi Ho| |]; subst.
  rewrite Ht in Hi. injection Hi as ->. simpl in Hcap.
  injection Hcap as -> -> -> -> ->.
  destruct (inv_tasks _ HI _ _ Ht) as (_ & _ & Hab & _ & pr & tm & Hp & Htm & _).
  rewrite Hab in * by done. split; [done|].
  apply scheduleBody_done in Ho
    as [[Hg [=]]|[(s5 & Hg & Hreset & [= ->])|(s5 & rec & Hg & Hinv & Ho)]];
    [|by destruct rec].
  apply guard_fire_recv in Hg as (pr0 & v & ch' & Hp0 & Hr & ->).
  simpl in Hp0. rewrite Hp in Hp0. injection Hp0 as <-.
  destruct (inv_procs _ HI _ _ Hp) as (_ & _ & Hslot).
  destruct (one_slot_recv _ _ _ Hslot Hr) as (_ & Hfull & Hempty).
  apply reset_timer_Some in Hreset as (j & timer & Hj & Htimer & ->).
  simpl in Hj. rewrite list_lookup_alter, decide_True, Hp in Hj by done.
  simpl in Hj. rewrite Htm in Hj. injection Hj as <-.
  assert (tm = length (timers s0)) as ->.
  { destruct (steps_idle_timer _ _ _ _ Hrtc HI1 Hp1) as (pr1 & Hpr1 & Htm').
    rewrite Hp in Hpr1. injection Hpr1 as <-. simpl in Htm'. congruence. }
  split; [|split].
  - exists pr, (with_chan (RestartOf (length (procs s0))) ch' pr).
    split; [done|]. split; [by rewrite Hfull|]. split.
    { simpl. by rewrite list_lookup_alter, decide_True, Hp. }
    split; [done|]. split; [done|]. by simpl.
  - exists timer. split; [done|]. split; [|done]. simpl.
    apply list_lookup_insert_eq. by eapply lookup_lt_Some.
  - simpl. apply list_lookup_insert_eq. by eapply lookup_lt_Some.
Qed.

(** *** The slots of a forked process *)

(** The primitive that sends on a channel. *)
Definition sender (c0 : ChanRef) : string :=
  match c0 with
  | WakeOf _ => "wake"
  | AbortOf _ => "abandon"
  | RestartOf _ => "reset-timeout"
  end.

(** The step delivers an event into channel [c0]: a call of its sender
    on the process of [c0] returns, or a parked send on [c0] is
    resumed. *)
Definition delivers (c0 : ChanRef) (s : Sys) (l : Label) : Prop :=
  match l with
  | LCall name args env _ =>
      name = sender c0 ∧ value (Car args) env s = Ok (handle (owner c0))
  | LResume j _ => ∃ r0, parked s !! j = Some (SendP c0 true (Ret r0))
  | _ => False
  end.

(** A step that delivers nothing into [c0]. *)
Definition quiet (c0 : ChanRef) (s s' : Sys) : Prop :=
  ∃ l, step s l s' ∧ ¬ delivers c0 s l.

Lemma registered_sender c0 arity impl :
  (∀ q, c0 ≠ WakeOf q) →
  (sender c0, arity, impl) ∈ RegisterConcurrencyPrimitives →
  impl = match c0 with
         | RestartOf _ => ResetTimeoutImpl
         | _ => AbandonImpl
         end.
Proof.
  intros Hc0. unfold RegisterConcurrencyPrimitives.
  rewrite !elem_of_cons, elem_of_nil.
  destruct c0 as [q|q|q]; [by edestruct Hc0|..]; simpl;
    intros [?|[?|[?|[?|[?|[?|[]]]]]]]; by simplify_eq.
Qed.

Lemma sender_effects c0 args env s o :
  (∀ q, c0 ≠ WakeOf q) →
  value (Car args) env s ≠ Ok (handle (owner c0)) →
  o ∈ exec (match c0 with
            | RestartOf _ => ResetTimeoutImpl
            | _ => AbandonImpl
            end args env) s →
  rtc (effect (no_send c0)) s (state_of o).
Proof.
  intros Hc0 Hv.
  assert (∀ c, c ≠ c0 →
            ∀ s2, guard_fire (SendG c true) (evaluated (Car args) env s) = Some s2 →
              rtc (effect (no_send c0)) s s2) as Hsend.
  { intros c Hc s2 Hg.
    eapply rtc_l; [apply (eff_eval _ _ (Car args) env)|]. apply rtc_once.
    eapply (eff_guard _ _ (SendG c true)); [|done|done].
    intros [= ->]. done. }
  assert (rtc (effect (no_send c0)) s (evaluated (Car args) env s)) as Heval
    by apply rtc_once, eff_eval.
  destruct c0 as [q|q|q]; [by edestruct Hc0|..]; simpl in Hv.
  - rewrite exec_AbandonImpl. cbn zeta.
    destruct (value (Car args) env s) as [d|e];
      [|by intros ->%list_elem_of_singleton].
    destruct (notProcess d) eqn:Hd; [by intros ->%list_elem_of_singleton|].
    apply notProcess_false in Hd as Hd'. destruct Hd' as [p ->].
    cbn [ObjectValue handle].
    destruct (guard_fire _ _) as [s2|] eqn:Hg;
      intros ->%list_elem_of_singleton; [|done].
    eapply (Hsend (AbortOf p)); [|done]. intros [= ->]. done.
  - rewrite exec_ResetTimeoutImpl. cbn zeta.
    destruct (value (Car args) env s) as [d|e];
      [|by intros ->%list_elem_of_singleton].
    destruct (notProcess d) eqn:Hd; [by intros ->%list_elem_of_singleton|].
    apply notProcess_false in Hd as Hd'. destruct Hd' as [p ->].
    cbn [ObjectValue handle].
    destruct (guard_fire _ _) as [s2|] eqn:Hg;
      intros ->%list_elem_of_singleton; [|done].
    eapply (Hsend (RestartOf p)); [|done]. intros [= ->]. done.
Qed.

Lemma sender_parks c0 args env s k s' :
  (∀ q, c0 ≠ WakeOf q) →
  Blocked k s' ∈ exec (match c0 with
                       | RestartOf _ => ResetTimeoutImpl
                       | _ => AbandonImpl
                       end args env) s →
  s' = evaluated (Car args) env s.
Proof.
  intros Hc0. destruct c0 as [q|q|q]; [by edestruct Hc0|..].
  - rewrite exec_AbandonImpl. cbn zeta.
    destruct (value (Car args) env s) as [d|e];
      [|by intros [=]%list_elem_of_singleton].
    destruct (notProcess d); [by intros [=]%list_elem_of_singleton|].
    destruct (guard_fire _ _); by intros [=]%list_elem_of_singleton.
  - rewrite exec_ResetTimeoutImpl. cbn zeta.
    destruct (value (Car args) env s) as [d|e];
      [|by intros [=]%list_elem_of_singleton].
    destruct (notProcess d); [by intros [=]%list_elem_of_singleton|].
    destruct (guard_fire _ _); by intros [=]%list_elem_of_singleton.
Qed.

Lemma label_ok_quiet c0 s l :
  Inv s → (∀ q, c0 ≠ WakeOf q) → ¬ delivers c0 s l →
  label_ok (no_send c0) s l.
Proof.
  intros HI Hc0 Hl.
  assert (∀ name, name ≠ sender c0 →
            ∀ g, primitive_guard name g → no_send c0 g) as Hother.
  { intros name Hname g Hg ->. apply Hname.
    destruct c0; [by edestruct Hc0|done..]. }
  destruct l as [name args env r|name args env|j r| | | |]; simpl in *;
    try done.
  - intros arity impl s' Hreg Ho.
    destruct (decide (name = sender c0)) as [->|Hname].
    + apply registered_sender in Hreg as ->; [|done].
      eapply (sender_effects c0 _ _ _ (Done r s')); [done| |done].
      intros Hv. by apply Hl.
    + by eapply (tame_exec _ _ _ (Done r s')); [by eapply primitives_tame; eauto|].
  - intros arity impl k s' Hreg Ho.
    destruct (decide (name = sender c0)) as [->|Hname].
    + apply registered_sender in Hreg as ->; [|done].
      apply sender_parks in Ho as ->; [|done]. apply rtc_once, eff_eval.
    + by eapply (tame_exec _ _ _ (Blocked k s'));
        [by eapply primitives_tame; eauto|].
  - intros k Hk.
    assert (parkable (λ _, True) k) as Hpk.
    { apply (inv_parked _ HI). by eapply list_elem_of_lookup_2. }
    inversion Hpk as [c r0 _|gs k0 HG Hk0]; subst.
    + constructor. intros [= <-]. apply Hl. eauto.
    + constructor; [|done]. eapply Forall_impl; [exact HG|].
      intros g [_ Hg]. split; [|done]. intros ->. done.
Qed.

(** While nothing is delivered into the [Abort] or the [Restart]
    channel of a process whose task is idle, the channel stays as it
    is. *)
Lemma quiet_keeps c0 s s' t pr :
  (∀ q, c0 ≠ WakeOf q) →
  rtc (quiet c0) s s' → Inv s →
  tasks s !! owner c0 = Some t → idle t →
  procs s !! owner c0 = Some pr →
  ∃ pr', procs s' !! owner c0 = Some pr' ∧ chan_of c0 pr' = chan_of c0 pr
         ∧ Inv s'.
Proof.
  intros Hc0 Hrtc. revert t pr.
  induction Hrtc as [s|s s1 s2 (l & Hstep & Hl) _ IH]; intros t pr HI Ht Hidle Hp.
  - by exists pr.
  - destruct (step_idle _ _ _ _ _ Hstep HI Ht Hidle)
      as (Hnot & t1 & Ht1 & Hidle1 & _).
    destruct (step_proc (no_send c0) _ _ _ _ _ Hstep HI
                (label_ok_quiet _ _ _ HI Hc0 Hl) Hnot Hp) as (pr1 & Hp1 & Hops).
    apply chan_ops_keep in Hops; [|done].
    destruct (IH t1 pr1) as (pr2 & Hp2 & Hkeep & HI2);
      [by eapply Inv_step|done..|].
    exists pr2. split; [done|]. split; [congruence|done].
Qed.

Lemma quiet_next c0 s s' : rtc (quiet c0) s s' → rtc next s s'.
Proof.
  induction 1 as [|s1 s2 s3 (l & Hstep & _) _ IH]; [done|].
  eapply rtc_l; [by exists l|done].
Qed.

(** What a call of [fork] that returns a handle did. *)
Lemma ForkImpl_returns args env s d s1 :
  Done (Ok d) s1 ∈ exec (ForkImpl args env) s →
  ∃ f, value (Car args) env s = Ok f
       ∧ d = handle (length (procs s))
       ∧ s1 = forked env f (evaluated (Car args) env s).
Proof.
  rewrite exec_ForkImpl. cbn zeta.
  destruct (value (Car args) env s) as [f|e];
    [|by intros [=]%list_elem_of_singleton].
  destruct (FunctionP f) eqn:Hf; simpl;
    [|by intros [=]%list_elem_of_singleton].
  case_bool_decide as Har; [by intros [=]%list_elem_of_singleton|].
  intros [= -> ->]%list_elem_of_singleton. by exists f.
Qed.

(** C9: a process created by [fork] has no controller, yet each of its
    channels has one slot.  From the call of [fork] that returned its
    handle: as long as no [abandon] was delivered to it, an [abandon]
    returns ["OK"] at once; as long as no [reset-timeout] was delivered
    to it, a [reset-timeout] returns ["OK"]; and once an [abandon] has
    returned, every later [abandon] parks and can never be resumed. *)
Theorem forked_process_slots args env s p s1 :
  reachable s →
  Done (Ok (handle p)) s1 ∈ exec (ForkImpl args env) s →
  (∃ f, tasks s1 !! p = Some (ForkTask f (handle p) env false)
        ∧ procs s1 !! p
          = Some {| Env := env; Code := f; Wake := make 1; Abort := make 1;
                    Restart := make 1; ScheduleTimer := None |})
  ∧ (∀ s2 args' env',
     rtc (quiet (AbortOf p)) s1 s2 →
     value (Car args') env' s2 = Ok (handle p) →
     exec (AbandonImpl args' env') s2
     = [Done OK (delivered (AbortOf p) (evaluated (Car args') env' s2))])
  ∧ (∀ s2 args' env',
       rtc (quiet (RestartOf p)) s1 s2 →
       value (Car args') env' s2 = Ok (handle p) →
       exec (ResetTimeoutImpl args' env') s2
       = [Done OK (delivered (RestartOf p) (evaluated (Car args') env' s2))])
  ∧ (∀ s2 args' env' s3,
       rtc next s1 s2 →
       value (Car args') env' s2 = Ok (handle p) →
       Done OK s3 ∈ exec (AbandonImpl args' env') s2 →
       ∀ s4 args'' env'',
         rtc next s3 s4 →
         value (Car args'') env'' s4 = Ok (handle p) →
         exec (AbandonImpl args'' env'') s4
         = [Blocked (parkedSend (AbortOf p)) (evaluated (Car args'') env'' s4)]
         ∧ ∀ s5, rtc next s4 s5 →
             exec (parkedSend (AbortOf p)) s5
             = [Blocked (parkedSend (AbortOf p)) s5]).
Proof.
  intros Hs Hdone. pose proof (Inv_reachable _ Hs) as HI.
  apply ForkImpl_returns in Hdone as (f & Hv & [= ->] & ->).
  set (s0 := evaluated (Car args) env s).
  assert (Inv s0) as HI0
    by (eapply Inv_effect; [apply (eff_eval (λ _, True))|done]).
  assert (Inv (forked env f s0)) as HI1
    by (eapply Inv_effect; [apply (eff_fork (λ _, True))|done]).
  set (p := length (procs s)) in *.
  assert (tasks (forked env f s0) !! p = Some (ForkTask f (handle p) env false))
    as Ht1.
  { unfold forked, p. simpl. rewrite <- (inv_length _ HI) at 1.
    by rewrite lookup_app_r, Nat.sub_diag. }
  assert (procs (forked env f s0) !! p = Some (newProcess env f None)) as Hp1.
  { unfold forked, p. simpl. by rewrite lookup_app_r, Nat.sub_diag. }
  split; [by exists f|]. split; [|split].
  - intros s2 args' env' Hquiet Hv'.
    destruct (quiet_keeps (AbortOf p) _ _ _ _ ltac:(done) Hquiet HI1 Ht1 I Hp1)
      as (pr2 & Hp2 & Hkeep & HI2).
    pose proof (quiet_next _ _ _ Hquiet) as Hrtc.
    destruct (steps_idle _ _ _ _ _ Hrtc HI1 Ht1 I Hp1)
      as (t2 & pr2' & Ht2 & Hidle2 & _ & Hp2' & _).
    simpl in Hp2. rewrite Hp2 in Hp2'. injection Hp2' as <-.
    destruct (abandon_idle args' env' _ _ _ _ HI2 Ht2 Hidle2 Hp2 Hv') as [Hok _].
    apply Hok. simpl in Hkeep. by rewrite Hkeep.
  - intros s2 args' env' Hquiet Hv'.
    destruct (quiet_keeps (RestartOf p) _ _ _ _ ltac:(done) Hquiet HI1 Ht1 I Hp1)
      as (pr2 & Hp2 & Hkeep & HI2).
    rewrite (reset_timeout_slot _ _ _ _ pr2) by done.
    simpl in Hkeep. by rewrite Hkeep.
  - intros s2 args' env' s3 Hrtc Hv' Hdone s4 args'' env'' Hrtc' Hv''.
    pose proof (Inv_steps _ _ Hrtc HI1) as HI2.
    destruct (steps_idle _ _ _ _ _ Hrtc HI1 Ht1 I Hp1)
      as (t2 & pr2 & Ht2 & Hidle2 & _ & Hp2 & _).
    destruct (abandon_idle args' env' _ _ _ _ HI2 Ht2 Hidle2 Hp2 Hv')
      as [Hempty Hfull].
    destruct (buf (Abort pr2)) as [|v rest] eqn:Hb.
    + rewrite Hempty in Hdone by done.
      apply list_elem_of_singleton in Hdone as [= ->].
      set (s2' := evaluated (Car args') env' s2) in *.
      assert (Inv (delivered (AbortOf p) s2')) as HI3.
      { eapply Inv_put_chan; [exact Hp2| |].
        - split; simpl; lia.
        - eapply Inv_effect; [apply (eff_eval (λ _, True))|done]. }
      assert (procs (delivered (AbortOf p) s2') !! p
              = Some (with_chan (AbortOf p) {| cap := 1; buf := [true] |} pr2))
        as Hp3 by (by apply (put_chan_owner (AbortOf p))).
      destruct (steps_idle _ _ _ _ _ Hrtc' HI3 Ht2 Hidle2 Hp3)
        as (t4 & pr4 & Ht4 & Hidle4 & _ & Hp4 & Hgrow & _).
      pose proof (Inv_steps _ _ Hrtc' HI3) as HI4.
      eapply abandon_idle; eauto.
      eapply grows_nonempty; [exact Hgrow|done].
    + destruct Hfull as [Hblocked _]; [done|].
      rewrite Hblocked in Hdone. by apply list_elem_of_singleton in Hdone.
Qed.

End Controller.

(* ===================================================================== *)
(** ** The checks every call makes on its arguments *)
(* ===================================================================== *)

Section ArgumentChecks.
Context `{Host}.

Implicit Types (s : Sys) (p i : nat) (pr : Process) (c : ChanRef).

(** The check a primitive of two arguments makes on the value of its
    first argument before it evaluates the second: [schedule] wants an
    integer, [proc-sleep] a [Process] handle. *)
Definition firstArgumentPasses (name : string) (d : Data) : bool :=
  if bool_decide (name = "schedule") then IntegerP d else negb (notProcess d).

(** X1: every registered primitive evaluates its first argument
    expression before anything else, and an error of the evaluator is
    the result of the call, unchanged; a primitive of two arguments does
    the same with its second argument once the first passed its check.
    Such a call has evaluated and nothing more. *)
Theorem evaluation_error_is_returned name arity impl args env s err :
  (name, arity, impl) ∈ RegisterConcurrencyPrimitives →
  let s1 := evaluated (Car args) env s in
  let s2 := evaluated (Cadr args) env s1 in
  (value (Car args) env s = Err err →
     exec (impl args env) s = [Done (Err err) s1] ∧ spawns_nothing s s1)
  ∧ (arity = 2 →
     ∀ d, value (Car args) env s = Ok d → firstArgumentPasses name d = true →
       value (Cadr args) env s1 = Err err →
       exec (impl args env) s = [Done (Err err) s2] ∧ spawns_nothing s s2).
Proof.
  intros Hreg s1 s2. unfold RegisterConcurrencyPrimitives in Hreg.
  rewrite !elem_of_cons, elem_of_nil in Hreg.
  assert (spawns_nothing s s1) as Hs1 by apply spawns_nothing_evaluated.
  assert (spawns_nothing s s2) as Hs2
    by (eapply spawns_nothing_trans; [done|apply spawns_nothing_evaluated]).
  destruct Hreg as [?|[?|[?|[?|[?|[?|[]]]]]]]; simplify_eq;
    (split; [intros Hv|intros Har; try done; intros d Hv Hd Hv']).
  - by rewrite exec_ForkImpl, Hv.
  - by rewrite exec_ProcSleepImpl, Hv.
  - unfold firstArgumentPasses in Hd. simpl in Hd.
    apply negb_true_iff in Hd.
    rewrite exec_ProcSleepImpl, Hv, Hd. cbn zeta. fold s1. by rewrite Hv'.
  - by rewrite exec_WakeImpl, Hv.
  - by rewrite exec_ScheduleImpl, Hv.
  - unfold firstArgumentPasses in Hd. simpl in Hd.
    rewrite exec_ScheduleImpl, Hv, Hd. cbn [negb]. cbn iota zeta. fold s1.
    by rewrite Hv'.
  - by rewrite exec_ResetTimeoutImpl, Hv.
  - by rewrite exec_AbandonImpl, Hv.
Qed.

(** The words with which a primitive complains about a value that is no
    [Process] handle. *)
Definition complaint (name : string) : string :=
  if bool_decide (name = "proc-sleep") then
    "proc-sleep expects a Process object expected but received "
  else if bool_decide (name = "wake") then
    "wake expects a Process object expected but received "
  else if bool_decide (name = "abandon") then
    "adandon expects a Process object expected but received "
  else "restart expects a Process object expected but received ".

(** X2: [proc-sleep], [wake], [abandon] and [reset-timeout] refuse a
    first argument that is no object of type ["Process"]: the call
    returns a [ProcessError] that names the object type of the value,
    touches no channel and no timer, and does not block.  [abandon]
    signs its message as "adandon", [reset-timeout] as "restart". *)
Theorem handle_check_rejects name arity impl args env s d :
  (name, arity, impl) ∈ RegisterConcurrencyPrimitives →
  name ≠ "fork" → name ≠ "schedule" →
  value (Car args) env s = Ok d →
  notProcess d = true →
  exec (impl args env) s
  = [Done (Err (ProcessError (complaint name +:+ ObjectType d +:+ ".") env))
       (evaluated (Car args) env s)]
  ∧ spawns_nothing s (evaluated (Car args) env s).
Proof.
  unfold RegisterConcurrencyPrimitives. rewrite !elem_of_cons, elem_of_nil.
  intros [?|[?|[?|[?|[?|[?|[]]]]]]] Hfork Hsched Hv Hd; simplify_eq;
    (split; [|apply spawns_nothing_evaluated]).
  - by rewrite exec_ProcSleepImpl, Hv, Hd.
  - by rewrite exec_WakeImpl, Hv, Hd.
  - by rewrite exec_ResetTimeoutImpl, Hv, Hd.
  - by rewrite exec_AbandonImpl, Hv, Hd.
Qed.

(** X3: [proc-sleep] refuses a delay that is no integer, after it
    accepted the handle: the call returns the "expected an integer as a
    delay" error without arming a timer and without looking at the
    [Wake] channel, so that a wake that was pending stays pending. *)
Theorem proc_sleep_rejects_delay args env s p millis :
  value (Car args) env s = Ok (handle p) →
  let s1 := evaluated (Car args) env s in
  let s2 := evaluated (Cadr args) env s1 in
  value (Cadr args) env s1 = Ok millis →
  IntegerP millis = false →
  exec (ProcSleepImpl args env) s
  = [Done (Err (ProcessError
       ("proc-sleep expected an integer as a delay, but received "
          +:+ fmt_v millis +:+ ".") env)) s2]
  ∧ spawns_nothing s s2.
Proof.
  intros Hv s1 s2 Hv' Hm. split.
  - rewrite exec_ProcSleepImpl, Hv. cbn zeta.
    rewrite (proj2 (notProcess_false (handle p))) by eauto.
    fold s1. by rewrite Hv', Hm.
  - eapply spawns_nothing_trans; apply spawns_nothing_evaluated.
Qed.

End ArgumentChecks.

(* ===================================================================== *)
(** ** What a call can and cannot do *)
(* ===================================================================== *)

Section Containment.
Context `{Host}.

Implicit Types (s : Sys) (p i : nat) (pr : Process) (c : ChanRef).

Definition isEval (ev : Event) : Prop :=
  match ev with EvEval _ _ => True | EvApply _ _ _ => False end.

(** What a call leaves alone: the log, the clock, the parked calls, the
    tasks that exist and their number but for one more; the collaborators
    were asked for evaluations only. *)
Record contained (s s' : Sys) : Prop := {
  contained_logs : logs s' = logs s;
  contained_now : now s' = now s;
  contained_parked : parked s' = parked s;
  contained_tasks : tasks s `prefix_of` tasks s';
  contained_procs : length (procs s) ≤ length (procs s');
  contained_timers : length (timers s) ≤ length (timers s');
  contained_trace : ∃ evs, trace s' = trace s ++ evs ∧ Forall isEval evs;
}.

#[local] Instance contained_preorder : PreOrder contained.
Proof.
  split.
  - intros s. split; try done. exists []. by rewrite app_nil_r.
  - intros s1 s2 s3 [Hl1 Hn1 Hp1 Ht1 Hpr1 Htm1 (ev1 & Htr1 & Hev1)]
                    [Hl2 Hn2 Hp2 Ht2 Hpr2 Htm2 (ev2 & Htr2 & Hev2)].
    split; try congruence; try (by etrans).
    exists (ev1 ++ ev2). split; [|by apply Forall_app].
    by rewrite Htr2, Htr1, <- (assoc_L (++)).
Qed.

Lemma contained_guard g s s' : guard_fire g s = Some s' → contained s s'.
Proof.
  intros Hg. assert (∃ evs, trace s' = trace s ++ evs ∧ Forall isEval evs).
  { exists []. apply guard_fire_trace in Hg as [-> _]. by rewrite app_nil_r. }
  destruct g as [c|c v|t].
  - apply guard_fire_recv in Hg as (pr & v & ch' & _ & _ & ->).
    split; try done. unfold put_chan; simpl. by rewrite length_alter.
  - apply guard_fire_send in Hg as (pr & ch' & _ & _ & ->).
    split; try done. unfold put_chan; simpl. by rewrite length_alter.
  - apply guard_fire_timer in Hg as (j & tm & v & ch' & _ & _ & _ & ->).
    split; try done. simpl. by rewrite length_insert.
Qed.

Lemma contained_effect G s s' : effect G s s' → contained s s'.
Proof.
  intros [e env|g s1 _ _ Hg|d|env f|env millis f].
  - split; try done. exists [EvEval e env]. split; [done|]. by repeat constructor.
  - by eapply contained_guard.
  - split; try done; simpl; [rewrite length_app; lia|].
    exists []. by rewrite app_nil_r.
  - split; try done; simpl;
      [by apply prefix_app_r|rewrite length_app; lia|].
    exists []. by rewrite app_nil_r.
  - split; try done; simpl;
      [by apply prefix_app_r|rewrite length_app; lia..|].
    exists []. by rewrite app_nil_r.
Qed.

Lemma contained_effects G s s' : rtc (effect G) s s' → contained s s'.
Proof.
  induction 1 as [|s1 s2 s3 Heff _ IH]; [done|].
  etrans; [by eapply contained_effect|done].
Qed.

Lemma count_applied_evals procObj evs :
  Forall isEval evs → count_applied procObj evs = 0.
Proof.
  induction 1 as [|[e env|f a env] evs Hev _ IH]; simpl; try done.
Qed.

Lemma guard_fire_tasks g s s' : guard_fire g s = Some s' → tasks s' = tasks s.
Proof.
  intros Hg. destruct g as [c|c v|t].
  - by apply guard_fire_recv in Hg as (pr & v & ch' & _ & _ & ->).
  - by apply guard_fire_send in Hg as (pr & ch' & _ & _ & ->).
  - by apply guard_fire_timer in Hg as (j & tm & v & ch' & _ & _ & _ & ->).
Qed.

(** X4: a call of a registered primitive never panics, whatever its
    arguments.  It writes nothing to the log, does not move the clock,
    resumes no parked call, removes or changes no task, and asks the
    collaborators for evaluations only: no callback runs inside the call
    that spawned or signalled its process.  At most one task is started,
    by [fork] and [schedule] and by no other primitive. *)
Theorem call_is_contained name arity impl args env s o :
  (name, arity, impl) ∈ RegisterConcurrencyPrimitives →
  o ∈ exec (impl args env) s →
  (∀ text s', o ≠ Panicked text s')
  ∧ contained s (state_of o)
  ∧ (∀ procObj, invocations procObj (state_of o) = invocations procObj s)
  ∧ (tasks (state_of o) = tasks s
     ∨ ((name = "fork" ∨ name = "schedule")
        ∧ ∃ t, tasks (state_of o) = tasks s ++ [t])).
Proof.
  intros Hreg Ho.
  pose proof (primitives_tame_any _ _ _ args env Hreg) as Htame.
  destruct (tame_exec _ _ _ _ Htame Ho) as [Hrtc Hshape].
  pose proof (contained_effects _ _ _ Hrtc) as Hc.
  split; [|split; [done|split]].
  - intros text s' ->. done.
  - intros procObj. destruct (contained_trace _ _ Hc) as (evs & Htr & Hev).
    unfold invocations. rewrite Htr, count_applied_app.
    rewrite (count_applied_evals _ _ Hev). lia.
  - clear Htame Hrtc Hshape Hc. revert Hreg Ho.
    unfold RegisterConcurrencyPrimitives. rewrite !elem_of_cons, elem_of_nil.
    intros [?|[?|[?|[?|[?|[?|[]]]]]]]; simplify_eq.
    + rewrite exec_ForkImpl. cbn zeta.
      destruct (value (Car args) env s) as [f|e];
        [|intros ->%list_elem_of_singleton; by left].
      destruct (negb (FunctionP f));
        [intros ->%list_elem_of_singleton; by left|].
      case_bool_decide; intros ->%list_elem_of_singleton; [by left|].
      right. split; [by left|]. by eexists.
    + rewrite exec_ProcSleepImpl. cbn zeta.
      destruct (value (Car args) env s) as [d|e];
        [|intros ->%list_elem_of_singleton; by left].
      destruct (notProcess d); [intros ->%list_elem_of_singleton; by left|].
      destruct (value (Cadr args) env _) as [m|e];
        [|intros ->%list_elem_of_singleton; by left].
      destruct (negb (IntegerP m));
        [intros ->%list_elem_of_singleton; by left|].
      rewrite exec_sleepWait.
      intros [(sw & -> & Hg)|[(st & -> & Hg)|(-> & _)]]%race_outcome; left;
        [by apply guard_fire_tasks in Hg..|done].
    + rewrite exec_WakeImpl. cbn zeta.
      destruct (value (Car args) env s) as [d|e];
        [|intros ->%list_elem_of_singleton; by left].
      destruct (notProcess d); [intros ->%list_elem_of_singleton; by left|].
      destruct (guard_fire _ _) as [s2|] eqn:Hg;
        intros ->%list_elem_of_singleton; left; [|done].
      by apply guard_fire_tasks in Hg.
    + rewrite exec_ScheduleImpl. cbn zeta.
      destruct (value (Car args) env s) as [m|e];
        [|intros ->%list_elem_of_singleton; by left].
      destruct (negb (IntegerP m));
        [intros ->%list_elem_of_singleton; by left|].
      destruct (value (Cadr args) env _) as [f|e];
        [|intros ->%list_elem_of_singleton; by left].
      destruct (negb (FunctionP f));
        [intros ->%list_elem_of_singleton; by left|].
      case_bool_decide; intros ->%list_elem_of_singleton; [by left|].
      right. split; [by right|]. by eexists.
    + rewrite exec_ResetTimeoutImpl. cbn zeta.
      destruct (value (Car args) env s) as [d|e];
        [|intros ->%list_elem_of_singleton; by left].
      destruct (notProcess d); [intros ->%list_elem_of_singleton; by left|].
      destruct (guard_fire _ _) as [s2|] eqn:Hg;
        intros ->%list_elem_of_singleton; left; [|done].
      by apply guard_fire_tasks in Hg.
    + rewrite exec_AbandonImpl. cbn zeta.
      destruct (value (Car args) env s) as [d|e];
        [|intros ->%list_elem_of_singleton; by left].
      destruct (notProcess d); [intros ->%list_elem_of_singleton; by left|].
      destruct (guard_fire _ _) as [s2|] eqn:Hg;
        intros ->%list_elem_of_singleton; left; [|done].
      by apply guard_fire_tasks in Hg.
Qed.

(** The one way in which a call of each primitive parks, if it parks. *)
Lemma blocked_call name arity impl args env s k s' :
  (name, arity, impl) ∈ RegisterConcurrencyPrimitives →
  Blocked k s' ∈ exec (impl args env) s →
  ∃ p, value (Car args) env s = Ok (handle p)
    ∧ ((name = "wake" ∧ k = parkedSend (WakeOf p)
        ∧ s' = evaluated (Car args) env s
        ∧ guard_fire (SendG (WakeOf p) true) s' = None)
       ∨ (name = "abandon" ∧ k = parkedSend (AbortOf p)
          ∧ s' = evaluated (Car args) env s
          ∧ guard_fire (SendG (AbortOf p) true) s' = None)
       ∨ (name = "proc-sleep"
          ∧ ∃ n, value (Cadr args) env (evaluated (Car args) env s)
                 = Ok (IntegerD n)
                 ∧ k = sleepWait p (length (timers s))
                 ∧ s' = asleep args env (IntegerD n) s
                 ∧ guard_fire (RecvG (WakeOf p)) s' = None)).
Proof.
  unfold RegisterConcurrencyPrimitives. rewrite !elem_of_cons, elem_of_nil.
  intros [?|[?|[?|[?|[?|[?|[]]]]]]]; simplify_eq.
  - rewrite exec_ForkImpl. cbn zeta.
    destruct (value (Car args) env s) as [f|e];
      [|by intros [=]%list_elem_of_singleton].
    destruct (negb (FunctionP f)); [by intros [=]%list_elem_of_singleton|].
    case_bool_decide; by intros [=]%list_elem_of_singleton.
  - rewrite exec_ProcSleepImpl. cbn zeta.
    destruct (value (Car args) env s) as [d|e] eqn:Hv;
      [|by intros [=]%list_elem_of_singleton].
    destruct (notProcess d) eqn:Hd; [by intros [=]%list_elem_of_singleton|].
    apply notProcess_false in Hd as [p ->].
    destruct (value (Cadr args) env _) as [m|e] eqn:Hv';
      [|by intros [=]%list_elem_of_singleton].
    destruct (negb (IntegerP m)) eqn:Hm;
      [by intros [=]%list_elem_of_singleton|].
    destruct m as [| |n| | | | | |]; try done.
    rewrite exec_sleepWait.
    intros [(sw & [=] & _)|[(st & [=] & _)|([= -> ->] & Hg & _)]]%race_outcome.
    repeat (split; [done|]). exists p. split; [done|]. right; right.
    split; [done|]. by exists n.
  - rewrite exec_WakeImpl. cbn zeta.
    destruct (value (Car args) env s) as [d|e] eqn:Hv;
      [|by intros [=]%list_elem_of_singleton].
    destruct (notProcess d) eqn:Hd; [by intros [=]%list_elem_of_singleton|].
    apply notProcess_false in Hd as [p ->]. cbn [ObjectValue handle].
    destruct (guard_fire _ _) as [s2|] eqn:Hg;
      intros [= -> ->]%list_elem_of_singleton.
    repeat (split; [done|]). exists p. split; [done|]. by left.
  - rewrite exec_ScheduleImpl. cbn zeta.
    destruct (value (Car args) env s) as [m|e];
      [|by intros [=]%list_elem_of_singleton].
    destruct (negb (IntegerP m)); [by intros [=]%list_elem_of_singleton|].
    destruct (value (Cadr args) env _) as [f|e];
      [|by intros [=]%list_elem_of_singleton].
    destruct (negb (FunctionP f)); [by intros [=]%list_elem_of_singleton|].
    case_bool_decide; by intros [=]%list_elem_of_singleton.
  - rewrite exec_ResetTimeoutImpl. cbn zeta.
    destruct (value (Car args) env s) as [d|e];
      [|by intros [=]%list_elem_of_singleton].
    destruct (notProcess d); [by intros [=]%list_elem_of_singleton|].
    destruct (guard_fire _ _); by intros [=]%list_elem_of_singleton.
  - rewrite exec_AbandonImpl. cbn zeta.
    destruct (value (Car args) env s) as [d|e] eqn:Hv;
      [|by intros [=]%list_elem_of_singleton].
    destruct (notProcess d) eqn:Hd; [by intros [=]%list_elem_of_singleton|].
    apply notProcess_false in Hd as [p ->]. cbn [ObjectValue handle].
    destruct (guard_fire _ _) as [s2|] eqn:Hg;
      intros [= -> ->]%list_elem_of_singleton.
    repeat (split; [done|]). exists p. split; [done|]. right; left. done.
Qed.

(** X5: the calls that can block.  [fork], [schedule] and
    [reset-timeout] return from every call.  [wake] and [abandon] block
    in one way only: on the send into the [Wake], resp. [Abort], channel
    of the process named by a valid handle, when that send cannot
    proceed.  [proc-sleep] blocks in one way only: in its [select], with
    both arguments accepted and its timer armed, when no wake is
    pending. *)
Theorem calls_that_block name arity impl args env s k s' :
  (name, arity, impl) ∈ RegisterConcurrencyPrimitives →
  Blocked k s' ∈ exec (impl args env) s →
  name ≠ "fork" ∧ name ≠ "schedule" ∧ name ≠ "reset-timeout"
  ∧ ∃ p, value (Car args) env s = Ok (handle p)
    ∧ ((name = "wake" ∧ k = parkedSend (WakeOf p)
        ∧ s' = evaluated (Car args) env s
        ∧ guard_fire (SendG (WakeOf p) true) s' = None)
       ∨ (name = "abandon" ∧ k = parkedSend (AbortOf p)
          ∧ s' = evaluated (Car args) env s
          ∧ guard_fire (SendG (AbortOf p) true) s' = None)
       ∨ (name = "proc-sleep"
          ∧ ∃ n, value (Cadr args) env (evaluated (Car args) env s)
                 = Ok (IntegerD n)
                 ∧ k = sleepWait p (length (timers s))
                 ∧ s' = asleep args env (IntegerD n) s
                 ∧ guard_fire (RecvG (WakeOf p)) s' = None)).
Proof.
  intros Hreg Ho.
  destruct (blocked_call _ _ _ _ _ _ _ _ Hreg Ho) as (p & Hv & Hcases).
  assert (name = "wake" ∨ name = "abandon" ∨ name = "proc-sleep") as Hname
    by (destruct Hcases as [(-> & _)|[(-> & _)|(-> & _)]]; eauto).
  split; [|split; [|split]].
  - by destruct Hname as [->|[->| ->]].
  - by destruct Hname as [->|[->| ->]].
  - by destruct Hname as [->|[->| ->]].
  - by exists p.
Qed.

End Containment.

(* ===================================================================== *)
(** ** The spawned goroutines and their panic handler *)
(* ===================================================================== *)

Section TaskBodies.
Context `{Host}.

Implicit Types (s : Sys) (p i : nat) (pr : Process) (c : ChanRef) (t : Task).

(** The loop of the deferred handler on a stack text that is too short:
    it logs every line there is, and then indexes past the end. *)
Lemma exec_logStack_runs_out stack n i s :
  i ≤ length stack < i + n →
  exec (logStack stack i n) s
  = [Panicked "runtime error: index out of range"
       (logged stack i (length stack - i) s)].
Proof.
  revert i s. induction n as [|n IH]; intros i s Hlen; [lia|]. simpl.
  destruct (stack !! i) as [line|] eqn:Hline.
  - apply lookup_lt_Some in Hline as Hi. simpl.
    rewrite IH by lia. unfold logged, set_logs; simpl.
    replace (length stack - i) with (S (length stack - S i)) by lia.
    rewrite (drop_S _ _ _ Hline). simpl. by rewrite <- (assoc_L (++)).
  - apply lookup_ge_None in Hline.
    replace (length stack - i) with 0 by lia. unfold logged.
    rewrite take_0, fmap_nil, app_nil_r. by rewrite set_logs_id.
Qed.

(** X6: a panic of the protected function is recovered when the stack
    text has at least seven lines: [callWithPanicProtection] returns
    normally, having appended to the log exactly the first seven lines
    of the text, each followed by a line feed, and having left the rest
    of the state as the panic left it. *)
Theorem panic_is_recovered {A} (f : Prog A) prefix text s s1 :
  Panicked text s1 ∈ exec f s →
  7 ≤ length (stackLines text) →
  ∃ s', Done None s' ∈ exec (callWithPanicProtection f prefix) s
        ∧ logs s' = logs s1 ++ (ln <$> take 7 (stackLines text))
        ∧ length (logs s') = length (logs s1) + 7
        ∧ s' = set_logs (logs s') s1.
Proof.
  intros Hf Hlen. exists (logged (stackLines text) 0 7 s1). split; [|split; [|split]].
  - apply protect_done. right. split; [done|]. by exists text, s1.
  - done.
  - unfold logged. cbn [logs set_logs]. rewrite drop_0.
    rewrite length_app, length_fmap, length_take. lia.
  - done.
Qed.

(** X7: the deferred handler reads seven lines whatever the length of
    the stack text.  On a text of fewer than seven lines it logs the
    lines there are and then indexes past the end of the slice: the
    panic of the protected function is replaced by an index-out-of-range
    panic, which leaves [callWithPanicProtection]. *)
Theorem short_stack_panics_again {A} (f : Prog A) prefix text s s1 :
  Panicked text s1 ∈ exec f s →
  length (stackLines text) < 7 →
  ∃ s', Panicked "runtime error: index out of range" s'
          ∈ exec (callWithPanicProtection f prefix) s
        ∧ logs s' = logs s1 ++ (ln <$> stackLines text)
        ∧ s' = set_logs (logs s') s1.
Proof.
  intros Hf Hlen.
  exists (logged (stackLines text) 0 (length (stackLines text)) s1).
  split; [|split].
  - rewrite exec_callWithPanicProtection. apply elem_of_flat_map.
    exists (Panicked text s1). split; [done|].
    rewrite exec_logStack_runs_out by lia. rewrite Nat.sub_0_r.
    cbn [flat_map app]. by apply list_elem_of_singleton.
  - unfold logged. cbn [logs set_logs]. by rewrite drop_0, firstn_all.
  - done.
Qed.

(** X8: all that [callWithPanicProtection] can do.  A normal return of
    the protected function is passed on with the state untouched, and so
    is a goroutine parked inside it.  The function's own panic never
    leaves the wrapper: it is either recovered, with seven lines logged,
    or replaced by the index-out-of-range panic of the handler, when the
    stack text has fewer than seven lines. *)
Theorem protection_outcomes {A} (f : Prog A) prefix s o :
  o ∈ exec (callWithPanicProtection f prefix) s →
  match o with
  | Done (Some a) s' => Done a s' ∈ exec f s
  | Done None s' =>
      ∃ text s1, Panicked text s1 ∈ exec f s ∧ 7 ≤ length (stackLines text)
                 ∧ s' = logged (stackLines text) 0 7 s1
  | Blocked k s' => ∃ kb, Blocked kb s' ∈ exec f s
  | Panicked msg s' =>
      msg = "runtime error: index out of range"
      ∧ ∃ text s1, Panicked text s1 ∈ exec f s ∧ length (stackLines text) < 7
                   ∧ s' = logged (stackLines text) 0 (length (stackLines text)) s1
  end.
Proof.
  rewrite exec_callWithPanicProtection, elem_of_flat_map.
  intros ([b s1|kb s1|text s1] & Hin & Ho).
  - by apply list_elem_of_singleton in Ho as ->.
  - apply list_elem_of_singleton in Ho as ->. by exists kb.
  - destruct (decide (7 ≤ length (stackLines text))) as [Hlen|Hlen].
    + rewrite exec_logStack_enough in Ho by (simpl; lia).
      cbn [flat_map app] in Ho. apply list_elem_of_singleton in Ho as ->.
      by exists text, s1.
    + rewrite exec_logStack_runs_out in Ho by lia. rewrite Nat.sub_0_r in Ho.
      cbn [flat_map app] in Ho. apply list_elem_of_singleton in Ho as ->.
      split; [done|]. exists text, s1. split; [done|]. split; [lia|done].
Qed.

(** *** The callback and its error *)

(** X9: an error that the callback returns goes to the log and nowhere
    else.  The goroutine of [fork], and the goroutine of [schedule] when
    it takes its timer clause, apply the function to the handle; when
    the function returns an error they append the one line "error in
    forked process: " with the error to the log -- the goroutine of
    [schedule] in these same words -- and finish normally; when it
    returns a value they log nothing. *)
Theorem callback_error_is_logged f procObj env s :
  let applied := ApplyWithoutEval (FunctionValue f) (InternalMakeList [procObj])
                   env (world s) in
  let s1 := record (EvApply (FunctionValue f) (InternalMakeList [procObj]) env)
                   (set_world applied.2 s) in
  match applied.1 with
  | Returned r =>
      let s' := match r with
                | Ok _ => s1
                | Err forkedErr =>
                    set_logs (logs s ++ [ln ("error in forked process: "
                                               +:+ fmt_sharp_v forkedErr)]) s1
                end in
      exec (forkBody f procObj env) s = [Done (Some tt) s']
      ∧ ∀ proc millis aborted s0,
          guard_fire (RecvG (AbortOf proc)) s0 = None →
          guard_fire (RecvG (RestartOf proc)) s0 = None →
          guard_fire (TimerG (ScheduleTimerOf proc)) s0 = Some s →
          exec (scheduleBody proc millis f procObj env aborted) s0
          = [Done (Some (aborted, Break)) s']
  | Faulted _ => True
  end.
Proof.
  intros applied s1. subst applied s1.
  destruct (ApplyWithoutEval (FunctionValue f) (InternalMakeList [procObj]) env
              (world s)) as [[r|text] w] eqn:Happ; cbn [fst snd]; [|done].
  split.
  - unfold forkBody. rewrite exec_callWithPanicProtection, exec_callback.
    rewrite Happ. cbn [fst snd]. by destruct r.
  - intros proc millis aborted s0 Habort Hrestart Htimer.
    unfold scheduleBody. rewrite exec_callWithPanicProtection.
    unfold scheduleLoop. cbn [exec ready_cases].
    rewrite Habort, Hrestart, Htimer. cbn [flat_map fst snd app].
    rewrite app_nil_r.
    change (exec _ s) with
      (exec (ApplyP (FunctionValue f) (InternalMakeList [procObj]) env
               (λ r, match r with
                     | Err forkedErr =>
                         LogP (ln ("error in forked process: "
                                     +:+ fmt_sharp_v forkedErr))
                              (Ret (aborted, Break))
                     | Ok _ => Ret (aborted, Break)
                     end)) s).
    rewrite exec_callback, Happ. cbn [fst snd]. by destruct r.
Qed.

(** *** The goroutine of [fork] *)

(** A fork task that has run stays as it is: no step runs it again. *)
Lemma step_finished s l s' i f procObj env :
  step s l s' → Inv s → tasks s !! i = Some (ForkTask f procObj env true) →
  l ≠ LFork i ∧ tasks s' !! i = Some (ForkTask f procObj env true).
Proof.
  intros Hstep HI Ht. destruct Hstep as
    [name arity impl args env0 r s s' Hreg Ho
    |name arity impl args env0 k s s' Hreg Ho
    |j k r s s' Hj Ho
    |j f0 procObj0 env0 o s s' Hj Ho
    |j proc millis f0 procObj0 env0 aborted o s s' Hj Ho
    |tm tm1 tm2 s Htm Hfire
    |d s Hd]; (split; [try done|]).
  - eapply tame_exec in Ho as [Hrtc _]; [|by eapply primitives_tame_any].
    by eapply effects_tasks.
  - eapply tame_exec in Ho as [Hrtc _]; [|by eapply primitives_tame_any].
    change (tasks (set_parked (parked s' ++ [k]) s')) with (tasks s').
    by eapply effects_tasks.
  - change (tasks (set_parked (delete j (parked s')) s')) with (tasks s').
    eapply effect_tasks; [|done]. eapply parkable_exec; [|done].
    apply (inv_parked _ HI). by eapply list_elem_of_lookup_2.
  - intros [= ->]. congruence.
  - apply forkBody_done in Ho as (rec & Hinv & _).
    destruct (inv_tasks _ HI _ _ Hj) as [-> _].
    apply invoke_frame in Hinv as (_ & _ & Hts & _). simpl. rewrite Hts.
    destruct (decide (i = j)) as [->|Hne]; [congruence|].
    by rewrite list_lookup_insert_ne.
  - destruct (inv_tasks _ HI _ _ Hj) as (-> & -> & _).
    apply scheduleBody_frame in Ho as (Hts & _). simpl. rewrite Hts.
    destruct (decide (i = j)) as [->|Hne]; [congruence|].
    by rewrite list_lookup_insert_ne.
  - done.
  - done.
Qed.

Lemma steps_finished s s' i f procObj env :
  rtc next s s' → Inv s → tasks s !! i = Some (ForkTask f procObj env true) →
  tasks s' !! i = Some (ForkTask f procObj env true).
Proof.
  induction 1 as [s|s s1 s2 [l Hstep] _ IH]; intros HI Ht; [done|].
  apply IH; [by eapply Inv_step|]. by eapply step_finished.
Qed.

(** X10: the goroutine of [fork] applies the function exactly once.
    Its task belongs to the process whose handle [fork] returned and
    passes that handle as the only argument.  Before the task has run
    the function was never applied to the handle; the step of the task
    applies it once and finishes the task, whether the function returns
    a value, returns an error or faults and is recovered; afterwards no
    step runs the task again, and the count stays at one for good. *)
Theorem fork_applies_once s i f procObj env finished :
  reachable s →
  tasks s !! i = Some (ForkTask f procObj env finished) →
  let cb := EvApply (FunctionValue f) (InternalMakeList [handle i]) env in
  procObj = handle i
  ∧ invocations (handle i) s = (if finished then 1 else 0)
  ∧ (finished = false →
       (is_Some (invoke (FunctionValue f) (handle i) env s) →
          ∃ s', step s (LFork i) s')
       ∧ ∀ s', step s (LFork i) s' →
           trace s' = trace s ++ [cb]
           ∧ tasks s' !! i = Some (ForkTask f (handle i) env true)
           ∧ invocations (handle i) s' = 1)
  ∧ (finished = true →
       ∀ s', rtc next s s' →
         tasks s' !! i = Some (ForkTask f procObj env true)
         ∧ invocations (handle i) s' = 1
         ∧ ∀ s'', ¬ step s' (LFork i) s'').
Proof.
  intros Hs Ht cb. pose proof (Inv_reachable _ Hs) as HI.
  destruct (inv_tasks _ HI _ _ Ht) as [-> Hcount].
  split; [done|]. split; [done|]. split.
  - intros ->. split.
    + intros [[rec s1] Hinv]. eexists. eapply step_fork; [exact Ht|].
      apply forkBody_done. eauto.
    + intros s' Hstep.
      assert (Inv s') as HI' by (by eapply Inv_step).
      inversion Hstep as [| | |i0 f0 procObj0 env0 o s0 s1 Hi Ho| | |]; subst.
      rewrite Ht in Hi. injection Hi as <- <- <-.
      apply forkBody_done in Ho as (rec & Hinv & _).
      pose proof (invoke_frame _ _ _ _ _ _ Hinv) as (_ & _ & Hts & _ & _ & Htr).
      assert (tasks (set_tasks (<[i := ForkTask f (handle i) env true]> (tasks s1)) s1)
                !! i = Some (ForkTask f (handle i) env true)) as Ht'.
      { simpl. rewrite Hts. apply list_lookup_insert_eq.
        by eapply lookup_lt_Some. }
      split; [done|]. split; [done|].
      by destruct (inv_tasks _ HI' _ _ Ht') as [_ ?].
  - intros -> s' Hrtc.
    pose proof (steps_finished _ _ _ _ _ _ Hrtc HI Ht) as Ht'.
    pose proof (Inv_steps _ _ Hrtc HI) as HI'.
    split; [done|]. split; [by destruct (inv_tasks _ HI' _ _ Ht') as [_ ?]|].
    intros s'' Hstep.
    by destruct (step_finished _ _ _ _ _ _ _ Hstep HI' Ht') as [? _].
Qed.

End TaskBodies.

(* ===================================================================== *)
(** ** Timers and the clock *)
(* ===================================================================== *)

Section Timing.
Context `{Host}.

Implicit Types (s : Sys) (p i t : nat) (pr : Process) (c : ChanRef) (tm : Timer).

(** *** Durations *)

Lemma wrap64_small z : (- 2 ^ 63 ≤ z < 2 ^ 63)%Z → wrap64 z = z.
Proof. intros Hz. unfold wrap64. rewrite Z.mod_small; lia. Qed.

Lemma wrap64_high z : (2 ^ 63 ≤ z < 2 ^ 64)%Z → wrap64 z = (z - 2 ^ 64)%Z.
Proof.
  intros Hz. unfold wrap64.
  replace (z + 2 ^ 63)%Z with ((z - 2 ^ 63) + 1 * 2 ^ 64)%Z by lia.
  rewrite Z.mod_add by lia. rewrite Z.mod_small; lia.
Qed.

Lemma Milliseconds_exact n :
  (-9223372036854 ≤ n ≤ 9223372036854)%Z → Milliseconds n = (n * 1000000)%Z.
Proof.
  intros Hn. unfold Milliseconds, Millisecond.
  rewrite (wrap64_small n) by lia. apply wrap64_small. lia.
Qed.

Lemma Milliseconds_overflow n :
  (9223372036855 ≤ n ≤ 18446744073709)%Z →
  Milliseconds n = (n * 1000000 - 2 ^ 64)%Z.
Proof.
  intros Hn. unfold Milliseconds, Millisecond.
  rewrite (wrap64_small n) by lia. apply wrap64_high. lia.
Qed.

Lemma when_at_once z d : (d ≤ 0)%Z → when z d = z.
Proof. intros Hd. unfold when. by rewrite decide_True. Qed.

Lemma when_later z d :
  (0 < d)%Z → (0 ≤ z)%Z → (z + d < 2 ^ 63)%Z → when z d = (z + d)%Z.
Proof.
  intros Hd Hz Hsum. unfold when. rewrite decide_False by lia.
  cbn zeta. rewrite wrap64_small by lia. by rewrite decide_False by lia.
Qed.

(** *** The timer that [schedule] arms *)

(** What a call of [schedule] that returned a handle left behind, with
    the delay it read. *)
Lemma ScheduleImpl_timer args env s d s1 n :
  Done (Ok d) s1 ∈ exec (ScheduleImpl args env) s →
  value (Car args) env s = Ok (IntegerD n) →
  d = handle (length (procs s))
  ∧ (∃ pr, procs s1 !! length (procs s) = Some pr
           ∧ ScheduleTimer pr = Some (length (timers s)))
  ∧ timers s1 !! length (timers s) = Some (NewTimer (now s) (Milliseconds n))
  ∧ now s1 = now s.
Proof.
  intros (millis & f & Hv & _ & _ & _ & _ & -> & ->)%ScheduleImpl_returns Hn.
  rewrite Hn in Hv. injection Hv as <-.
  split; [done|]. unfold scheduled. simpl. split; [|split; [|done]].
  - eexists. by rewrite lookup_app_r, Nat.sub_diag.
  - by rewrite lookup_app_r, Nat.sub_diag.
Qed.

(** X11: [schedule] arms a timer for the delay it was given, in
    milliseconds.  The timer starts pending, with nothing in its
    channel, and the runtime can fire it from the instant it is due on.
    A delay of zero or less is due at the instant of the call; a
    positive delay of [n] milliseconds is due [n * 1000000] nanoseconds
    after the call (for delays and clocks within the range of
    [int64] nanoseconds). *)
Theorem schedule_arms_timer args env s d s1 n :
  Done (Ok d) s1 ∈ exec (ScheduleImpl args env) s →
  value (Car args) env s = Ok (IntegerD n) →
  ∃ p t tm,
    d = handle p
    ∧ (∃ pr, procs s1 !! p = Some pr ∧ ScheduleTimer pr = Some t)
    ∧ timers s1 !! t = Some tm
    ∧ active tm = true ∧ buf (C tm) = [] ∧ cap (C tm) = 1
    ∧ (∀ z, is_Some (fire z tm) ↔ (due tm ≤ z)%Z)
    ∧ ((-9223372036854 ≤ n ≤ 0)%Z → due tm = now s)
    ∧ ((0 < n ≤ 9223372036854)%Z → (0 ≤ now s)%Z →
       (now s + n * 1000000 < 2 ^ 63)%Z →
       due tm = (now s + n * 1000000)%Z).
Proof.
  intros Hdone Hn.
  destruct (ScheduleImpl_timer _ _ _ _ _ _ Hdone Hn) as (-> & Hp & Ht & _).
  eexists _, _, _. split; [done|]. split; [exact Hp|]. split; [exact Ht|].
  repeat (split; [done|]). split; [intros z; apply fire_NewTimer|]. split.
  - intros Hrange. simpl. rewrite Milliseconds_exact by lia.
    apply when_at_once. lia.
  - intros Hrange Hnow Hsum. simpl. rewrite Milliseconds_exact by lia.
    apply when_later; lia.
Qed.

(** X12: the delay of [schedule] is multiplied into [int64]
    nanoseconds without a check.  From 9223372036855 milliseconds on the
    product wraps around; up to 18446744073709 milliseconds it wraps to
    a negative duration, so that the timer is due at the instant of the
    call and the runtime can fire it at once. *)
Theorem schedule_delay_overflows args env s d s1 n :
  Done (Ok d) s1 ∈ exec (ScheduleImpl args env) s →
  value (Car args) env s = Ok (IntegerD n) →
  (9223372036855 ≤ n ≤ 18446744073709)%Z →
  (Milliseconds n < 0)%Z
  ∧ ∃ tm, timers s1 !! length (timers s) = Some tm
          ∧ due tm = now s
          ∧ is_Some (fire (now s1) tm).
Proof.
  intros Hdone Hn Hrange.
  destruct (ScheduleImpl_timer _ _ _ _ _ _ Hdone Hn) as (_ & _ & Ht & Hnow).
  assert (Milliseconds n < 0)%Z as Hneg
    by (rewrite Milliseconds_overflow by done; lia).
  split; [done|]. eexists. split; [exact Ht|].
  assert (when (now s) (Milliseconds n) = now s) as Hdue
    by (apply when_at_once; lia).
  split; [done|]. apply fire_NewTimer. rewrite Hdue, Hnow. done.
Qed.

(** *** The invariant of the timers *)

(** Timer [t] is the [ScheduleTimer] of a process. *)
Definition owned (t : nat) (s : Sys) : Prop :=
  ∃ p pr, procs s !! p = Some pr ∧ ScheduleTimer pr = Some t.

(** The calls that are parked: a [wake] or an [abandon] on its send, or
    a [proc-sleep] in its [select], waiting for a timer of its own. *)
Definition parkedCall (s : Sys) (k : Prog Result) : Prop :=
  (∃ p, k = parkedSend (WakeOf p))
  ∨ (∃ p, k = parkedSend (AbortOf p))
  ∨ (∃ p t, k = sleepWait p t ∧ t < length (timers s) ∧ ¬ owned t s).

(** Every timer channel has one slot; a tick in the channel of a timer
    that no process owns -- the timer of a [proc-sleep] -- was sent when
    the timer was due; the timer of a process is allocated. *)
Record Timed (s : Sys) : Prop := {
  timed_slot : ∀ t tm, timers s !! t = Some tm → one_slot (C tm);
  timed_due : ∀ t tm, timers s !! t = Some tm → ¬ owned t s →
                buf (C tm) ≠ [] → (due tm ≤ now s)%Z;
  timed_owned : ∀ t, owned t s → t < length (timers s);
  timed_parked : ∀ k, k ∈ parked s → parkedCall s k;
}.

(** How a state may differ from one in which the invariant holds. *)
Lemma Timed_frame s s' :
  Timed s →
  (now s ≤ now s')%Z →
  length (timers s) ≤ length (timers s') →
  (∀ t, owned t s → owned t s') →
  (∀ t, owned t s' → owned t s ∨ t < length (timers s')) →
  (∀ t, t < length (timers s) → owned t s' → owned t s) →
  (∀ t tm', timers s' !! t = Some tm' →
     one_slot (C tm')
     ∧ (buf (C tm') ≠ [] →
          owned t s' ∨ (due tm' ≤ now s')%Z
          ∨ ∃ tm, timers s !! t = Some tm ∧ buf (C tm) ≠ [] ∧ due tm = due tm')) →
  (∀ k, k ∈ parked s' → k ∈ parked s ∨ parkedCall s' k) →
  Timed s'.
Proof.
  intros [Hslot Hdue Hown Hpark] Hnow Hlen Hmono Hnew Hold Htimers Hparked.
  split.
  - intros t tm' Ht. by destruct (Htimers t tm' Ht).
  - intros t tm' Ht Hfree Hbuf.
    destruct (Htimers t tm' Ht) as [_ [?|[?|(tm & Htm & Hb & Hd)]]]; try done.
    rewrite <- Hd. etrans; [|exact Hnow]. eapply Hdue; eauto.
  - intros t Ht. destruct (Hnew t Ht) as [Ht'|?]; [|done].
    apply Hown in Ht'. lia.
  - intros k Hk. destruct (Hparked k Hk) as [Hk'|?]; [|done].
    destruct (Hpark k Hk') as [?|[?|(p & t & -> & Hlt & Hfree)]];
      [by left|by right; left|].
    right; right. exists p, t. split; [done|]. split; [lia|]. eauto.
Qed.

(** Nothing but the world, the log, the trace and the tasks changed. *)
Lemma Timed_same s s' :
  procs s' = procs s → timers s' = timers s → now s' = now s →
  parked s' = parked s → Timed s → Timed s'.
Proof.
  intros Hp Ht Hn Hk HT.
  assert (∀ t, owned t s' ↔ owned t s) as Hown
    by (intros t; unfold owned; by rewrite Hp).
  eapply Timed_frame; [done|lia|by rewrite Ht|..].
  - intros t. by apply Hown.
  - intros t Ht'%Hown. by left.
  - intros t _. by apply Hown.
  - intros t tm'. rewrite Ht. intros Htm. split; [by eapply timed_slot|].
    intros Hb. right; right. by exists tm'.
  - intros k. rewrite Hk. by left.
Qed.

Lemma owned_put_chan c ch s t : owned t (put_chan c ch s) ↔ owned t s.
Proof.
  unfold owned. split.
  - intros (p & pr' & Hp & Ht). rewrite procs_put_chan in Hp.
    case_decide; [|by eauto].
    destruct (procs s !! p) as [pr|] eqn:Hpr; [|done].
    injection Hp as <-. rewrite ScheduleTimer_with_chan in Ht. eauto.
  - intros (p & pr & Hp & Ht).
    destruct (decide (p = owner c)) as [->|Hne].
    + exists (owner c), (with_chan c ch pr).
      by rewrite procs_put_chan, decide_True, Hp, ScheduleTimer_with_chan.
    + exists p, pr. by rewrite procs_put_chan, decide_False.
Qed.

Lemma Timed_put_chan c ch s : Timed s → Timed (put_chan c ch s).
Proof.
  intros HT. eapply Timed_frame; [done|done|done|..].
  - intros t. by apply owned_put_chan.
  - intros t Ht%owned_put_chan. by left.
  - intros t _. by apply owned_put_chan.
  - intros t tm' Htm. split; [by eapply timed_slot|].
    intros Hb. right; right. by exists tm'.
  - intros k Hk. by left.
Qed.

(** A timer is replaced by one whose channel is in order. *)
Lemma Timed_update_timer t tm tm' s :
  Timed s → timers s !! t = Some tm →
  one_slot (C tm') →
  (buf (C tm') ≠ [] →
     owned t s ∨ (due tm' ≤ now s)%Z ∨ (buf (C tm) ≠ [] ∧ due tm = due tm')) →
  Timed (set_timers (<[t := tm']> (timers s)) s).
Proof.
  intros HT Ht Hslot Hdue.
  assert (∀ j, owned j (set_timers (<[t := tm']> (timers s)) s) ↔ owned j s)
    as Hown by done.
  eapply Timed_frame; [done|done|by simpl; rewrite length_insert|..].
  - intros j. by apply Hown.
  - intros j Hj%Hown. by left.
  - intros j _. by apply Hown.
  - intros j tmj. simpl. destruct (decide (j = t)) as [->|Hne].
    + rewrite list_lookup_insert_eq by (by eapply lookup_lt_Some).
      intros [= <-]. split; [done|]. intros Hb.
      destruct (Hdue Hb) as [?|[?|[? ?]]]; [by left|by right; left|].
      right; right. by exists tm.
    + rewrite list_lookup_insert_ne by done. intros Htm.
      split; [by eapply timed_slot|]. intros Hb. right; right. by exists tmj.
  - intros k Hk. by left.
Qed.

Lemma Timed_new_timer d s :
  Timed s → Timed (set_timers (timers s ++ [NewTimer (now s) d]) s).
Proof.
  intros HT.
  assert (∀ j, owned j (set_timers (timers s ++ [NewTimer (now s) d]) s)
               ↔ owned j s) as Hown by done.
  eapply Timed_frame; [done|done|by simpl; rewrite length_app; lia|..].
  - intros j. by apply Hown.
  - intros j Hj%Hown. by left.
  - intros j _. by apply Hown.
  - intros j tmj. simpl. intros [Hj|[_ Hj]]%lookup_app_Some.
    + split; [by eapply timed_slot|]. intros Hb. right; right. by exists tmj.
    + destruct (j - length (timers s)) as [|?]; [|done].
      injection Hj as <-. split; [apply one_slot_make|done].
  - intros k Hk. by left.
Qed.

Lemma Timed_guard g s s' : guard_fire g s = Some s' → Timed s → Timed s'.
Proof.
  intros Hg HT. destruct g as [c|c v|t].
  - apply guard_fire_recv in Hg as (pr & v & ch' & _ & _ & ->).
    by apply Timed_put_chan.
  - apply guard_fire_send in Hg as (pr & ch' & _ & _ & ->).
    by apply Timed_put_chan.
  - apply guard_fire_timer in Hg as (j & tm & v & ch' & _ & Htm & Hr & ->).
    destruct (one_slot_recv _ _ _ (timed_slot _ HT _ _ Htm) Hr)
      as (Hslot & _ & Hempty).
    by eapply Timed_update_timer.
Qed.

Lemma owned_new_proc pr s t :
  owned t (set_procs (procs s ++ [pr]) s)
  ↔ owned t s ∨ ScheduleTimer pr = Some t.
Proof.
  unfold owned. simpl. split.
  - intros (p & pr' & [Hp|[_ Hp]]%lookup_app_Some & Ht); [left; eauto|].
    destruct (p - length (procs s)) as [|?]; [|done].
    injection Hp as <-. by right.
  - intros [(p & pr' & Hp & Ht)|Ht].
    + exists p, pr'. split; [by apply lookup_app_l_Some|done].
    + exists (length (procs s)), pr.
      by rewrite lookup_app_r, Nat.sub_diag.
Qed.

Lemma Timed_forked env f s : Timed s → Timed (forked env f s).
Proof.
  intros HT.
  assert (∀ j, owned j (forked env f s) ↔ owned j s) as Hown.
  { intros j.
    etrans; [exact (owned_new_proc (newProcess env f None) s j)|].
    simpl. naive_solver. }
  eapply Timed_frame; [done|done|done|..].
  - intros j. by apply Hown.
  - intros j Hj%Hown. by left.
  - intros j _. by apply Hown.
  - intros j tmj Htm. split; [by eapply timed_slot|].
    intros Hb. right; right. by exists tmj.
  - intros k Hk. by left.
Qed.

Lemma Timed_scheduled env millis f s : Timed s → Timed (scheduled env millis f s).
Proof.
  intros HT.
  assert (∀ j, owned j (scheduled env millis f s)
               ↔ owned j s ∨ j = length (timers s)) as Hown.
  { intros j.
    etrans; [exact (owned_new_proc
                      (newProcess env f (Some (length (timers s))))
                      (set_timers
                         (timers s ++ [NewTimer (now s)
                                         (Milliseconds (IntegerValue millis))]) s)
                      j)|].
    unfold owned. simpl. naive_solver. }
  eapply Timed_frame; [done|done|by simpl; rewrite length_app; lia|..].
  - intros j Hj. apply Hown. by left.
  - intros j [Hj| ->]%Hown; [by left|]. right. simpl. rewrite length_app. simpl. lia.
  - intros j Hlt [Hj| ->]%Hown; [done|lia].
  - intros j tmj. simpl. intros [Hj|[_ Hj]]%lookup_app_Some.
    + split; [by eapply timed_slot|]. intros Hb. right; right. by exists tmj.
    + destruct (j - length (timers s)) as [|?]; [|done].
      injection Hj as <-. split; [apply one_slot_make|done].
  - intros k Hk. by left.
Qed.

Lemma Timed_effect G s s' : effect G s s' → Timed s → Timed s'.
Proof.
  intros [e env|g s1 _ _ Hg|d|env f|env millis f] HT.
  - by apply (Timed_same s).
  - by eapply Timed_guard.
  - by apply Timed_new_timer.
  - by apply Timed_forked.
  - by apply Timed_scheduled.
Qed.

Lemma Timed_effects G s s' : rtc (effect G) s s' → Timed s → Timed s'.
Proof. induction 1; eauto using Timed_effect. Qed.

Lemma Timed_set_parked ks s :
  (∀ k, k ∈ ks → k ∈ parked s ∨ parkedCall s k) →
  Timed s → Timed (set_parked ks s).
Proof.
  intros Hks HT. eapply Timed_frame; [done|done|done|by eauto..| |done].
  intros t tm' Htm. split; [by eapply timed_slot|].
  intros Hb. right; right. by exists tm'.
Qed.

Lemma Timed_invoke f i env s recovered s' :
  invoke f (handle i) env s = Some (recovered, s') → Timed s → Timed s'.
Proof.
  intros (Hp & Htm & _ & Hpk & Hn & _)%invoke_frame. by apply (Timed_same s).
Qed.

Lemma fire_Some z tm tm' :
  fire z tm = Some tm' →
  (due tm ≤ z)%Z ∧ due tm' = due tm
  ∧ C tm' = default (C tm) (chan_send (C tm) z).
Proof.
  unfold fire. destruct (active tm); simpl; [|done].
  case_bool_decide; [|done]. by intros [= <-].
Qed.

Lemma sleeper_parks args env s p n :
  Timed s →
  parkedCall (asleep args env (IntegerD n) s) (sleepWait p (length (timers s))).
Proof.
  intros HT. right; right. exists p, (length (timers s)).
  split; [done|]. split; [simpl; rewrite length_app; simpl; lia|].
  intros Hown%(timed_owned _ HT). lia.
Qed.

(** Every step of the interleaving keeps the invariant of the timers. *)
Lemma Timed_step s l s' : step s l s' → Inv s → Timed s → Timed s'.
Proof.
  intros Hstep HI HT. destruct Hstep as
    [name arity impl args env r s s' Hreg Ho
    |name arity impl args env k s s' Hreg Ho
    |i k r s s' Hi Ho
    |i f procObj env o s s' Hi Ho
    |i proc millis f procObj env aborted o s s' Hi Ho
    |t tm tm' s Ht Hfire
    |d s Hd].
  - eapply tame_exec in Ho as [Hrtc _]; [|by eapply primitives_tame_any].
    by eapply Timed_effects.
  - pose proof Ho as Ho'.
    eapply tame_exec in Ho' as [Hrtc _]; [|by eapply primitives_tame_any].
    simpl in Hrtc. pose proof (Timed_effects _ _ _ Hrtc HT) as HT'.
    apply Timed_set_parked; [|done].
    intros k' [Hk'|Hk']%elem_of_app; [by left|].
    apply list_elem_of_singleton in Hk' as ->. right.
    destruct (blocked_call _ _ _ _ _ _ _ _ Hreg Ho)
      as (p & _ & [(_ & -> & _)|[(_ & -> & _)|(_ & n & _ & -> & -> & _)]]).
    + left. by exists p.
    + right; left. by exists p.
    + by apply sleeper_parks.
  - assert (parkable (λ _, True) k) as Hk.
    { apply (inv_parked _ HI). by eapply list_elem_of_lookup_2. }
    pose proof (parkable_exec _ _ _ _ _ Hk Ho) as Heff.
    pose proof (Timed_effect _ _ _ Heff HT) as HT'.
    apply Timed_set_parked; [|done].
    intros k' Hk'. left. by eapply list_elem_of_delete_inv.
  - apply forkBody_done in Ho as (rec & Hinv & _).
    destruct (inv_tasks _ HI _ _ Hi) as [-> _].
    eapply (Timed_same s'); try done. by eapply Timed_invoke.
  - destruct (inv_tasks _ HI _ _ Hi)
      as (-> & -> & Hab & Hcount & pr & j & Hp & Hj & Hlt).
    eapply (Timed_same s'); try done.
    apply scheduleBody_done in Ho
      as [[Hg ->]|[(s1 & Hg & Hreset & ->)|(s1 & rec & Hg & Hinv & ->)]].
    + by eapply Timed_guard.
    + pose proof (Timed_guard _ _ _ Hg HT) as HT1.
      apply reset_timer_Some in Hreset as (j' & tm' & Hj' & Htm' & ->).
      eapply Timed_update_timer; [done|done|exact (timed_slot _ HT1 _ _ Htm')|].
      intros _. left. simpl in Hj'.
      destruct (procs s1 !! i) as [pr1|] eqn:Hp1; [|done].
      by exists i, pr1.
    + eapply Timed_invoke; [done|]. by eapply Timed_guard.
  - apply fire_Some in Hfire as (Hdue & Hsame & HC).
    eapply Timed_update_timer; [done|done| |].
    + rewrite HC. pose proof (timed_slot _ HT _ _ Ht) as Hslot.
      destruct (chan_send (C tm) (now s)) as [ch'|] eqn:Hs; [|done].
      simpl. by eapply one_slot_send.
    + intros _. right; left. by rewrite Hsame.
  - eapply Timed_frame; [done|simpl; lia|done|by eauto..| |by left].
    intros t tm' Htm. split; [by eapply timed_slot|].
    intros Hb. right; right. by exists tm'.
Qed.

Lemma Timed_boot w : Timed (boot w).
Proof.
  split; simpl; try done.
  - by intros t (p & pr & ? & _).
  - intros k Hk. by apply elem_of_nil in Hk.
Qed.

Lemma Timed_steps s s' : rtc next s s' → Inv s → Timed s → Timed s'.
Proof.
  induction 1 as [|s1 s2 s3 [l Hstep] _ IH]; [done|].
  intros HI HT. apply IH; [by eapply Inv_step|by eapply Timed_step].
Qed.

Lemma Timed_reachable s : reachable s → Timed s.
Proof.
  intros [w Hrtc]. eapply Timed_steps; [done|apply Inv_boot|apply Timed_boot].
Qed.

(** X13: what holds in every state the program can reach.  Every
    process has its one task.  Each of the three channels of a process
    and the channel of each timer has one slot and holds at most one
    value: a second event is never buffered.  The timer of a process
    is allocated, so that the schedule loop never resets or reads a nil
    timer.  A parked call is a [wake] or an [abandon] on its send, or a
    [proc-sleep] in its [select] on a timer that belongs to no
    process. *)
Theorem reachable_states_well_formed s :
  reachable s →
  length (tasks s) = length (procs s)
  ∧ (∀ p pr, procs s !! p = Some pr →
       one_slot (Wake pr) ∧ one_slot (Abort pr) ∧ one_slot (Restart pr)
       ∧ ∀ t, ScheduleTimer pr = Some t → is_Some (timers s !! t))
  ∧ (∀ t tm, timers s !! t = Some tm → one_slot (C tm))
  ∧ (∀ i proc millis f procObj env aborted running,
       tasks s !! i = Some (ScheduleTask proc millis f procObj env aborted running) →
       proc = i
       ∧ ∃ pr t tm, procs s !! i = Some pr ∧ ScheduleTimer pr = Some t
                    ∧ timers s !! t = Some tm)
  ∧ (∀ k, k ∈ parked s → parkedCall s k).
Proof.
  intros Hs. pose proof (Inv_reachable _ Hs) as HI.
  pose proof (Timed_reachable _ Hs) as HT.
  split; [apply (inv_length _ HI)|]. split; [|split; [|split]].
  - intros p pr Hp. destruct (inv_procs _ HI _ _ Hp) as (? & ? & ?).
    repeat (split; [done|]). intros t Ht. apply lookup_lt_is_Some_2.
    apply (timed_owned _ HT). by exists p, pr.
  - apply (timed_slot _ HT).
  - intros i proc millis f procObj env aborted running Ht.
    destruct (inv_tasks _ HI _ _ Ht) as (-> & _ & _ & _ & pr & t & Hp & Htm & Hlt).
    split; [done|]. destruct (lookup_lt_is_Some_2 _ _ Hlt) as [tm Htm'].
    by exists pr, t, tm.
  - apply (timed_parked _ HT).
Qed.

(** *** The clock *)

(** No step but the passing of time moves the clock, and the clock never
    runs backwards. *)
Lemma step_clock s l s' :
  step s l s' → Inv s →
  (now s ≤ now s')%Z ∧ ((∀ d, l ≠ LTick d) → now s' = now s).
Proof.
  intros Hstep HI.
  assert (now s' = now s ∨ ∃ d, l = LTick d ∧ (now s ≤ now s')%Z) as Hnow.
  { destruct Hstep as
      [name arity impl args env r s s' Hreg Ho
      |name arity impl args env k s s' Hreg Ho
      |i k r s s' Hi Ho
      |i f procObj env o s s' Hi Ho
      |i proc millis f procObj env aborted o s s' Hi Ho
      |t tm tm' s Ht Hfire
      |d s Hd].
    - left. eapply tame_exec in Ho as [Hrtc _]; [|by eapply primitives_tame_any].
      by apply contained_effects, contained_now in Hrtc.
    - left. eapply tame_exec in Ho as [Hrtc _]; [|by eapply primitives_tame_any].
      by apply contained_effects, contained_now in Hrtc.
    - left. assert (parkable (λ _, True) k) as Hk.
      { apply (inv_parked _ HI). by eapply list_elem_of_lookup_2. }
      pose proof (parkable_exec _ _ _ _ _ Hk Ho) as Heff.
      by apply contained_effect, contained_now in Heff.
    - left. apply forkBody_done in Ho as (rec & Hinv & _).
      destruct (inv_tasks _ HI _ _ Hi) as [-> _].
      by apply invoke_frame in Hinv as (_ & _ & _ & _ & ? & _).
    - left. destruct (inv_tasks _ HI _ _ Hi) as (-> & -> & _).
      apply scheduleBody_done in Ho
        as [[Hg ->]|[(s1 & Hg & Hreset & ->)|(s1 & rec & Hg & Hinv & ->)]].
      + by apply contained_guard, contained_now in Hg.
      + apply contained_guard, contained_now in Hg.
        by apply reset_timer_Some in Hreset as (j & tm' & _ & _ & ->).
      + apply contained_guard, contained_now in Hg.
        apply invoke_frame in Hinv as (_ & _ & _ & _ & Hn & _).
        simpl. congruence.
    - by left.
    - right. exists d. split; [done|]. simpl. lia. }
  destruct Hnow as [->|(d & -> & Hle)]; [by split|].
  split; [done|]. intros Hl. by destruct (Hl d).
Qed.

(** *** The timer of a [proc-sleep] *)

Lemma guard_fire_due g s s' t tm :
  guard_fire g s = Some s' → timers s !! t = Some tm →
  ∃ tm', timers s' !! t = Some tm' ∧ due tm' = due tm.
Proof.
  intros Hg Ht. destruct g as [c|c v|tr].
  - apply guard_fire_recv in Hg as (pr & v & ch' & _ & _ & ->). by exists tm.
  - apply guard_fire_send in Hg as (pr & ch' & _ & _ & ->). by exists tm.
  - apply guard_fire_timer in Hg as (j & tmj & v & ch' & _ & Hj & _ & ->).
    simpl. destruct (decide (t = j)) as [->|Hne].
    + rewrite list_lookup_insert_eq by (by eapply lookup_lt_Some).
      rewrite Ht in Hj. injection Hj as <-. by eexists.
    + rewrite list_lookup_insert_ne by done. by exists tm.
Qed.

Lemma guard_fire_owned g s s' t :
  guard_fire g s = Some s' → owned t s' ↔ owned t s.
Proof.
  intros Hg. destruct g as [c|c v|tr].
  - apply guard_fire_recv in Hg as (pr & v & ch' & _ & _ & ->).
    apply owned_put_chan.
  - apply guard_fire_send in Hg as (pr & ch' & _ & _ & ->).
    apply owned_put_chan.
  - by apply guard_fire_timer in Hg as (j & tmj & v & ch' & _ & _ & _ & ->).
Qed.

(** The timer [t] of a sleeper, with the instant [z] it is due: it is
    there, belongs to no process, and is due at [z]. *)
Definition sleepTimer (t : nat) (z : Z) (s : Sys) : Prop :=
  (∃ tm, timers s !! t = Some tm ∧ due tm = z) ∧ ¬ owned t s.

Lemma sleepTimer_same s s' t z :
  procs s' = procs s → timers s' = timers s →
  sleepTimer t z s → sleepTimer t z s'.
Proof. intros Hp Ht. unfold sleepTimer, owned. by rewrite Hp, Ht. Qed.

Lemma sleepTimer_guard g s s' t z :
  guard_fire g s = Some s' → sleepTimer t z s → sleepTimer t z s'.
Proof.
  intros Hg [(tm & Ht & Hz) Hfree].
  split; [|by rewrite (guard_fire_owned _ _ _ _ Hg)].
  destruct (guard_fire_due _ _ _ _ _ Hg Ht) as (tm' & Ht' & Hd).
  exists tm'. split; [done|congruence].
Qed.

Lemma sleepTimer_effect G s s' t z :
  effect G s s' → sleepTimer t z s → sleepTimer t z s'.
Proof.
  intros Heff Hsleep.
  destruct Heff as [e env|g s1 _ _ Hg|d|env f|env millis f].
  - by apply (sleepTimer_same s).
  - by eapply sleepTimer_guard.
  - destruct Hsleep as [(tm & Ht & Hz) Hfree].
    split; [|done]. exists tm. split; [|done]. simpl. by apply lookup_app_l_Some.
  - destruct Hsleep as [(tm & Ht & Hz) Hfree]. split; [by exists tm|].
    by intros [?| [=]]%(owned_new_proc (newProcess env f None) s).
  - destruct Hsleep as [(tm & Ht & Hz) Hfree].
    split; [exists tm; split; [|done]; simpl; by apply lookup_app_l_Some|].
    intros [Hown|Hnew]%(owned_new_proc
                          (newProcess env f (Some (length (timers s))))
                          (set_timers
                             (timers s ++ [NewTimer (now s)
                                             (Milliseconds (IntegerValue millis))])
                             s)); [done|].
    injection Hnew as <-. apply lookup_lt_Some in Ht. lia.
Qed.

Lemma sleepTimer_effects G s s' t z :
  rtc (effect G) s s' → sleepTimer t z s → sleepTimer t z s'.
Proof. induction 1; eauto using sleepTimer_effect. Qed.

(** No step re-arms the timer of a sleeper or gives it to a process. *)
Lemma sleepTimer_step s l s' t z :
  step s l s' → Inv s → sleepTimer t z s → sleepTimer t z s'.
Proof.
  intros Hstep HI Hsleep. destruct Hstep as
    [name arity impl args env r s s' Hreg Ho
    |name arity impl args env k s s' Hreg Ho
    |i k r s s' Hi Ho
    |i f procObj env o s s' Hi Ho
    |i proc millis f procObj env aborted o s s' Hi Ho
    |j tm tm' s Ht Hfire
    |d s Hd].
  - eapply tame_exec in Ho as [Hrtc _]; [|by eapply primitives_tame_any].
    by eapply sleepTimer_effects.
  - eapply tame_exec in Ho as [Hrtc _]; [|by eapply primitives_tame_any].
    apply (sleepTimer_same s'); [done..|]. by eapply sleepTimer_effects.
  - assert (parkable (λ _, True) k) as Hk.
    { apply (inv_parked _ HI). by eapply list_elem_of_lookup_2. }
    pose proof (parkable_exec _ _ _ _ _ Hk Ho) as Heff.
    apply (sleepTimer_same s'); [done..|]. by eapply sleepTimer_effect.
  - apply forkBody_done in Ho as (rec & Hinv & _).
    destruct (inv_tasks _ HI _ _ Hi) as [-> _].
    apply invoke_frame in Hinv as (Hp & Htm & _).
    apply (sleepTimer_same s); done.
  - destruct (inv_tasks _ HI _ _ Hi) as (-> & -> & _).
    apply (sleepTimer_same s'); [done..|].
    apply scheduleBody_done in Ho
      as [[Hg ->]|[(s1 & Hg & Hreset & ->)|(s1 & rec & Hg & Hinv & ->)]].
    + by eapply sleepTimer_guard.
    + pose proof (sleepTimer_guard _ _ _ _ _ Hg Hsleep) as [(tmt & Htm & Hz) Hfree].
      apply reset_timer_Some in Hreset as (j & tmj & Hj & _ & ->).
      split; [|done]. exists tmt. split; [|done]. simpl.
      rewrite list_lookup_insert_ne; [done|]. intros ->. apply Hfree.
      simpl in Hj. destruct (procs s1 !! i) as [pr1|] eqn:Hp1; [|done].
      by exists i, pr1.
    + pose proof (sleepTimer_guard _ _ _ _ _ Hg Hsleep) as Hsleep1.
      apply invoke_frame in Hinv as (Hp & Htm & _).
      by apply (sleepTimer_same s1).
  - destruct Hsleep as [(tmt & Htm & Hz) Hfree]. split; [|done].
    apply fire_Some in Hfire as (_ & Hsame & _). simpl.
    destruct (decide (t = j)) as [->|Hne].
    + rewrite list_lookup_insert_eq by (by eapply lookup_lt_Some).
      rewrite Ht in Htm. injection Htm as <-. eexists. split; [done|congruence].
    + rewrite list_lookup_insert_ne by done. by exists tmt.
  - done.
Qed.

Lemma sleepTimer_steps s s' t z :
  rtc next s s' → Inv s → sleepTimer t z s → sleepTimer t z s'.
Proof.
  induction 1 as [|s1 s2 s3 [l Hstep] _ IH]; [done|].
  intros HI Hsleep. apply IH; [by eapply Inv_step|by eapply sleepTimer_step].
Qed.

(** The state in which a [proc-sleep] waits keeps what holds of every
    reachable state, and holds the timer of the sleeper. *)
Lemma asleep_parked args env s p n :
  Inv s → Timed s →
  let t := length (timers s) in
  let s3 := asleep args env (IntegerD n) s in
  let s3' := set_parked (parked s3 ++ [sleepWait p t]) s3 in
  Inv s3' ∧ Timed s3'
  ∧ sleepTimer t (when (now s) (Milliseconds n)) s3'
  ∧ guard_fire (TimerG (TimerAt t)) s3 = None.
Proof.
  intros HI HT t s3 s3'.
  assert (rtc (effect (λ _, True)) s s3) as Hrtc.
  { eapply rtc_l; [apply (eff_eval _ _ (Car args) env)|].
    eapply rtc_l; [apply (eff_eval _ _ (Cadr args) env)|].
    apply rtc_once. apply eff_timer. }
  assert (timers s3 !! t = Some (NewTimer (now s) (Milliseconds n))) as Ht.
  { unfold s3, asleep, t. simpl. by rewrite lookup_app_r, Nat.sub_diag. }
  split; [|split; [|split]].
  - apply Inv_set_parked; [|by eapply Inv_effects].
    intros k [Hk|Hk]%elem_of_app.
    + apply (inv_parked s3); [by eapply Inv_effects|done].
    + apply list_elem_of_singleton in Hk as ->.
      apply parkable_select; [by repeat constructor|by eauto].
  - apply Timed_set_parked; [|by eapply Timed_effects].
    intros k [Hk|Hk]%elem_of_app; [by left|].
    apply list_elem_of_singleton in Hk as ->. right. by apply sleeper_parks.
  - split; [by eexists|]. intros Hown%(timed_owned _ HT). lia.
  - unfold guard_fire. cbn [timer_addr mbind option_bind]. by rewrite Ht.
Qed.

(** X14: [proc-sleep] never reports a timeout early.  The call itself
    returns only on a wake that was pending; otherwise it parks, and
    whenever it later returns [false] the clock has reached the instant
    for which its timer was armed: for a positive delay of [n]
    milliseconds, [n * 1000000] nanoseconds after the call.  Nothing the
    other goroutines do in between -- restarts of schedule timers
    included -- shortens the wait. *)
Theorem proc_sleep_not_early args env s p n :
  reachable s →
  value (Car args) env s = Ok (handle p) →
  value (Cadr args) env (evaluated (Car args) env s) = Ok (IntegerD n) →
  let t := length (timers s) in
  let s3 := asleep args env (IntegerD n) s in
  let z := when (now s) (Milliseconds n) in
  (∀ o, o ∈ exec (ProcSleepImpl args env) s →
     (∃ sw, o = Done (Ok (BooleanD true)) sw) ∨ o = Blocked (sleepWait p t) s3)
  ∧ (∀ s4 st,
       rtc next (set_parked (parked s3 ++ [sleepWait p t]) s3) s4 →
       Done (Ok (BooleanD false)) st ∈ exec (sleepWait p t) s4 →
       (z ≤ now s4)%Z)
  ∧ ((0 < n ≤ 9223372036854)%Z → (0 ≤ now s)%Z →
     (now s + n * 1000000 < 2 ^ 63)%Z →
     z = (now s + n * 1000000)%Z).
Proof.
  intros Hs Hv Hn t s3 z.
  pose proof (Inv_reachable _ Hs) as HI. pose proof (Timed_reachable _ Hs) as HT.
  destruct (asleep_parked args env s p n HI HT) as (HI3 & HT3 & Hsleep & Hnone).
  fold t s3 z in HI3, HT3, Hsleep, Hnone.
  split; [|split].
  - intros o. rewrite exec_ProcSleepImpl, Hv. cbn zeta.
    rewrite (proj2 (notProcess_false (handle p))) by eauto.
    rewrite Hn. simpl negb. cbn iota. cbn [ObjectValue handle].
    rewrite exec_sleepWait.
    intros [(sw & -> & _)|[(st & _ & Hg)|(-> & _)]]%race_outcome;
      [by eauto| |by right].
    fold t s3 in Hg. congruence.
  - intros s4 st Hrtc Hdone.
    pose proof (Inv_steps _ _ Hrtc HI3) as HI4.
    pose proof (Timed_steps _ _ Hrtc HI3 HT3) as HT4.
    destruct (sleepTimer_steps _ _ _ _ Hrtc HI3 Hsleep) as [(tm & Htm & Hz) Hfree].
    rewrite exec_sleepWait in Hdone.
    apply race_outcome in Hdone as [(sw & [=] & _)|[(st' & _ & Hg)|([=] & _)]].
    apply guard_fire_timer in Hg as (j & tm' & v & ch' & [= <-] & Htm' & Hr & _).
    rewrite Htm in Htm'. injection Htm' as <-. rewrite <- Hz.
    eapply (timed_due _ HT4); [done|done|].
    apply chan_recv_Some in Hr as (rest & -> & _). done.
  - intros Hrange Hnow Hsum. unfold z. rewrite Milliseconds_exact by lia.
    apply when_later; lia.
Qed.

(** *** [wake] before [proc-sleep] *)

(** X15: a wake is remembered.  A [wake] on a process whose [Wake]
    slot is empty returns ["OK"] and leaves its event in the slot; the
    next [proc-sleep] on that process, with a positive delay, finds the
    event, returns [true] without waiting, and empties the slot again,
    so that a further [wake] will not block.  The other two channels of
    the process are not touched. *)
Theorem wake_then_sleep args1 env1 args2 env2 s p pr n :
  reachable s →
  procs s !! p = Some pr → buf (Wake pr) = [] →
  value (Car args1) env1 s = Ok (handle p) →
  let s1 := delivered (WakeOf p) (evaluated (Car args1) env1 s) in
  value (Car args2) env2 s1 = Ok (handle p) →
  value (Cadr args2) env2 (evaluated (Car args2) env2 s1) = Ok (IntegerD n) →
  (0 < n ≤ 9223372036854)%Z →
  exec (WakeImpl args1 env1) s = [Done OK s1]
  ∧ ∃ s2 pr2,
      exec (ProcSleepImpl args2 env2) s1 = [Done (Ok (BooleanD true)) s2]
      ∧ procs s2 !! p = Some pr2
      ∧ buf (Wake pr2) = []
      ∧ Abort pr2 = Abort pr ∧ Restart pr2 = Restart pr.
Proof.
  intros Hs Hp Hb Hv1 s1 Hv2 Hn _.
  destruct (reachable_proc_ok _ _ _ Hs Hp) as (Hwake & _ & _).
  split.
  - rewrite exec_WakeImpl, Hv1. cbn zeta.
    rewrite (proj2 (notProcess_false (handle p))) by eauto.
    cbn [ObjectValue handle].
    rewrite (sent_after_eval (WakeOf p) _ _ _ pr) by done.
    simpl. by rewrite Hb.
  - set (full := {| cap := 1; buf := [true] |} : chan bool).
    set (s3 := asleep args2 env2 (IntegerD n) s1).
    assert (procs s3 !! p = Some (with_chan (WakeOf p) full pr)) as Hp3
      by (by apply (put_chan_owner (WakeOf p))).
    assert (timers s3 !! length (timers s1)
            = Some (NewTimer (now s1) (Milliseconds n))) as Ht3.
    { unfold s3, asleep. simpl. by rewrite lookup_app_r, Nat.sub_diag. }
    set (empty := {| cap := 1; buf := [] |} : chan bool).
    exists (put_chan (WakeOf p) empty s3),
           (with_chan (WakeOf p) empty (with_chan (WakeOf p) full pr)).
    split; [|split; [by apply (put_chan_owner (WakeOf p))|done]].
    rewrite exec_ProcSleepImpl, Hv2. cbn zeta.
    rewrite (proj2 (notProcess_false (handle p))) by eauto.
    rewrite Hn. simpl negb. cbn iota. cbn [ObjectValue handle].
    rewrite exec_sleepWait. fold s3. unfold race.
    assert (guard_fire (RecvG (WakeOf p)) s3
            = Some (put_chan (WakeOf p) empty s3)) as ->.
    { unfold guard_fire, get_chan. cbn [owner]. rewrite Hp3. done. }
    assert (guard_fire (TimerG (TimerAt (length (timers s1)))) s3 = None) as ->.
    { unfold guard_fire. cbn [timer_addr mbind option_bind]. by rewrite Ht3. }
    done.
Qed.

End Timing.

(* ===================================================================== *)
(** ** Signals to the schedule controller *)
(* ===================================================================== *)

Section Signals.
Context `{Host}.

Implicit Types (s : Sys) (p i t : nat) (pr : Process) (c : ChanRef) (tm : Timer).

(** X16: [reset-timeout] looks at the [Restart] slot of the process and
    at nothing else.  With the slot empty it leaves its event there and
    returns ["OK"]; with the slot taken it changes nothing and returns
    ["task was already completed or abandoned"]; the state of the
    controller plays no part.  So the second of two calls in a row,
    with no iteration of the controller in between, is answered with
    the second string, armed task or not. *)
Theorem reset_timeout_reports_slot args env s p pr :
  reachable s →
  procs s !! p = Some pr →
  value (Car args) env s = Ok (handle p) →
  let s1 := evaluated (Car args) env s in
  (buf (Restart pr) = [] →
     exec (ResetTimeoutImpl args env) s = [Done OK (delivered (RestartOf p) s1)]
     ∧ ∀ args' env',
         value (Car args') env' (delivered (RestartOf p) s1) = Ok (handle p) →
         exec (ResetTimeoutImpl args' env') (delivered (RestartOf p) s1)
         = [Done tooLate (evaluated (Car args') env' (delivered (RestartOf p) s1))])
  ∧ (buf (Restart pr) ≠ [] →
       exec (ResetTimeoutImpl args env) s = [Done tooLate s1]).
Proof.
  intros Hs Hp Hv s1. pose proof (Inv_reachable _ Hs) as HI.
  pose proof (reset_timeout_slot _ _ _ _ _ HI Hp Hv) as Hexec. fold s1 in Hexec.
  split.
  - intros Hb. rewrite Hb in Hexec. split; [done|].
    intros args' env' Hv'.
    assert (Inv s1) as HI1
      by (eapply Inv_effect; [apply (eff_eval (λ _, True))|done]).
    assert (Inv (delivered (RestartOf p) s1)) as HI2.
    { eapply Inv_put_chan; [exact Hp| |done]. split; simpl; lia. }
    rewrite (reset_timeout_slot args' env' _ p
               (with_chan (RestartOf p) {| cap := 1; buf := [true] |} pr));
      [done|done| |done].
    by apply (put_chan_owner (RestartOf p)).
  - intros Hb. rewrite Hexec. by destruct (buf (Restart pr)).
Qed.

(** X17: an [abandon] in time cancels the task.  On an Armed
    controller with nothing pending -- no abort, no restart, no tick of
    its timer -- [abandon] returns ["OK"] and leaves its event in the
    [Abort] slot.  From that state the one iteration the controller can
    make is the abort clause: it leaves the loop as Aborted, and in no
    state the program reaches afterwards was the callback applied to the
    handle. *)
Theorem abandon_cancels args env s i proc millis f procObj env0 aborted pr :
  reachable s →
  tasks s !! i = Some (ScheduleTask proc millis f procObj env0 aborted true) →
  procs s !! i = Some pr →
  buf (Abort pr) = [] → buf (Restart pr) = [] →
  (∀ t tm, ScheduleTimer pr = Some t → timers s !! t = Some tm → buf (C tm) = []) →
  value (Car args) env s = Ok (handle i) →
  let s1 := delivered (AbortOf i) (evaluated (Car args) env s) in
  exec (AbandonImpl args env) s = [Done OK s1]
  ∧ (∃ s2, step s1 (LSchedule i (Some (true, Break))) s2)
  ∧ ∀ o s2, step s1 (LSchedule i o) s2 →
      o = Some (true, Break)
      ∧ tasks s2 !! i = Some (ScheduleTask i millis f (handle i) env0 true false)
      ∧ controller true false = Aborted
      ∧ ∀ s3, rtc next s2 s3 → invocations (handle i) s3 = 0.
Proof.
  intros Hs Ht Hp Hab Hre Htick Hv s1.
  pose proof (Inv_reachable _ Hs) as HI.
  destruct (inv_tasks _ HI _ _ Ht) as (-> & -> & Hfalse & _ & pr' & t & Hp' & Htm & Hlt).
  rewrite Hp in Hp'. injection Hp' as <-. rewrite Hfalse in * by done.
  destruct (inv_procs _ HI _ _ Hp) as (_ & Hslot & _).
  assert (exec (AbandonImpl args env) s = [Done OK s1]) as Hexec.
  { rewrite exec_AbandonImpl, Hv. cbn zeta.
    rewrite (proj2 (notProcess_false (handle i))) by eauto.
    cbn [ObjectValue handle].
    rewrite (sent_after_eval (AbortOf i) _ _ _ pr) by done.
    simpl. by rewrite Hab. }
  assert (step s (LCall "abandon" args env OK) s1) as Hcall.
  { eapply (step_call "abandon" 1 AbandonImpl).
    - unfold RegisterConcurrencyPrimitives. set_solver.
    - rewrite Hexec. by apply list_elem_of_singleton. }
  pose proof (Inv_step _ _ _ Hcall HI) as HI1.
  set (full := {| cap := 1; buf := [true] |} : chan bool) in *.
  assert (procs s1 !! i = Some (with_chan (AbortOf i) full pr)) as Hp1
    by (by apply (put_chan_owner (AbortOf i))).
  assert (tasks s1 !! i = Some (ScheduleTask i millis f (handle i) env0 false true))
    as Ht1 by done.
  assert (guard_fire (RecvG (RestartOf i)) s1 = None) as Hnorestart.
  { unfold guard_fire, get_chan. cbn [owner]. rewrite Hp1. simpl.
    unfold chan_recv. by rewrite Hre. }
  assert (guard_fire (TimerG (ScheduleTimerOf i)) s1 = None) as Hnotick.
  { unfold guard_fire. cbn [timer_addr]. rewrite Hp1. simpl. rewrite Htm. simpl.
    destruct (lookup_lt_is_Some_2 (timers s) t Hlt) as [tm Htm'].
    rewrite Htm'. simpl. unfold chan_recv. by rewrite (Htick t tm). }
  split; [done|]. split.
  - eexists. eapply step_schedule; [exact Ht1|].
    apply scheduleBody_done. left. split; [|done].
    unfold guard_fire, get_chan. cbn [owner]. rewrite Hp1. done.
  - intros o s2 Hstep.
    destruct (schedule_step _ _ _ _ _ _ _ HI1 Ht1 Hstep)
      as [(-> & _ & _ & Ht2)|[(_ & (s' & Hg & _) & _)|(_ & [s' Hg] & _)]];
      [|congruence..].
    split; [done|]. split; [done|]. split; [done|].
    intros s3 Hrtc.
    pose proof (Inv_step _ _ _ Hstep HI1) as HI2.
    destruct (inv_tasks _ HI2 _ _ Ht2) as (_ & _ & _ & _ & pr2 & _ & Hp2 & _).
    destruct (steps_idle _ _ _ _ _ Hrtc HI2 Ht2 eq_refl Hp2)
      as (t3 & pr3 & Ht3 & _ & -> & _).
    pose proof (Inv_steps _ _ Hrtc HI2) as HI3.
    by destruct (inv_tasks _ HI3 _ _ Ht3) as (_ & _ & _ & ? & _).
Qed.

(** X18: a restart does not take back a tick that was already sent.
    When the timer of an Armed controller has ticked and a restart
    event is pending, the controller can take its restart clause: the
    timer is armed again for the full delay, but its channel still
    holds the tick, since [Reset] does not drain it.  The next
    iteration can then take the timer clause and apply the callback, at
    the very instant of the restart. *)
Theorem restart_keeps_sent_tick s i proc millis f procObj env aborted pr t tm :
  reachable s →
  tasks s !! i = Some (ScheduleTask proc millis f procObj env aborted true) →
  procs s !! i = Some pr → ScheduleTimer pr = Some t →
  timers s !! t = Some tm →
  buf (Restart pr) ≠ [] → buf (C tm) ≠ [] →
  let d := Milliseconds (IntegerValue millis) in
  ∃ s1,
    step s (LSchedule i (Some (false, Continue))) s1
    ∧ tasks s1 !! i = Some (ScheduleTask i millis f (handle i) env false true)
    ∧ timers s1 !! t = Some (Reset (now s) d tm)
    ∧ active (Reset (now s) d tm) = true
    ∧ due (Reset (now s) d tm) = when (now s) d
    ∧ buf (C (Reset (now s) d tm)) ≠ []
    ∧ now s1 = now s
    ∧ invocations (handle i) s1 = 0
    ∧ ∃ s1', guard_fire (TimerG (ScheduleTimerOf i)) s1 = Some s1'
        ∧ (is_Some (invoke (FunctionValue f) (handle i) env s1') →
           ∃ o s2, step s1 (LSchedule i o) s2
                   ∧ now s2 = now s
                   ∧ invocations (handle i) s2 = 1).
Proof.
  intros Hs Ht Hp Htimer Htm Hre Htick d.
  pose proof (Inv_reachable _ Hs) as HI.
  destruct (inv_tasks _ HI _ _ Ht) as (-> & -> & Hfalse & _).
  rewrite Hfalse in * by done.
  destruct (inv_procs _ HI _ _ Hp) as (_ & _ & Hslot).
  destruct (buf (Restart pr)) as [|v rest] eqn:Hbuf; [done|].
  set (ch' := {| cap := cap (Restart pr); buf := rest |}).
  set (s0 := put_chan (RestartOf i) ch' s).
  assert (guard_fire (RecvG (RestartOf i)) s = Some s0) as Hg.
  { unfold guard_fire, get_chan. cbn [owner]. rewrite Hp. simpl.
    unfold chan_recv. by rewrite Hbuf. }
  assert (procs s0 !! i = Some (with_chan (RestartOf i) ch' pr)) as Hp0
    by (by apply (put_chan_owner (RestartOf i))).
  set (s1 := set_timers (<[t := Reset (now s) d tm]> (timers s)) s0).
  assert (reset_timer (ScheduleTimerOf i) d s0 = Some s1) as Hreset.
  { unfold reset_timer. cbn [timer_addr]. rewrite Hp0. simpl. rewrite Htimer.
    simpl. change (timers s0) with (timers s). by rewrite Htm. }
  set (s1t := set_tasks (<[i := afterIteration i millis f (handle i) env false
                                  (Some (false, Continue))]> (tasks s1)) s1).
  assert (step s (LSchedule i (Some (false, Continue))) s1t) as Hstep.
  { eapply step_schedule; [exact Ht|].
    apply scheduleBody_done. right; left. eauto. }
  pose proof (Inv_step _ _ _ Hstep HI) as HI1.
  assert (tasks s1t !! i
          = Some (ScheduleTask i millis f (handle i) env false true)) as Ht1.
  { simpl. apply list_lookup_insert_eq. by eapply lookup_lt_Some. }
  assert (timers s1t !! t = Some (Reset (now s) d tm)) as Htm1.
  { simpl. apply list_lookup_insert_eq. by eapply lookup_lt_Some. }
  exists s1t. split; [done|]. split; [done|]. split; [done|].
  split; [done|]. split; [done|]. split; [done|]. split; [done|].
  split; [by destruct (inv_tasks _ HI1 _ _ Ht1) as (_ & _ & _ & ? & _)|].
  destruct (buf (C tm)) as [|tick rest'] eqn:HC; [done|].
  set (chC := {| cap := cap (C tm); buf := rest' |}).
  set (s1' := set_timers (<[t := drained chC (Reset (now s) d tm)]> (timers s1t)) s1t).
  assert (guard_fire (TimerG (ScheduleTimerOf i)) s1t = Some s1') as Hg1.
  { apply guard_fire_timer. exists t, (Reset (now s) d tm), tick, chC.
    split; [|split; [done|split; [|done]]].
    - unfold timer_addr. change (procs s1t) with (procs s0). rewrite Hp0.
      simpl. exact Htimer.
    - unfold chan_recv. simpl. by rewrite HC. }
  exists s1'. split; [done|].
  intros [[rec s2] Hinv].
  eexists _, _. split; [|split].
  - eapply step_schedule; [exact Ht1|].
    apply scheduleBody_done. right; right. eexists _, rec.
    split; [exact Hg1|split; [exact Hinv|done]].
  - simpl. by apply invoke_frame in Hinv as (_ & _ & _ & _ & -> & _).
  - change (invocations (handle i) s2 = 1).
    rewrite (invoke_invocations _ _ i _ _ _ _ Hinv).
    rewrite bool_decide_eq_true_2 by done.
    change (invocations (handle i) s1') with (invocations (handle i) s1t).
    by destruct (inv_tasks _ HI1 _ _ Ht1) as (_ & _ & _ & -> & _).
Qed.

End Signals.

(* ===================================================================== *)
(** ** The callback of [schedule] is never early *)
(* ===================================================================== *)

Section Punctuality.
Context `{Host}.

Implicit Types (s : Sys) (p i t : nat) (pr : Process) (c : ChanRef) (tm : Timer).

Lemma wrap64_range z : (- 2 ^ 63 ≤ wrap64 z < 2 ^ 63)%Z.
Proof.
  unfold wrap64. pose proof (Z.mod_pos_bound (z + 2 ^ 63) (2 ^ 64)). lia.
Qed.

(** A timer armed later is due later, as long as the clock fits
    [int64]. *)
Lemma when_mono z z' d :
  (0 ≤ z ≤ z')%Z → (z' < 2 ^ 63)%Z → (- 2 ^ 63 ≤ d < 2 ^ 63)%Z →
  (when z d ≤ when z' d)%Z.
Proof.
  intros Hz Hz' Hd. unfold when, maxInt64.
  destruct (decide (d ≤ 0)%Z) as [|Hpos]; [lia|]. cbn zeta.
  destruct (decide (z + d < 2 ^ 63)%Z) as [Hlow|Hhigh].
  - rewrite (wrap64_small (z + d)) by lia. rewrite decide_False by lia.
    destruct (decide (z' + d < 2 ^ 63)%Z) as [Hlow'|Hhigh'].
    + rewrite (wrap64_small (z' + d)) by lia. rewrite decide_False by lia. lia.
    + rewrite (wrap64_high (z' + d)) by lia. rewrite decide_True by lia. lia.
  - rewrite (wrap64_high (z + d)) by lia. rewrite decide_True by lia.
    rewrite (wrap64_high (z' + d)) by lia. rewrite decide_True by lia. lia.
Qed.

(** *** No two processes share a timer *)

Definition sole (s : Sys) : Prop :=
  ∀ p q pr pr' t, procs s !! p = Some pr → procs s !! q = Some pr' →
    ScheduleTimer pr = Some t → ScheduleTimer pr' = Some t → p = q.

Lemma sole_same s s' : procs s' = procs s → sole s → sole s'.
Proof. intros Hp. unfold sole. by rewrite Hp. Qed.

Lemma put_chan_lookup c ch s p pr' :
  procs (put_chan c ch s) !! p = Some pr' →
  ∃ pr, procs s !! p = Some pr ∧ ScheduleTimer pr' = ScheduleTimer pr.
Proof.
  rewrite procs_put_chan. case_decide; [|by eauto].
  destruct (procs s !! p) as [pr|]; [|done].
  intros [= <-]. exists pr. by rewrite ScheduleTimer_with_chan.
Qed.

Lemma sole_put_chan c ch s : sole s → sole (put_chan c ch s).
Proof.
  intros Hsole p q pr pr' t (pr0 & Hp & Ht)%put_chan_lookup
         (pr1 & Hq & Ht')%put_chan_lookup Htm Htm'.
  apply (Hsole p q pr0 pr1 t Hp Hq); congruence.
Qed.

Lemma sole_guard g s s' : guard_fire g s = Some s' → sole s → sole s'.
Proof.
  intros Hg Hsole. destruct g as [c|c v|tr].
  - apply guard_fire_recv in Hg as (pr & v & ch' & _ & _ & ->).
    by apply sole_put_chan.
  - apply guard_fire_send in Hg as (pr & ch' & _ & _ & ->).
    by apply sole_put_chan.
  - by apply guard_fire_timer in Hg as (j & tmj & v & ch' & _ & _ & _ & ->).
Qed.

Lemma sole_new_proc pr s :
  (∀ t, ScheduleTimer pr = Some t → ¬ owned t s) →
  sole s → sole (set_procs (procs s ++ [pr]) s).
Proof.
  intros Hfresh Hsole p q pr1 pr2 t. simpl.
  intros [Hp|[Hp Hp']]%lookup_app_Some [Hq|[Hq Hq']]%lookup_app_Some Ht1 Ht2.
  - by eapply Hsole.
  - destruct (q - length (procs s)) as [|?]; [|done]. injection Hq' as <-.
    destruct (Hfresh t Ht2). by exists p, pr1.
  - destruct (p - length (procs s)) as [|?]; [|done]. injection Hp' as <-.
    destruct (Hfresh t Ht1). by exists q, pr2.
  - destruct (p - length (procs s)) as [|?] eqn:Hpl; [|done].
    destruct (q - length (procs s)) as [|?] eqn:Hql; [|done]. lia.
Qed.

Lemma sole_effect G s s' : effect G s s' → Timed s → sole s → sole s'.
Proof.
  intros [e env|g s1 _ _ Hg|d|env f|env millis f] HT Hsole.
  - done.
  - by eapply sole_guard.
  - done.
  - apply (sole_same (set_procs (procs s ++ [newProcess env f None]) s)); [done|].
    by apply sole_new_proc.
  - apply (sole_same (set_procs
                        (procs s ++ [newProcess env f (Some (length (timers s)))])
                        s)); [done|].
    apply sole_new_proc; [|done].
    intros t [= <-] Hown%(timed_owned _ HT). lia.
Qed.

Lemma sole_effects G s s' :
  rtc (effect G) s s' → Timed s → sole s → sole s'.
Proof.
  induction 1 as [|s1 s2 s3 Heff _ IH]; [done|]. intros HT Hsole.
  apply IH; [by eapply Timed_effect|by eapply sole_effect].
Qed.

Lemma sole_step s l s' : step s l s' → Inv s → Timed s → sole s → sole s'.
Proof.
  intros Hstep HI HT Hsole. destruct Hstep as
    [name arity impl args env r s s' Hreg Ho
    |name arity impl args env k s s' Hreg Ho
    |i k r s s' Hi Ho
    |i f procObj env o s s' Hi Ho
    |i proc millis f procObj env aborted o s s' Hi Ho
    |j tm tm' s Ht Hfire
    |d s Hd]; [| | | | |by apply (sole_same s)..].
  - eapply tame_exec in Ho as [Hrtc _]; [|by eapply primitives_tame_any].
    by eapply sole_effects.
  - eapply tame_exec in Ho as [Hrtc _]; [|by eapply primitives_tame_any].
    apply (sole_same s'); [done|]. by eapply sole_effects.
  - assert (parkable (λ _, True) k) as Hk.
    { apply (inv_parked _ HI). by eapply list_elem_of_lookup_2. }
    pose proof (parkable_exec _ _ _ _ _ Hk Ho) as Heff.
    apply (sole_same s'); [done|]. by eapply sole_effect.
  - apply forkBody_done in Ho as (rec & Hinv & _).
    destruct (inv_tasks _ HI _ _ Hi) as [-> _].
    apply invoke_frame in Hinv as (Hp & _). by apply (sole_same s).
  - destruct (inv_tasks _ HI _ _ Hi) as (-> & -> & _).
    apply (sole_same s'); [done|].
    apply scheduleBody_done in Ho
      as [[Hg ->]|[(s1 & Hg & Hreset & ->)|(s1 & rec & Hg & Hinv & ->)]].
    + by eapply sole_guard.
    + apply reset_timer_Some in Hreset as (j & tmj & _ & _ & ->).
      apply (sole_same s1); [done|]. by eapply sole_guard.
    + apply invoke_frame in Hinv as (Hp & _).
      apply (sole_same s1); [done|]. by eapply sole_guard.
Qed.

Lemma sole_steps s s' : rtc next s s' → Inv s → Timed s → sole s → sole s'.
Proof.
  induction 1 as [|s1 s2 s3 [l Hstep] _ IH]; [done|]. intros HI HT Hsole.
  apply IH; [by eapply Inv_step|by eapply Timed_step|by eapply sole_step].
Qed.

Lemma sole_reachable s : reachable s → sole s.
Proof.
  intros [w Hrtc].
  eapply sole_steps; [done|apply Inv_boot|apply Timed_boot|].
  by intros p q pr pr' t.
Qed.

(** *** Who applies a callback *)

Lemma contained_invocations s s' procObj :
  contained s s' → invocations procObj s' = invocations procObj s.
Proof.
  intros Hc. destruct (contained_trace _ _ Hc) as (evs & Htr & Hev).
  unfold invocations. rewrite Htr, count_applied_app.
  rewrite (count_applied_evals _ _ Hev). lia.
Qed.

(** The callback of process [i] is applied by the task of process [i]
    and by no other step. *)
Lemma step_invocations s l s' i :
  step s l s' → Inv s →
  invocations (handle i) s' = invocations (handle i) s
  ∨ l = LFork i ∨ ∃ o, l = LSchedule i o.
Proof.
  intros Hstep HI. destruct Hstep as
    [name arity impl args env r s s' Hreg Ho
    |name arity impl args env k s s' Hreg Ho
    |j k r s s' Hj Ho
    |j f procObj env o s s' Hj Ho
    |j proc millis f procObj env aborted o s s' Hj Ho
    |j tm tm' s Ht Hfire
    |d s Hd]; try (by left).
  - left. eapply tame_exec in Ho as [Hrtc _]; [|by eapply primitives_tame_any].
    by apply contained_effects, (contained_invocations _ _ (handle i)) in Hrtc.
  - left. eapply tame_exec in Ho as [Hrtc _]; [|by eapply primitives_tame_any].
    by apply contained_effects, (contained_invocations _ _ (handle i)) in Hrtc.
  - left. assert (parkable (λ _, True) k) as Hk.
    { apply (inv_parked _ HI). by eapply list_elem_of_lookup_2. }
    pose proof (parkable_exec _ _ _ _ _ Hk Ho) as Heff.
    by apply contained_effect, (contained_invocations _ _ (handle i)) in Heff.
  - destruct (decide (j = i)) as [->|Hne]; [by right; left|left].
    apply forkBody_done in Ho as (rec & Hinv & _).
    destruct (inv_tasks _ HI _ _ Hj) as [-> _].
    change (invocations (handle i) s' = invocations (handle i) s).
    rewrite (invoke_invocations _ _ i _ _ _ _ Hinv).
    rewrite bool_decide_eq_false_2 by done. lia.
  - destruct (decide (j = i)) as [->|Hne]; [right; right; by eexists|left].
    destruct (inv_tasks _ HI _ _ Hj) as (-> & -> & _).
    change (invocations (handle i) s' = invocations (handle i) s).
    apply scheduleBody_done in Ho
      as [[Hg ->]|[(s1 & Hg & Hreset & ->)|(s1 & rec & Hg & Hinv & ->)]].
    + by apply contained_guard, (contained_invocations _ _ (handle i)) in Hg.
    + apply contained_guard, (contained_invocations s s1 (handle i)) in Hg.
      by apply reset_timer_Some in Hreset as (j' & tmj & _ & _ & ->).
    + apply contained_guard, (contained_invocations s s1 (handle i)) in Hg.
      rewrite (invoke_invocations _ _ i _ _ _ _ Hinv).
      rewrite bool_decide_eq_false_2 by done. lia.
Qed.

(** *** The timer of a scheduled process *)

(** Timer [t] was never due before [z0], and a tick in its channel was
    sent at [z0] or later. *)
Definition kept (z0 : Z) (t : nat) (s : Sys) : Prop :=
  ∃ tm, timers s !! t = Some tm ∧ (z0 ≤ due tm)%Z
        ∧ (buf (C tm) ≠ [] → (z0 ≤ now s)%Z).

Lemma kept_same z0 t s s' :
  timers s' = timers s → (now s ≤ now s')%Z → kept z0 t s → kept z0 t s'.
Proof.
  intros Ht Hn (tm & Htm & Hdue & Htick). exists tm. rewrite Ht.
  split; [done|]. split; [done|]. intros Hb. specialize (Htick Hb). lia.
Qed.

Lemma kept_guard z0 t g s s' :
  guard_fire g s = Some s' → kept z0 t s → kept z0 t s'.
Proof.
  intros Hg Hkept. destruct g as [c|c v|tr].
  - apply guard_fire_recv in Hg as (pr & v & ch' & _ & _ & ->).
    by apply (kept_same _ _ s).
  - apply guard_fire_send in Hg as (pr & ch' & _ & _ & ->).
    by apply (kept_same _ _ s).
  - apply guard_fire_timer in Hg as (j & tmj & v & ch' & _ & Hj & Hr & ->).
    destruct Hkept as (tm & Htm & Hdue & Htick).
    destruct (decide (t = j)) as [->|Hne].
    + rewrite Htm in Hj. injection Hj as <-.
      exists (drained ch' tm). simpl.
      rewrite list_lookup_insert_eq by (by eapply lookup_lt_Some).
      split; [done|]. split; [done|]. intros _. apply Htick.
      apply chan_recv_Some in Hr as (rest & -> & _). done.
    + exists tm. simpl. by rewrite list_lookup_insert_ne.
Qed.

Lemma kept_effect z0 t G s s' : effect G s s' → kept z0 t s → kept z0 t s'.
Proof.
  intros [e env|g s1 _ _ Hg|d|env f|env millis f] Hkept.
  - by apply (kept_same _ _ s).
  - by eapply kept_guard.
  - destruct Hkept as (tm & Htm & Hdue & Htick). exists tm.
    split; [|done]. simpl. by apply lookup_app_l_Some.
  - by apply (kept_same _ _ s).
  - destruct Hkept as (tm & Htm & Hdue & Htick). exists tm.
    split; [|done]. simpl. by apply lookup_app_l_Some.
Qed.

Lemma kept_effects z0 t G s s' :
  rtc (effect G) s s' → kept z0 t s → kept z0 t s'.
Proof. induction 1; eauto using kept_effect. Qed.

(** Process [i] owns a timer that is [kept]; its task captured the delay
    [millis]; if the callback was applied to its handle, the clock had
    reached [z0]. *)
Definition punctual (z0 : Z) (i : nat) (millis : Data) (s : Sys) : Prop :=
  (∃ f env aborted running,
     tasks s !! i
     = Some (ScheduleTask i millis f (handle i) env aborted running))
  ∧ (∃ pr t, procs s !! i = Some pr ∧ ScheduleTimer pr = Some t ∧ kept z0 t s)
  ∧ (invocations (handle i) s = 0 ∨ (z0 ≤ now s)%Z).

Lemma punctual_step now0 i millis s l s' :
  step s l s' → Inv s → sole s →
  (0 ≤ now0 ≤ now s)%Z → (now s < 2 ^ 63)%Z →
  punctual (when now0 (Milliseconds (IntegerValue millis))) i millis s →
  punctual (when now0 (Milliseconds (IntegerValue millis))) i millis s'.
Proof.
  set (d := Milliseconds (IntegerValue millis)). set (z0 := when now0 d).
  intros Hstep HI Hsole Hnow0 Hbound
         ((f & env & a & r & Ht) & (pr & t & Hp & Htimer & Hkept) & Hinv).
  destruct (step_clock _ _ _ Hstep HI) as [Hclock _].
  split; [|split].
  - destruct (step_captured _ _ _ _ _ Hstep HI Ht) as (t' & Ht' & Hcap).
    destruct t' as [|proc' millis' f' procObj' env' a' r']; [done|].
    simpl in Hcap. injection Hcap as -> -> -> -> ->. by eauto.
  - destruct (step_timer_field _ _ _ _ _ Hstep HI Hp) as (pr' & Hp' & Htimer').
    exists pr', t. split; [done|]. split; [congruence|].
    destruct Hstep as
      [name arity impl args env1 r1 s s' Hreg Ho
      |name arity impl args env1 k s s' Hreg Ho
      |j k r1 s s' Hj Ho
      |j f1 procObj env1 o s s' Hj Ho
      |j proc millis1 f1 procObj env1 aborted o s s' Hj Ho
      |j tm tm' s Htm Hfire
      |d1 s Hd].
    + eapply tame_exec in Ho as [Hrtc _]; [|by eapply primitives_tame_any].
      by eapply kept_effects.
    + eapply tame_exec in Ho as [Hrtc _]; [|by eapply primitives_tame_any].
      apply (kept_same _ _ s'); [done|done|]. by eapply kept_effects.
    + assert (parkable (λ _, True) k) as Hk.
      { apply (inv_parked _ HI). by eapply list_elem_of_lookup_2. }
      pose proof (parkable_exec _ _ _ _ _ Hk Ho) as Heff.
      apply (kept_same _ _ s'); [done|done|]. by eapply kept_effect.
    + apply forkBody_done in Ho as (rec & Hinv' & _).
      destruct (inv_tasks _ HI _ _ Hj) as [-> _].
      apply invoke_frame in Hinv' as (_ & Htm' & _ & _ & Hn & _).
      apply (kept_same _ _ s); [done|simpl; lia|done].
    + destruct (inv_tasks _ HI _ _ Hj) as (-> & -> & _).
      apply (kept_same _ _ s'); [done|done|].
      apply scheduleBody_done in Ho
        as [[Hg ->]|[(s1 & Hg & Hreset & ->)|(s1 & rec & Hg & Hinv' & ->)]].
      * by eapply kept_guard.
      * pose proof (kept_guard _ _ _ _ _ Hg Hkept) as (tm1 & Htm1 & Hdue1 & Htick1).
        pose proof Hg as Hg'.
        apply guard_fire_recv in Hg' as (prj & v & ch' & Hpj & _ & Hs1).
        apply reset_timer_Some in Hreset as (j' & tmj & Hj' & Htmj & ->).
        destruct (decide (t = j')) as [<-|Hne].
        -- assert (j = i) as ->.
           { simpl in Hj'. destruct (procs s1 !! j) as [prj1|] eqn:Hpj1; [|done].
             simpl in Hj'. rewrite Hs1 in Hpj1.
             apply put_chan_lookup in Hpj1 as (prj0 & Hpj0 & Hsame).
             apply (Hsole j i prj0 pr t); [done|done|congruence|done]. }
           rewrite Ht in Hj. injection Hj as <- <- <- <-.
           rewrite Htm1 in Htmj. injection Htmj as <-.
           exists (Reset (now s1) d tm1). simpl.
           rewrite list_lookup_insert_eq by (by eapply lookup_lt_Some).
           split; [done|]. split; [|done].
           assert (now s1 = now s) as ->
             by (by apply contained_guard, contained_now in Hg).
           apply when_mono; [done|done|apply wrap64_range].
        -- exists tm1. simpl. by rewrite list_lookup_insert_ne.
      * apply invoke_frame in Hinv' as (_ & Htm' & _ & _ & Hn & _).
        apply (kept_same _ _ s1); [done|lia|]. by eapply kept_guard.
    + destruct Hkept as (tm0 & Htm0 & Hdue & Htick).
      apply fire_Some in Hfire as (Hdue' & Hsame & _). simpl.
      destruct (decide (t = j)) as [->|Hne].
      * rewrite Htm0 in Htm. injection Htm as <-.
        exists tm'. simpl.
        rewrite list_lookup_insert_eq by (by eapply lookup_lt_Some).
        split; [done|]. split; [congruence|]. intros _. lia.
      * exists tm0. simpl. by rewrite list_lookup_insert_ne.
    + apply (kept_same _ _ s); [done|simpl; lia|done].
  - destruct Hinv as [Hzero|Hlate]; [|right; lia].
    destruct (step_invocations _ _ _ i Hstep HI) as [Hsame|[->|[o ->]]].
    + left. congruence.
    + inversion Hstep; subst. congruence.
    + assert (r = true ∧ a = false) as [-> ->].
      { inversion Hstep as
          [| | | |i0 proc millis0 f0 procObj env0 aborted o0 s3 s4 Hi Ho| |]; subst.
        rewrite Ht in Hi. injection Hi as <- <- <- <- ->.
        by destruct (inv_tasks _ HI _ _ Ht) as (_ & _ & -> & _). }
      destruct (schedule_step _ _ _ _ _ _ _ HI Ht Hstep)
        as [(_ & _ & Htr & _)|[(_ & _ & Htr & _)|(_ & [s1 Hg] & _)]].
      * left. unfold invocations. by rewrite Htr.
      * left. unfold invocations. by rewrite Htr.
      * right. destruct Hkept as (tm0 & Htm0 & Hdue & Htick).
        apply guard_fire_timer in Hg as (j & tmj & v & ch' & Hj & Htmj & Hr & _).
        simpl in Hj. rewrite Hp in Hj. simpl in Hj.
        rewrite Htimer in Hj. injection Hj as <-.
        rewrite Htm0 in Htmj. injection Htmj as <-.
        apply chan_recv_Some in Hr as (rest & Hb & _).
        assert (z0 ≤ now s)%Z by (apply Htick; by rewrite Hb). lia.
Qed.

Lemma steps_clock s s' : rtc next s s' → Inv s → (now s ≤ now s')%Z.
Proof.
  induction 1 as [|s1 s2 s3 [l Hstep] _ IH]; [done|]. intros HI.
  destruct (step_clock _ _ _ Hstep HI) as [Hle _].
  etrans; [exact Hle|]. apply IH. by eapply Inv_step.
Qed.

Lemma punctual_steps now0 i millis s s' :
  rtc next s s' → Inv s → Timed s → sole s →
  (0 ≤ now0 ≤ now s)%Z → (now s' < 2 ^ 63)%Z →
  punctual (when now0 (Milliseconds (IntegerValue millis))) i millis s →
  punctual (when now0 (Milliseconds (IntegerValue millis))) i millis s'.
Proof.
  induction 1 as [|s1 s2 s3 [l Hstep] Hrtc IH]; [done|].
  intros HI HT Hsole Hnow0 Hbound Hpunct.
  pose proof (Inv_step _ _ _ Hstep HI) as HI2.
  destruct (step_clock _ _ _ Hstep HI) as [Hle _].
  pose proof (steps_clock _ _ Hrtc HI2) as Hle2.
  apply IH; [done|by eapply Timed_step|by eapply sole_step|lia|done|].
  eapply punctual_step; [done|done|done|done|lia|done].
Qed.

(** X19: the callback of [schedule] is never applied early.  From a
    call of [schedule] that returned a handle, in no state the program
    reaches was the callback applied to the handle before the clock
    reached the instant for which the call armed its timer: for a
    positive delay of [n] milliseconds, [n * 1000000] nanoseconds after
    the call.  Restarts move that instant only further away.  (The clock
    is taken to fit [int64] nanoseconds.) *)
Theorem schedule_not_early args env s0 i s1 n s :
  reachable s0 →
  Done (Ok (handle i)) s1 ∈ exec (ScheduleImpl args env) s0 →
  value (Car args) env s0 = Ok (IntegerD n) →
  rtc next s1 s →
  (0 ≤ now s0)%Z → (now s < 2 ^ 63)%Z →
  0 < invocations (handle i) s →
  (when (now s0) (Milliseconds n) ≤ now s)%Z
  ∧ ((0 < n ≤ 9223372036854)%Z → (now s0 + n * 1000000 < 2 ^ 63)%Z →
     (now s0 + n * 1000000 ≤ now s)%Z).
Proof.
  intros Hs0 Hdone Hn Hrtc Hnow0 Hbound Hcount.
  assert (step s0 (LCall "schedule" args env (Ok (handle i))) s1) as Hcall.
  { eapply (step_call "schedule" 2 ScheduleImpl); [|done].
    unfold RegisterConcurrencyPrimitives. set_solver. }
  pose proof (Inv_reachable _ Hs0) as HI0.
  pose proof (Timed_reachable _ Hs0) as HT0.
  pose proof (sole_reachable _ Hs0) as Hsole0.
  pose proof (Inv_step _ _ _ Hcall HI0) as HI1.
  pose proof (Timed_step _ _ _ Hcall HI0 HT0) as HT1.
  pose proof (sole_step _ _ _ Hcall HI0 HT0 Hsole0) as Hsole1.
  destruct (ScheduleImpl_timer _ _ _ _ _ _ Hdone Hn)
    as ([= ->] & (pr & Hp & Htimer) & Htm & Hnow1).
  pose proof Hdone as Hdone'.
  apply ScheduleImpl_returns in Hdone'
    as (millis & f & Hv & _ & _ & _ & _ & _ & Hs1).
  rewrite Hn in Hv. injection Hv as <-.
  assert (Inv (evaluated (Cadr args) env (evaluated (Car args) env s0))) as HI2.
  { eapply Inv_effects; [|exact HI0].
    eapply rtc_l; [apply (eff_eval (λ _, True))|].
    apply rtc_once, (eff_eval (λ _, True)). }
  destruct (scheduled_task env (IntegerD n) f _ HI2) as (Ht1 & _).
  rewrite <- Hs1 in Ht1. change (procs (evaluated _ _ _)) with (procs s0) in Ht1.
  assert (punctual (when (now s0) (Milliseconds (IntegerValue (IntegerD n))))
            (length (procs s0)) (IntegerD n) s1) as Hpunct.
  { split; [by eauto|]. split.
    - exists pr, (length (timers s0)). split; [done|]. split; [done|].
      eexists. split; [exact Htm|]. split; [done|]. by intros [].
    - left. by destruct (inv_tasks _ HI1 _ _ Ht1) as (_ & _ & _ & ? & _). }
  assert (0 ≤ now s0 ≤ now s1)%Z as Hnow01 by lia.
  pose proof (punctual_steps _ _ _ _ _ Hrtc HI1 HT1 Hsole1 Hnow01 Hbound Hpunct)
    as (_ & _ & [Hzero|Hlate]); [lia|].
  simpl in Hlate. split; [done|].
  intros Hrange Hsum. rewrite Milliseconds_exact in Hlate by lia.
  rewrite when_later in Hlate by lia. done.
Qed.

End Punctuality.

(* ===================================================================== *)
(** ** A timer that is due can tick *)
(* ===================================================================== *)

Section Liveness.
Context `{Host}.

Implicit Types (s : Sys) (p i t : nat) (pr : Process) (c : ChanRef) (tm : Timer).

(** The channel operations that take no tick from a timer. *)
Definition nodrain (g : Guard) : Prop :=
  match g with TimerG _ => False | _ => True end.

Lemma nodrain_timers s s' t tm :
  effect nodrain s s' → timers s !! t = Some tm → timers s' !! t = Some tm.
Proof.
  intros [e env|g s1 Hg _ Hfire|d|env f|env millis f] Ht; try done.
  - destruct g as [c|c v|tr]; [| |done].
    + by apply guard_fire_recv in Hfire as (pr & v & ch' & _ & _ & ->).
    + by apply guard_fire_send in Hfire as (pr & ch' & _ & _ & ->).
  - simpl. by apply lookup_app_l_Some.
  - simpl. by apply lookup_app_l_Some.
Qed.

(** A call takes no tick from any timer: the one timer a call reads is
    the timer that [proc-sleep] has just armed. *)
Lemma call_nodrain name arity impl args env s o :
  (name, arity, impl) ∈ RegisterConcurrencyPrimitives →
  o ∈ exec (impl args env) s →
  rtc (effect nodrain) s (state_of o).
Proof.
  intros Hreg Ho. destruct (decide (name = "proc-sleep")) as [->|Hname].
  - assert (impl = ProcSleepImpl) as ->.
    { revert Hreg. unfold RegisterConcurrencyPrimitives.
      rewrite !elem_of_cons, elem_of_nil.
      intros [?|[?|[?|[?|[?|[?|[]]]]]]]; by simplify_eq. }
    clear Hreg. revert Ho. rewrite exec_ProcSleepImpl. cbn zeta.
    set (s1 := evaluated (Car args) env s).
    assert (rtc (effect nodrain) s s1) as H1 by apply rtc_once, eff_eval.
    destruct (value (Car args) env s) as [d|e];
      [|by intros ->%list_elem_of_singleton].
    destruct (notProcess d); [by intros ->%list_elem_of_singleton|].
    set (s2 := evaluated (Cadr args) env s1).
    assert (rtc (effect nodrain) s s2) as H2
      by (eapply rtc_r; [exact H1|apply eff_eval]).
    destruct (value (Cadr args) env s1) as [m|e];
      [|by intros ->%list_elem_of_singleton].
    destruct (negb (IntegerP m)); [by intros ->%list_elem_of_singleton|].
    set (s3 := asleep args env m s).
    assert (rtc (effect nodrain) s s3) as H3
      by (eapply rtc_r; [exact H2|apply eff_timer]).
    rewrite exec_sleepWait.
    intros [(sw & -> & Hg)|[(st & -> & Hg)|(-> & _)]]%race_outcome.
    + eapply rtc_r; [exact H3|].
      by eapply (eff_guard _ _ (RecvG (WakeOf _))); [..|exact Hg].
    + exfalso. revert Hg. unfold guard_fire. cbn [timer_addr mbind option_bind].
      unfold s3, asleep. simpl. by rewrite lookup_app_r, Nat.sub_diag.
    + exact H3.
  - eapply tame_exec in Ho as [Hrtc _]; [exact Hrtc|].
    eapply primitives_tame; [exact Hreg|].
    intros [[q|q|q]|[q|q|q] v|[q|q]]; simpl; try done.
Qed.

(** How a parked call resumes: by a send or a receive on a channel of a
    process, or, for a [proc-sleep], by the tick of its own timer. *)
Lemma resume_outcome s k r s' :
  parkedCall s k → Done r s' ∈ exec k s →
  effect nodrain s s'
  ∨ ∃ p t, k = sleepWait p t ∧ ¬ owned t s
           ∧ guard_fire (TimerG (TimerAt t)) s = Some s'.
Proof.
  intros [[p ->]|[[p ->]|(p & t & -> & _ & Hfree)]].
  - unfold parkedSend. cbn [exec].
    destruct (guard_fire (SendG (WakeOf p) true) s) as [s1|] eqn:Hg;
      intros [= _ <-]%list_elem_of_singleton.
    left. by eapply (eff_guard _ _ (SendG (WakeOf p) true)).
  - unfold parkedSend. cbn [exec].
    destruct (guard_fire (SendG (AbortOf p) true) s) as [s1|] eqn:Hg;
      intros [= _ <-]%list_elem_of_singleton.
    left. by eapply (eff_guard _ _ (SendG (AbortOf p) true)).
  - rewrite exec_sleepWait.
    intros [(sw & [= _ <-] & Hg)|[(st & [= _ <-] & Hg)|([=] & _)]]%race_outcome.
    + left. by eapply (eff_guard _ _ (RecvG (WakeOf p))).
    + right. by exists p, t.
Qed.

(** Timer [t] is pending, or its tick is waiting in its channel. *)
Definition pending (t : nat) (s : Sys) : Prop :=
  ∃ tm, timers s !! t = Some tm ∧ (active tm = true ∨ buf (C tm) ≠ []).

Lemma pending_same s s' t :
  (∀ tm, timers s !! t = Some tm → timers s' !! t = Some tm) →
  pending t s → pending t s'.
Proof. intros Hkeep (tm & Htm & Hok). exists tm. eauto. Qed.

Lemma pending_effects s s' t :
  rtc (effect nodrain) s s' → pending t s → pending t s'.
Proof.
  induction 1 as [|s1 s2 s3 Heff _ IH]; [done|]. intros Hpend. apply IH.
  eapply pending_same; [|done]. intros tm. by apply nodrain_timers.
Qed.

Lemma pending_other s t j tm' :
  t ≠ j → pending t s → pending t (set_timers (<[j := tm']> (timers s)) s).
Proof.
  intros Hne. apply pending_same. intros tm Htm. simpl.
  by rewrite list_lookup_insert_ne.
Qed.

(** The runtime fired timer [j]. *)
Lemma pending_fire s t j tm tm' :
  Timed s → timers s !! j = Some tm → fire (now s) tm = Some tm' →
  pending t s → pending t (set_timers (<[j := tm']> (timers s)) s).
Proof.
  intros HT Htm Hfire Hpend. destruct (decide (t = j)) as [->|Hne];
    [|by apply pending_other].
  exists tm'. simpl. rewrite list_lookup_insert_eq by (by eapply lookup_lt_Some).
  split; [done|]. right. apply fire_Some in Hfire as (_ & _ & ->).
  destruct (timed_slot _ HT _ _ Htm) as [Hcap Hlen].
  destruct (chan_send (C tm) (now s)) as [ch'|] eqn:Hs; simpl.
  - apply chan_send_Some in Hs as [_ ->]. simpl. by destruct (buf (C tm)).
  - apply chan_send_None in Hs. unfold full in Hs. rewrite Hcap in Hs.
    destruct (buf (C tm)); [simpl in Hs; lia|done].
Qed.

(** A pending timer that is due can be fired, and then its tick is in
    its channel. *)
Lemma pending_ticks s t tm :
  Timed s → timers s !! t = Some tm → pending t s → (due tm ≤ now s)%Z →
  ∃ s1 tm1 v ch',
    (s1 = s ∨ step s (LFire t) s1)
    ∧ procs s1 = procs s ∧ tasks s1 = tasks s ∧ parked s1 = parked s
    ∧ now s1 = now s ∧ trace s1 = trace s ∧ world s1 = world s
    ∧ logs s1 = logs s
    ∧ timers s1 !! t = Some tm1 ∧ chan_recv (C tm1) = Some (v, ch').
Proof.
  intros HT Htm (tm0 & Htm0 & Hok) Hdue.
  rewrite Htm in Htm0. injection Htm0 as <-.
  destruct (buf (C tm)) as [|v rest] eqn:Hb.
  - destruct Hok as [Hactive|?]; [|done].
    destruct (timed_slot _ HT _ _ Htm) as [Hcap _].
    set (tm' := {| C := {| cap := cap (C tm); buf := buf (C tm) ++ [now s] |};
                   due := due tm; active := false |}).
    assert (fire (now s) tm = Some tm') as Hfire.
    { unfold fire. rewrite Hactive, bool_decide_eq_true_2 by done. simpl.
      unfold chan_send. rewrite decide_True by (rewrite Hb, Hcap; simpl; lia).
      done. }
    exists (set_timers (<[t := tm']> (timers s)) s), tm', (now s),
           {| cap := cap (C tm); buf := [] |}.
    split; [right; by eapply step_fire|]. repeat (split; [done|]). split.
    + simpl. apply list_lookup_insert_eq. by eapply lookup_lt_Some.
    + unfold chan_recv. simpl. by rewrite Hb.
  - exists s, tm, v, {| cap := cap (C tm); buf := rest |}.
    split; [by left|]. repeat (split; [done|]).
    unfold chan_recv. by rewrite Hb.
Qed.

(** *** The timer of an Armed controller *)

(** The timer of every process is pending or has ticked, unless the
    task of the process has left its loop. *)
Definition ready (s : Sys) : Prop :=
  ∀ i pr t, procs s !! i = Some pr → ScheduleTimer pr = Some t →
    pending t s ∨ ∃ task, tasks s !! i = Some task ∧ idle task.

(** A state that has the processes of [s] with their timers, and keeps
    the timers and the tasks of [s]. *)
Lemma ready_same s s' :
  (∀ i pr', procs s' !! i = Some pr' →
     ∃ pr, procs s !! i = Some pr ∧ ScheduleTimer pr' = ScheduleTimer pr) →
  (∀ t tm, timers s !! t = Some tm → timers s' !! t = Some tm) →
  (∀ i task, tasks s !! i = Some task → tasks s' !! i = Some task) →
  ready s → ready s'.
Proof.
  intros Hprocs Htimers Htasks Hready i pr' t (pr & Hp & Hsame)%Hprocs Ht.
  rewrite Hsame in Ht. destruct (Hready i pr t Hp Ht) as [Hpend|(task & Hi & Hidle)].
  - left. eapply pending_same; [|done]. apply Htimers.
  - right. exists task. eauto.
Qed.

Lemma ready_guard g s s' :
  nodrain g → guard_fire g s = Some s' → ready s → ready s'.
Proof.
  intros Hg Hfire. apply ready_same.
  - destruct g as [c|c v|tr]; [| |done].
    + apply guard_fire_recv in Hfire as (pr & v & ch' & _ & _ & ->).
      intros i pr'. apply put_chan_lookup.
    + apply guard_fire_send in Hfire as (pr & ch' & _ & _ & ->).
      intros i pr'. apply put_chan_lookup.
  - intros t tm. destruct g as [c|c v|tr]; [| |done].
    + by apply guard_fire_recv in Hfire as (pr & v & ch' & _ & _ & ->).
    + by apply guard_fire_send in Hfire as (pr & ch' & _ & _ & ->).
  - intros i task. by rewrite (guard_fire_tasks _ _ _ Hfire).
Qed.

Lemma ready_effect s s' : effect nodrain s s' → ready s → ready s'.
Proof.
  intros Heff Hready.
  assert (∀ t tm, timers s !! t = Some tm → timers s' !! t = Some tm) as Htimers
    by (intros t tm; by apply nodrain_timers).
  destruct Heff as [e env|g s1 Hg _ Hfire|d|env f|env millis f].
  - apply (ready_same s); eauto.
  - by apply (ready_guard _ _ _ Hg Hfire).
  - apply (ready_same s); eauto.
  - intros i pr t. simpl. intros [Hp|[_ Hp]]%lookup_app_Some Ht.
    + destruct (Hready i pr t Hp Ht) as [Hpend|(task & Hi & Hidle)]; [by left|].
      right. exists task. split; [|done]. by apply lookup_app_l_Some.
    + destruct (i - length (procs s)) as [|?]; [|done]. by injection Hp as <-.
  - intros i pr t. simpl. intros [Hp|[_ Hp]]%lookup_app_Some Ht.
    + destruct (Hready i pr t Hp Ht) as [Hpend|(task & Hi & Hidle)].
      * left. eapply pending_same; [|done]. apply Htimers.
      * right. exists task. split; [|done]. by apply lookup_app_l_Some.
    + destruct (i - length (procs s)) as [|?]; [|done]. injection Hp as <-.
      injection Ht as <-. left. eexists. simpl.
      rewrite lookup_app_r, Nat.sub_diag by done. split; [done|]. by left.
Qed.

Lemma ready_effects s s' : rtc (effect nodrain) s s' → ready s → ready s'.
Proof. induction 1; eauto using ready_effect. Qed.

Lemma ready_set_parked ks s : ready s → ready (set_parked ks s).
Proof. apply ready_same; eauto. Qed.

(** Task [j] changed into an idle task, or stayed as it was. *)
Lemma ready_set_task s j task' :
  (idle task' ∨ tasks s !! j = Some task') →
  ready s → ready (set_tasks (<[j := task']> (tasks s)) s).
Proof.
  intros Hj Hready i pr t Hp Ht.
  destruct (Hready i pr t Hp Ht) as [Hpend|(task & Hi & Hidle)]; [by left|].
  right. simpl. destruct (decide (i = j)) as [->|Hne].
  - exists task'. rewrite list_lookup_insert_eq by (by eapply lookup_lt_Some).
    split; [done|]. destruct Hj as [?|Hj]; [done|]. congruence.
  - exists task. by rewrite list_lookup_insert_ne.
Qed.

(** Timer [j] changed; it is the timer of the process of task [i]
    only, and that timer is armed again or task [i] is idle. *)
Lemma ready_set_timer s i j tm' :
  sole s →
  (∃ pr, procs s !! i = Some pr ∧ ScheduleTimer pr = Some j) →
  (active tm' = true ∨ ∃ task, tasks s !! i = Some task ∧ idle task) →
  ready s → ready (set_timers (<[j := tm']> (timers s)) s).
Proof.
  intros Hsole (pri & Hpi & Hti) Hok Hready i' pr t Hp Ht.
  destruct (decide (t = j)) as [->|Hne].
  - assert (i' = i) as -> by (by eapply (Hsole i' i pr pri j)).
    destruct (Hready i pr j Hp Ht) as [(tm & Htm & _)|?]; [|by right].
    destruct Hok as [Hactive|?]; [left|by right].
    exists tm'. simpl.
    rewrite list_lookup_insert_eq by (by eapply lookup_lt_Some). eauto.
  - destruct (Hready i' pr t Hp Ht) as [Hpend|?]; [left|by right].
    by apply pending_other.
Qed.

Lemma ready_step s l s' :
  step s l s' → Inv s → Timed s → sole s → ready s → ready s'.
Proof.
  intros Hstep HI HT Hsole Hready. destruct Hstep as
    [name arity impl args env r s s' Hreg Ho
    |name arity impl args env k s s' Hreg Ho
    |i k r s s' Hi Ho
    |j f procObj env o s s' Hj Ho
    |j proc millis f procObj env aborted o s s' Hj Ho
    |j tm tm' s Htm Hfire
    |d s Hd].
  - eapply ready_effects; [|done]. by eapply (call_nodrain _ _ _ _ _ _ (Done r s')).
  - apply ready_set_parked. eapply ready_effects; [|done].
    by eapply (call_nodrain _ _ _ _ _ _ (Blocked k s')).
  - apply ready_set_parked.
    assert (parkedCall s k) as Hk.
    { apply (timed_parked _ HT). by eapply list_elem_of_lookup_2. }
    destruct (resume_outcome _ _ _ _ Hk Ho) as [Heff|(p & t & -> & Hfree & Hg)].
    + by eapply ready_effect.
    + apply guard_fire_timer in Hg as (j & tmj & v & ch' & [= <-] & _ & _ & ->).
      intros i' pr t' Hp Ht'.
      destruct (Hready i' pr t' Hp Ht') as [Hpend|?]; [left|by right].
      apply pending_other; [|done]. intros ->. apply Hfree. by exists i', pr.
  - apply forkBody_done in Ho as (rec & Hinv & _).
    destruct (inv_tasks _ HI _ _ Hj) as [-> _].
    apply invoke_frame in Hinv as (Hp & Htm & Hts & _).
    assert (ready s') as Hready'.
    { apply (ready_same s); [|by rewrite Htm|by rewrite Hts|done].
      rewrite Hp. eauto. }
    apply ready_set_task; [by left|done].
  - destruct (inv_tasks _ HI _ _ Hj)
      as (-> & -> & Hab & _ & prj & tj & Hpj & Htj & _).
    rewrite Hab in * by done.
    apply scheduleBody_done in Ho
      as [[Hg ->]|[(s1 & Hg & Hreset & ->)|(s1 & rec & Hg & Hinv & ->)]].
    + apply ready_set_task; [by left|]. by apply (ready_guard (RecvG (AbortOf j)) _ _ I Hg).
    + pose proof (ready_guard (RecvG (RestartOf j)) _ _ I Hg Hready) as Hready1.
      pose proof (sole_guard _ _ _ Hg Hsole) as Hsole1.
      apply reset_timer_Some in Hreset as (j' & tmj & Hj' & _ & ->).
      apply ready_set_task; [right; simpl; by rewrite (guard_fire_tasks _ _ _ Hg)|].
      apply (ready_set_timer _ j); [done| |by left|done].
      simpl in Hj'. destruct (procs s1 !! j) as [pr1|] eqn:Hp1; [|done]. eauto.
    + apply guard_fire_timer in Hg as (j' & tmj & v & ch' & Hj' & _ & _ & ->).
      apply invoke_frame in Hinv as (Hp & Htm & Hts & _).
      set (task' := afterIteration j millis f (handle j) env false
                      (if rec then None else Some (false, Break))).
      assert (idle task') as Hidle by (by destruct rec).
      intros i' pr t' Hp' Ht'. simpl in Hp'. rewrite Hp in Hp'. simpl in Hp'.
      destruct (decide (i' = j)) as [->|Hne].
      * right. exists task'. simpl. rewrite Hts. simpl.
        by rewrite list_lookup_insert_eq by (by eapply lookup_lt_Some).
      * assert (t' ≠ j') as Hne'.
        { intros ->. apply Hne. simpl in Hj'. rewrite Hpj in Hj'. simpl in Hj'.
          by eapply (Hsole i' j pr prj j'). }
        destruct (Hready i' pr t' Hp' Ht') as [Hpend|(task & Hi & Hidle')].
        -- left. destruct Hpend as (tm0 & Htm0 & Hok). exists tm0.
           simpl. rewrite Htm. simpl. by rewrite list_lookup_insert_ne.
        -- right. exists task. simpl. rewrite Hts. simpl.
           by rewrite list_lookup_insert_ne.
  - intros i pr t Hp Ht.
    destruct (Hready i pr t Hp Ht) as [Hpend|?]; [left|by right].
    by eapply pending_fire.
  - apply (ready_same s); eauto.
Qed.

Lemma ready_steps s s' :
  rtc next s s' → Inv s → Timed s → sole s → ready s → ready s'.
Proof.
  induction 1 as [|s1 s2 s3 [l Hstep] _ IH]; [done|]. intros HI HT Hsole Hready.
  apply IH; [by eapply Inv_step|by eapply Timed_step|by eapply sole_step|].
  by eapply ready_step.
Qed.

Lemma ready_reachable s : reachable s → ready s.
Proof.
  intros [w Hrtc].
  eapply ready_steps; [done|apply Inv_boot|apply Timed_boot| |].
  - by intros p q pr pr' t.
  - by intros i pr t.
Qed.

(** X20: a scheduled task whose delay has elapsed can run.  In every
    reachable state the timer of an Armed controller is pending or has
    its tick in its channel.  So once the clock has reached the instant
    the timer is due, the runtime can fire it, if it has not yet; the
    controller can then take its timer clause, and taking it applies the
    callback to the handle, once. *)
Theorem schedule_can_fire s i proc millis f procObj env aborted pr t tm :
  reachable s →
  tasks s !! i = Some (ScheduleTask proc millis f procObj env aborted true) →
  procs s !! i = Some pr → ScheduleTimer pr = Some t →
  timers s !! t = Some tm →
  (due tm ≤ now s)%Z →
  (active tm = true ∨ buf (C tm) ≠ [])
  ∧ ∃ s1 s1',
      (s1 = s ∨ step s (LFire t) s1)
      ∧ tasks s1 !! i = Some (ScheduleTask i millis f (handle i) env false true)
      ∧ now s1 = now s
      ∧ invocations (handle i) s1 = 0
      ∧ guard_fire (TimerG (ScheduleTimerOf i)) s1 = Some s1'
      ∧ (is_Some (invoke (FunctionValue f) (handle i) env s1') →
         ∃ o s2, step s1 (LSchedule i o) s2
                 ∧ invocations (handle i) s2 = 1
                 ∧ now s2 = now s).
Proof.
  intros Hs Ht Hp Htimer Htm Hdue.
  pose proof (Inv_reachable _ Hs) as HI. pose proof (Timed_reachable _ Hs) as HT.
  destruct (inv_tasks _ HI _ _ Ht) as (-> & -> & Hfalse & Hcount & _).
  rewrite Hfalse in * by done.
  assert (pending t s) as Hpend.
  { destruct (ready_reachable _ Hs i pr t Hp Htimer) as [?|(task & Hi & Hidle)];
      [done|]. rewrite Ht in Hi. by injection Hi as <-. }
  split.
  { destruct Hpend as (tm0 & Htm0 & Hok). congruence. }
  destruct (pending_ticks _ _ _ HT Htm Hpend Hdue)
    as (s1 & tm1 & v & ch' & Hfire & Hprocs & Htasks & _ & Hnow & Htrace & _ & _
        & Htm1 & Hrecv).
  assert (Inv s1) as HI1
    by (destruct Hfire as [->|Hfire]; [done|by eapply Inv_step]).
  assert (tasks s1 !! i
          = Some (ScheduleTask i millis f (handle i) env false true)) as Ht1
    by (by rewrite Htasks).
  set (s1' := set_timers (<[t := drained ch' tm1]> (timers s1)) s1).
  assert (guard_fire (TimerG (ScheduleTimerOf i)) s1 = Some s1') as Hg.
  { apply guard_fire_timer. exists t, tm1, v, ch'.
    split; [|done]. unfold timer_addr. rewrite Hprocs, Hp. done. }
  exists s1, s1'. split; [done|]. split; [done|]. split; [done|].
  split; [unfold invocations in *; by rewrite Htrace|]. split; [done|].
  intros [[rec s2] Hinv]. eexists _, _. split; [|split].
  - eapply step_schedule; [exact Ht1|].
    apply scheduleBody_done. right; right. eexists _, rec.
    split; [exact Hg|split; [exact Hinv|done]].
  - change (invocations (handle i) s2 = 1).
    rewrite (invoke_invocations _ _ i _ _ _ _ Hinv).
    rewrite bool_decide_eq_true_2 by done.
    change (invocations (handle i) s1') with (invocations (handle i) s1).
    unfold invocations in *. rewrite Htrace. simpl in Hcount. lia.
  - simpl. apply invoke_frame in Hinv as (_ & _ & _ & _ & -> & _). done.
Qed.

(** *** A sleeper whose delay has elapsed *)

(** A step that resumes no [proc-sleep] waiting for timer [t]. *)
Definition undisturbed (t : nat) (s s' : Sys) : Prop :=
  ∃ l, step s l s'
       ∧ ∀ j r p, l = LResume j r → parked s !! j ≠ Some (sleepWait p t).

Lemma elem_of_delete_other {X} (l : list X) (x : X) (j : nat) :
  x ∈ l → l !! j ≠ Some x → x ∈ delete j l.
Proof.
  intros (a & Ha)%list_elem_of_lookup_1 Hj.
  destruct (decide (a < j)) as [Hlt|Hge].
  - apply (list_elem_of_lookup_2 _ a). by rewrite list_lookup_delete_lt.
  - assert (a ≠ j) by (intros ->; done).
    apply (list_elem_of_lookup_2 _ (a - 1)).
    rewrite list_lookup_delete_ge by lia.
    by replace (S (a - 1)) with a by lia.
Qed.

Lemma undisturbed_step s s' p t z :
  undisturbed t s s' → Inv s → Timed s →
  sleepTimer t z s → pending t s → sleepWait p t ∈ parked s →
  pending t s' ∧ sleepWait p t ∈ parked s'.
Proof.
  intros (l & Hstep & Hl) HI HT [_ Hfree] Hpend Hin. destruct Hstep as
    [name arity impl args env r s s' Hreg Ho
    |name arity impl args env k s s' Hreg Ho
    |j k r s s' Hj Ho
    |j f procObj env o s s' Hj Ho
    |j proc millis f procObj env aborted o s s' Hj Ho
    |j tm tm' s Htm Hfire
    |d s Hd].
  - pose proof (call_nodrain _ _ _ _ _ _ (Done r s') Hreg Ho) as Hrtc.
    simpl in Hrtc. split; [by eapply pending_effects|].
    by rewrite (effects_parked _ _ _ Hrtc).
  - pose proof (call_nodrain _ _ _ _ _ _ (Blocked k s') Hreg Ho) as Hrtc.
    simpl in Hrtc. split; [by eapply (pending_effects s s')|]. simpl.
    apply elem_of_app. left. by rewrite (effects_parked _ _ _ Hrtc).
  - assert (parkedCall s k) as Hk.
    { apply (timed_parked _ HT). by eapply list_elem_of_lookup_2. }
    assert (k ≠ sleepWait p t) as Hk'.
    { intros ->. by eapply (Hl j r p). }
    destruct (resume_outcome _ _ _ _ Hk Ho) as [Heff|(p' & t' & -> & _ & Hg)].
    + split; [eapply (pending_same s s'); [|done]; intros tm;
              by apply nodrain_timers|].
      simpl. rewrite (effect_parked _ _ _ Heff).
      apply elem_of_delete_other; [done|congruence].
    + apply guard_fire_timer in Hg as (j' & tmj & v & ch' & [= <-] & _ & _ & ->).
      split.
      * apply pending_other; [|done]. intros <-. by eapply (Hl j r p').
      * simpl. apply elem_of_delete_other; [done|congruence].
  - apply forkBody_done in Ho as (rec & Hinv & _).
    destruct (inv_tasks _ HI _ _ Hj) as [-> _].
    apply invoke_frame in Hinv as (_ & Htm & _ & Hpk & _).
    split; [|simpl; by rewrite Hpk].
    eapply (pending_same s); [|done]. intros tm. simpl. by rewrite Htm.
  - destruct (inv_tasks _ HI _ _ Hj) as (-> & -> & _).
    apply scheduleBody_done in Ho
      as [[Hg ->]|[(s1 & Hg & Hreset & ->)|(s1 & rec & Hg & Hinv & ->)]].
    + apply guard_fire_recv in Hg as (pr & v & ch' & _ & _ & ->). by split.
    + pose proof Hg as Hg'.
      apply guard_fire_recv in Hg' as (pr & v & ch' & _ & _ & Hs1).
      apply reset_timer_Some in Hreset as (j' & tmj & Hj' & _ & ->).
      split; [|simpl; by rewrite Hs1].
      apply (pending_other s1); [|by rewrite Hs1].
      intros <-. apply Hfree. apply (guard_fire_owned _ _ _ t Hg).
      simpl in Hj'. destruct (procs s1 !! j) as [pr1|] eqn:Hp1; [|done].
      by exists j, pr1.
    + pose proof Hg as Hg'.
      apply guard_fire_timer in Hg' as (j' & tmj & v & ch' & Hj' & _ & _ & Hs1).
      apply invoke_frame in Hinv as (_ & Htm & _ & Hpk & _).
      split; [|simpl; by rewrite Hpk, Hs1].
      eapply (pending_same s1); [intros tm; simpl; by rewrite Htm|].
      rewrite Hs1. apply pending_other; [|done].
      intros <-. apply Hfree. simpl in Hj'.
      destruct (procs s !! j) as [pr1|] eqn:Hp1; [|done]. by exists j, pr1.
  - split; [by eapply pending_fire|done].
  - by split.
Qed.

Lemma undisturbed_next t s s' : rtc (undisturbed t) s s' → rtc next s s'.
Proof.
  induction 1 as [|s1 s2 s3 (l & Hstep & _) _ IH]; [done|].
  eapply rtc_l; [by exists l|done].
Qed.

Lemma undisturbed_steps s s' p t z :
  rtc (undisturbed t) s s' → Inv s → Timed s →
  sleepTimer t z s → pending t s → sleepWait p t ∈ parked s →
  pending t s' ∧ sleepWait p t ∈ parked s'.
Proof.
  induction 1 as [|s1 s2 s3 Hstep _ IH]; [done|].
  intros HI HT Hsleep Hpend Hin.
  destruct (undisturbed_step _ _ _ _ _ Hstep HI HT Hsleep Hpend Hin) as [Hpend2 Hin2].
  destruct Hstep as (l & Hstep & _).
  apply IH; [by eapply Inv_step|by eapply Timed_step| |done|done].
  by eapply sleepTimer_step.
Qed.

(** X21: a [proc-sleep] whose delay has elapsed can return.  From the
    state in which the call parked, and for as long as it has not been
    resumed: once the clock has reached the instant for which its timer
    was armed, the runtime can fire that timer, if it has not yet, and
    the parked call can then be resumed with the result [false]. *)
Theorem proc_sleep_can_time_out args env s p n :
  reachable s →
  value (Car args) env s = Ok (handle p) →
  value (Cadr args) env (evaluated (Car args) env s) = Ok (IntegerD n) →
  let t := length (timers s) in
  let s3 := asleep args env (IntegerD n) s in
  let z := when (now s) (Milliseconds n) in
  ∀ s4, rtc (undisturbed t) (set_parked (parked s3 ++ [sleepWait p t]) s3) s4 →
    (z ≤ now s4)%Z →
    ∃ s5 j s6,
      (s5 = s4 ∨ step s4 (LFire t) s5)
      ∧ parked s5 !! j = Some (sleepWait p t)
      ∧ step s5 (LResume j (Ok (BooleanD false))) s6.
Proof.
  intros Hs Hv Hn t s3 z s4 Hrtc Hz.
  pose proof (Inv_reachable _ Hs) as HI. pose proof (Timed_reachable _ Hs) as HT.
  destruct (asleep_parked args env s p n HI HT) as (HI3 & HT3 & Hsleep & _).
  fold t s3 z in HI3, HT3, Hsleep.
  set (s3' := set_parked (parked s3 ++ [sleepWait p t]) s3) in *.
  assert (pending t s3') as Hpend3.
  { exists (NewTimer (now s) (Milliseconds n)). split; [|by left].
    unfold s3', s3, asleep, t. simpl. by rewrite lookup_app_r, Nat.sub_diag. }
  assert (sleepWait p t ∈ parked s3') as Hin3
    by (simpl; apply elem_of_app; right; by apply list_elem_of_singleton).
  destruct (undisturbed_steps _ _ _ _ _ Hrtc HI3 HT3 Hsleep Hpend3 Hin3)
    as [Hpend4 Hin4].
  pose proof (undisturbed_next _ _ _ Hrtc) as Hnext.
  pose proof (Timed_steps _ _ Hnext HI3 HT3) as HT4.
  destruct (sleepTimer_steps _ _ _ _ Hnext HI3 Hsleep) as [(tm & Htm & Hdue) _].
  destruct (pending_ticks _ _ tm HT4 Htm Hpend4)
    as (s5 & tm5 & v & ch' & Hfire & _ & _ & Hparked & _ & _ & _ & _ & Htm5 & Hrecv);
    [lia|].
  apply list_elem_of_lookup_1 in Hin4 as [j Hj]. rewrite <- Hparked in Hj.
  exists s5, j,
    (set_parked (delete j (parked s5))
       (set_timers (<[t := drained ch' tm5]> (timers s5)) s5)).
  split; [done|]. split; [done|].
  eapply (step_resume _ _ _ _
            (set_timers (<[t := drained ch' tm5]> (timers s5)) s5)); [exact Hj|].
  rewrite exec_sleepWait. unfold race.
  assert (guard_fire (TimerG (TimerAt t)) s5
          = Some (set_timers (<[t := drained ch' tm5]> (timers s5)) s5)) as ->.
  { apply guard_fire_timer. by exists t, tm5, v, ch'. }
  destruct (guard_fire (RecvG (WakeOf p)) s5); set_solver.
Qed.

End Liveness.

(* ===================================================================== *)
(** ** Concrete runs *)
(* ===================================================================== *)

Module Runs.
Import Demo.

(** The state after a call that returns, after the runtime fired a
    timer, after a fork task ran, after one iteration of a schedule
    task; each is the state itself when the step is not possible. *)
Definition after_call (impl : Data → SymbolTableFrame → Prog Result)
    (args : Data) (env : SymbolTableFrame) (s : Sys) : Sys :=
  match exec (impl args env) s with
  | Done _ s' :: _ => s'
  | _ => s
  end.

Definition after_fire (t : nat) (s : Sys) : Sys :=
  match timers s !! t with
  | Some tm =>
      match fire (now s) tm with
      | Some tm' => set_timers (<[t := tm']> (timers s)) s
      | None => s
      end
  | None => s
  end.

Definition after_iteration (i : nat) (s : Sys) : Sys :=
  match tasks s !! i with
  | Some (ScheduleTask proc millis f procObj env aborted true) =>
      match exec (scheduleBody proc millis f procObj env aborted) s with
      | Done o s' :: _ =>
          set_tasks (<[i := afterIteration proc millis f procObj env aborted o]>
                       (tasks s')) s'
      | _ => s
      end
  | _ => s
  end.

Definition returns {A} (os : list (Outcome A)) : bool :=
  match os with Done _ _ :: _ => true | _ => false end.

Lemma next_after_call name arity impl args env s :
  (name, arity, impl) ∈ RegisterConcurrencyPrimitives →
  returns (exec (impl args env) s) = true →
  next s (after_call impl args env s).
Proof.
  intros Hreg Hret. unfold after_call.
  destruct (exec (impl args env) s) as [|[r s'|k s'|st s'] rest] eqn:Hexec;
    try done.
  exists (LCall name args env r). eapply step_call; [done|].
  rewrite Hexec. left.
Defined.

Lemma next_after_fire t s :
  is_Some (timers s !! t ≫= fire (now s)) → next s (after_fire t s).
Proof.
  unfold after_fire. intros [tm' Hfire].
  destruct (timers s !! t) as [tm|] eqn:Ht; [|done]. simpl in Hfire.
  rewrite Hfire. exists (LFire t). by eapply step_fire.
Defined.

Lemma next_after_iteration i s :
  match tasks s !! i with
  | Some (ScheduleTask proc millis f procObj env aborted true) =>
      returns (exec (scheduleBody proc millis f procObj env aborted) s) = true
  | _ => False
  end →
  next s (after_iteration i s).
Proof.
  unfold after_iteration.
  destruct (tasks s !! i) as [[|proc millis f procObj env aborted []]|] eqn:Ht;
    try done.
  destruct (exec _ s) as [|[o s'|k s'|st s'] rest] eqn:Hexec; try done.
  intros _. exists (LSchedule i o). eapply step_schedule; [done|].
  rewrite Hexec. left.
Defined.

Lemma reachable_next `{Host} (s s' : Sys) : reachable s → next s s' → reachable s'.
Proof. intros [w Hs] Hnext. exists w. eapply rtc_r; eauto. Defined.

(** Before any call. *)
Definition boot0 : Sys := boot (tt : @World demoHost).

Lemma reachable_boot : reachable boot0.
Proof. by exists tt. Defined.

Lemma registered_fork : ("fork", 1, ForkImpl) ∈ RegisterConcurrencyPrimitives.
Proof. unfold RegisterConcurrencyPrimitives. set_solver. Defined.
Lemma registered_schedule :
  ("schedule", 2, ScheduleImpl) ∈ RegisterConcurrencyPrimitives.
Proof. unfold RegisterConcurrencyPrimitives. set_solver. Defined.

(** [(fork f)] *)
Definition forked0 : Sys :=
  after_call ForkImpl (args1 (fn "f" 1)) 0 boot0.

(** [(schedule 0 f)], then the timer fires, then the controller takes
    its timer clause and runs the callback. *)
Definition scheduled0 : Sys :=
  after_call ScheduleImpl (args2 (IntegerD 0) (fn "f" 1)) 0 boot0.
Definition ticked0 : Sys := after_fire 0 scheduled0.
Definition fired0 : Sys := after_iteration 0 ticked0.

Lemma reachable_forked0 : reachable forked0.
Proof.
  eapply reachable_next; [apply reachable_boot|].
  by eapply next_after_call; [apply registered_fork|].
Defined.

Lemma reachable_scheduled0 : reachable scheduled0.
Proof.
  eapply reachable_next; [apply reachable_boot|].
  by eapply next_after_call; [apply registered_schedule|].
Defined.

Lemma reachable_ticked0 : reachable ticked0.
Proof.
  eapply reachable_next; [apply reachable_scheduled0|].
  apply next_after_fire. vm_compute. by eexists.
Defined.

Lemma reachable_fired0 : reachable fired0.
Proof.
  eapply reachable_next; [apply reachable_ticked0|].
  apply next_after_iteration. by vm_compute.
Defined.

Example fired0_task :
  tasks fired0 !! 0
  = Some (ScheduleTask 0 (IntegerD 0) (fn "f" 1) (handle 0) 0 false false).
Proof. reflexivity. Qed.

Example fired0_invoked_once :
  trace fired0
  = [EvEval (IntegerD 0) 0; EvEval (fn "f" 1) 0;
     EvApply {| Name := "f"; RequiredArgCount := 1 |}
       (InternalMakeList [handle 0]) 0].
Proof. reflexivity. Qed.

(** *** [reset-timeout] and [abandon] after the callback fired *)

(** C2, at the failing input: [(schedule 0 f)], the timer fires, the
    controller runs the callback and leaves its loop (Fired); nothing
    was ever sent on [Restart].  A [reset-timeout] on the handle then
    finds the slot of [Restart] empty, puts its event there and returns
    ["OK"], not ["task was already completed or abandoned"]; only a
    second [reset-timeout] returns that string. *)
Theorem reset_timeout_after_fired :
  reachable fired0
  ∧ tasks fired0 !! 0
    = Some (ScheduleTask 0 (IntegerD 0) (fn "f" 1) (handle 0) 0 false false)
  ∧ controller false false = Fired
  ∧ exec (ResetTimeoutImpl (args1 (handle 0)) 0) fired0
    = [Done OK (delivered (RestartOf 0) (evaluated (handle 0) 0 fired0))]
  ∧ exec (ResetTimeoutImpl (args1 (handle 0)) 0)
         (after_call ResetTimeoutImpl (args1 (handle 0)) 0 fired0)
    = [Done tooLate
         (evaluated (handle 0) 0
            (after_call ResetTimeoutImpl (args1 (handle 0)) 0 fired0))].
Proof.
  split; [apply reachable_fired0|]. by vm_compute.
Qed.

(** The wording of C2 fails on this run. *)
Lemma reset_timeout_misses_exit : ¬ reset_timeout_detects_exit.
Proof.
  intros Hclaim.
  destruct (Hclaim (args1 (handle 0)) 0 fired0 0 0 (IntegerD 0) (fn "f" 1)
              (handle 0) 0 false reachable_fired0 eq_refl eq_refl
              (Done OK (delivered (RestartOf 0) (evaluated (handle 0) 0 fired0))))
    as [s' Hs'].
  - vm_compute. left.
  - discriminate Hs'.
Qed.

(** C3 fails as it is worded, on the same run: the controller has left
    its loop, and the first [abandon] returns ["OK"] instead of
    parking. *)
Lemma abandon_returns_after_fired : ¬ abandon_parks_once_exited.
Proof.
  intros Hclaim.
  destruct (Hclaim (args1 (handle 0)) 0 fired0 0 0 (IntegerD 0) (fn "f" 1)
              (handle 0) 0 false reachable_fired0 eq_refl eq_refl
              (Done OK (delivered (AbortOf 0) (evaluated (handle 0) 0 fired0))))
    as (k & s' & Hs').
  - vm_compute. left.
  - discriminate Hs'.
Qed.

Lemma abandon_after_exit_witness :
  reachable fired0
  ∧ (buf (make 1 : chan bool) = [] →
       exec (AbandonImpl (args1 (handle 0)) 0) fired0
       = [Done OK (delivered (AbortOf 0) (evaluated (handle 0) 0 fired0))]).
Proof.
  split; [apply reachable_fired0|].
  apply (abandon_after_exit (args1 (handle 0)) 0 fired0 0 0 (IntegerD 0)
           (fn "f" 1) (handle 0) 0 false
           (newProcess 0 (fn "f" 1) (Some 0)));
    [apply reachable_fired0|reflexivity..].
Defined.

(** *** The panic handler *)

(** [callWithPanicProtection] never reads its [prefix]. *)
Lemma callWithPanicProtection_ignores_prefix `{Host} {A} (f : Prog A)
    (prefix prefix' : string) (s : Sys) :
  exec (callWithPanicProtection f prefix) s
  = exec (callWithPanicProtection f prefix') s.
Proof. reflexivity. Qed.

(** C8, at the failing input: [(fork boom)] where [boom] faults.  The
    fault is recovered and seven lines are logged, but they are the bare
    lines of the stack text: none carries the tag ["fork"] that the
    caller passed as [prefix]. *)
Theorem panic_log_lacks_prefix :
  ∃ s', exec (forkBody (fn "boom" 1) (handle 0) 0) forked0 = [Done None s']
        ∧ logs s'
          = [ln "frame 0"; ln "frame 1"; ln "frame 2"; ln "frame 3";
             ln "frame 4"; ln "frame 5"; ln "frame 6"]
        ∧ Forall (λ line, String.prefix "fork" line = false) (logs s').
Proof.
  eexists. split; [by vm_compute|]. split; [reflexivity|].
  repeat constructor.
Qed.

(** *** The theorems above, at concrete inputs *)

Lemma controller_three_states_witness :
  reachable fired0
  ∧ invocations (handle 0) fired0 = 1
  ∧ invocations (handle 0) fired0 ≤ 1.
Proof.
  split; [apply reachable_fired0|].
  apply (controller_three_states fired0 0 0 (IntegerD 0) (fn "f" 1) (handle 0)
           0 false false reachable_fired0 eq_refl).
Defined.

Lemma proc_sleep_race_witness :
  exec (ProcSleepImpl (args2 (handle 0) (IntegerD 5)) 0) forked0
  = race 0 0 (asleep (args2 (handle 0) (IntegerD 5)) 0 (IntegerD 5) forked0).
Proof.
  apply (proc_sleep_race (args2 (handle 0) (IntegerD 5)) 0 forked0 0 5
           eq_refl eq_refl).
Defined.

Lemma spawner_rejects_invalid_witness :
  exec (ForkImpl (args1 (IntegerD 3)) 0) boot0
  = [Done (notFunctionError "fork" (IntegerD 3) 0)
       (evaluated (IntegerD 3) 0 boot0)].
Proof.
  apply (spawner_rejects_invalid (args1 (IntegerD 3)) 0 boot0 fork).
  exact (fork_not_callable (args1 (IntegerD 3)) 0 boot0 (IntegerD 3)
           eq_refl eq_refl).
Defined.

(** [(schedule 1000 f)], one millisecond passes, [(reset-timeout p)], and
    the controller takes its restart clause: the timer is due one second
    after the restart. *)
Definition scheduled1 : Sys :=
  after_call ScheduleImpl (args2 (IntegerD 1000) (fn "f" 1)) 0 boot0.
Definition later1 : Sys := set_now 1000000 scheduled1.
Definition reset1 : Sys :=
  after_call ResetTimeoutImpl (args1 (handle 0)) 0 later1.
Definition restarted1 : Sys := after_iteration 0 reset1.

Example restarted1_timer :
  timers scheduled1 !! 0
  = Some {| C := make 1; due := 1000000000; active := true |}
  ∧ timers restarted1 !! 0
    = Some {| C := make 1; due := 1001000000; active := true |}
  ∧ tasks restarted1 !! 0
    = Some (ScheduleTask 0 (IntegerD 1000) (fn "f" 1) (handle 0) 0 false true).
Proof. by vm_compute. Qed.

Lemma restart_rearms_captured_delay_witness :
  ∃ f tm,
    tasks scheduled0 !! 0
    = Some (ScheduleTask 0 (IntegerD 0) f (handle 0) 0 false true)
    ∧ timers scheduled0 !! tm
      = Some (NewTimer 0 (Milliseconds (IntegerValue (IntegerD 0)))).
Proof.
  destruct (restart_rearms_captured_delay
              (args2 (IntegerD 0) (fn "f" 1)) 0 boot0 0 scheduled0
              (IntegerD 0) reachable_boot)
    as (f & tm & Ht & _ & Htm & _).
  - vm_compute. left.
  - reflexivity.
  - by exists f, tm.
Defined.

Lemma wake_delivers_or_parks_witness :
  reachable forked0
  ∧ exec (WakeImpl (args1 (handle 0)) 0) forked0
    = [Done OK (delivered (WakeOf 0) (evaluated (handle 0) 0 forked0))].
Proof.
  split; [apply reachable_forked0|].
  apply (wake_delivers_or_parks (args1 (handle 0)) 0 forked0 0
           (newProcess 0 (fn "f" 1) None) reachable_forked0 eq_refl eq_refl).
  reflexivity.
Defined.

Lemma forked_process_slots_witness :
  exec (AbandonImpl (args1 (handle 0)) 0) forked0
  = [Done OK (delivered (AbortOf 0) (evaluated (handle 0) 0 forked0))].
Proof.
  eapply (forked_process_slots (args1 (fn "f" 1)) 0 boot0 0 forked0
            reachable_boot).
  - vm_compute. left.
  - apply rtc_refl.
  - reflexivity.
Defined.

Lemma proc_sleep_left_to_right_witness :
  exec (ProcSleepImpl (args2 (IntegerD 7) (SymbolD "unbound")) 0) forked0
  = [Done (notProcessError
             "proc-sleep expects a Process object expected but received "
             (IntegerD 7) 0)
       (evaluated (IntegerD 7) 0 forked0)].
Proof.
  pose proof (proc_sleep_left_to_right
                (args2 (IntegerD 7) (SymbolD "unbound")) 0 forked0)
    as (_ & _ & Herr).
  change (processArgumentError _ _ _)
    with (Some (notProcessError
                  "proc-sleep expects a Process object expected but received "
                  (IntegerD 7) 0)) in Herr.
  exact (proj1 Herr).
Defined.

End Runs.

(* ===================================================================== *)
(** ** The further properties, at concrete inputs *)
(* ===================================================================== *)

Module Instances.
Import Demo Runs.

Lemma registered_wake : ("wake", 1, WakeImpl) ∈ RegisterConcurrencyPrimitives.
Proof. unfold RegisterConcurrencyPrimitives. set_solver. Defined.
Lemma registered_abandon :
  ("abandon", 1, AbandonImpl) ∈ RegisterConcurrencyPrimitives.
Proof. unfold RegisterConcurrencyPrimitives. set_solver. Defined.
Lemma registered_reset_timeout :
  ("reset-timeout", 1, ResetTimeoutImpl) ∈ RegisterConcurrencyPrimitives.
Proof. unfold RegisterConcurrencyPrimitives. set_solver. Defined.

(** [(wake unbound)] *)
Lemma evaluation_error_is_returned_witness :
  exec (WakeImpl (args1 (SymbolD "unbound")) 0) boot0
  = [Done (Err (ProcessError "unbound symbol" 0))
       (evaluated (SymbolD "unbound") 0 boot0)].
Proof.
  destruct (evaluation_error_is_returned "wake" 1 WakeImpl
              (args1 (SymbolD "unbound")) 0 boot0
              (ProcessError "unbound symbol" 0) registered_wake)
    as [Hfirst _].
  apply Hfirst. reflexivity.
Defined.

(** [(abandon 7)] *)
Lemma handle_check_rejects_witness :
  exec (AbandonImpl (args1 (IntegerD 7)) 0) forked0
  = [Done (Err (ProcessError
       "adandon expects a Process object expected but received ." 0))
       (evaluated (IntegerD 7) 0 forked0)].
Proof.
  apply (handle_check_rejects "abandon" 1 AbandonImpl (args1 (IntegerD 7)) 0
           forked0 (IntegerD 7) registered_abandon);
    [discriminate|discriminate|reflexivity|reflexivity].
Defined.

(** [(proc-sleep p "soon")] *)
Lemma proc_sleep_rejects_delay_witness :
  exec (ProcSleepImpl (args2 (handle 0) (StringD "soon")) 0) forked0
  = [Done (Err (ProcessError
       "proc-sleep expected an integer as a delay, but received soon." 0))
       (evaluated (StringD "soon") 0 (evaluated (handle 0) 0 forked0))].
Proof.
  apply (proc_sleep_rejects_delay (args2 (handle 0) (StringD "soon")) 0
           forked0 0 (StringD "soon")); reflexivity.
Defined.

(** [(fork f)] *)
Lemma call_is_contained_witness :
  contained boot0 forked0
  ∧ ∀ procObj, invocations procObj forked0 = invocations procObj boot0.
Proof.
  destruct (call_is_contained "fork" 1 ForkImpl (args1 (fn "f" 1)) 0 boot0
              (Done (Ok (handle 0)) forked0) registered_fork)
    as (_ & Hc & Hn & _).
  - vm_compute. left.
  - by split.
Defined.

(** [(wake p)] twice: the second call parks. *)
Definition woken0 : Sys := after_call WakeImpl (args1 (handle 0)) 0 forked0.

Lemma calls_that_block_witness :
  ∃ p, value (Car (args1 (handle 0))) 0 woken0 = Ok (handle p)
       ∧ parkedSend (WakeOf 0) = parkedSend (WakeOf p).
Proof.
  destruct (calls_that_block "wake" 1 WakeImpl (args1 (handle 0)) 0 woken0
              (parkedSend (WakeOf 0)) (evaluated (handle 0) 0 woken0)
              registered_wake)
    as (_ & _ & _ & p & Hv & [(_ & Hk & _)|[([=] & _)|([=] & _)]]).
  - vm_compute. left.
  - by exists p.
Defined.

(** [(fork boom)]: the callback faults with a stack text of ten lines. *)
Definition boom : Prog unit :=
  ApplyP (FunctionValue (fn "boom" 1)) (InternalMakeList [handle 0]) 0
    (λ r, match r with
          | Err forkedErr =>
              LogP (ln ("error in forked process: " +:+ fmt_sharp_v forkedErr))
                   (Ret tt)
          | Ok _ => Ret tt
          end).

Definition faulted0 : Sys :=
  record (EvApply (FunctionValue (fn "boom" 1)) (InternalMakeList [handle 0]) 0)
         forked0.

Lemma panic_is_recovered_witness :
  ∃ s', Done None s' ∈ exec (forkBody (fn "boom" 1) (handle 0) 0) forked0
        ∧ logs s' = ln <$> take 7 (stackLines (stackText 10))
        ∧ length (logs s') = 7
        ∧ s' = set_logs (logs s') faulted0.
Proof.
  apply (panic_is_recovered boom "fork" (stackText 10) forked0 faulted0).
  - vm_compute. left.
  - vm_compute. lia.
Defined.

(** [(fork shallow)]: the stack text has three lines. *)
Definition shallow : Prog unit :=
  ApplyP (FunctionValue (fn "shallow" 1)) (InternalMakeList [handle 0]) 0
    (λ r, match r with
          | Err forkedErr =>
              LogP (ln ("error in forked process: " +:+ fmt_sharp_v forkedErr))
                   (Ret tt)
          | Ok _ => Ret tt
          end).

Definition faulted1 : Sys :=
  record (EvApply (FunctionValue (fn "shallow" 1)) (InternalMakeList [handle 0]) 0)
         forked0.

Lemma short_stack_panics_again_witness :
  ∃ s', Panicked "runtime error: index out of range" s'
          ∈ exec (forkBody (fn "shallow" 1) (handle 0) 0) forked0
        ∧ logs s' = ln <$> stackLines (stackText 3)
        ∧ s' = set_logs (logs s') faulted1.
Proof.
  apply (short_stack_panics_again shallow "fork" (stackText 3) forked0 faulted1).
  - vm_compute. left.
  - vm_compute. lia.
Defined.

Definition recovered0 : Sys := logged (stackLines (stackText 10)) 0 7 faulted0.

Lemma protection_outcomes_witness :
  ∃ text s1, Panicked text s1 ∈ exec boom forked0
             ∧ 7 ≤ length (stackLines text)
             ∧ recovered0 = logged (stackLines text) 0 7 s1.
Proof.
  apply (protection_outcomes boom "fork" forked0 (Done None recovered0)).
  vm_compute. left.
Defined.

(** [(fork fail)]: the callback returns an error. *)
Lemma callback_error_is_logged_witness :
  exec (forkBody (fn "fail" 1) (handle 0) 0) forked0
  = [Done (Some tt)
       (set_logs [ln "error in forked process: failed"]
          (record (EvApply (FunctionValue (fn "fail" 1))
                     (InternalMakeList [handle 0]) 0) forked0))].
Proof.
  exact (proj1 (callback_error_is_logged (fn "fail" 1) (handle 0) 0 forked0)).
Defined.

Lemma fork_applies_once_witness :
  reachable forked0
  ∧ invocations (handle 0) forked0 = 0
  ∧ ∃ s', step forked0 (LFork 0) s'.
Proof.
  split; [apply reachable_forked0|].
  destruct (fork_applies_once forked0 0 (fn "f" 1) (handle 0) 0 false
              reachable_forked0 eq_refl) as (_ & Hcount & Hrun & _).
  split; [exact Hcount|]. apply (Hrun eq_refl). vm_compute. by eexists.
Defined.

(** [(schedule 1000 f)] *)
Lemma schedule_arms_timer_witness :
  ∃ p t tm,
    handle 0 = handle p
    ∧ (∃ pr, procs scheduled1 !! p = Some pr ∧ ScheduleTimer pr = Some t)
    ∧ timers scheduled1 !! t = Some tm
    ∧ due tm = 1000000000%Z.
Proof.
  destruct (schedule_arms_timer (args2 (IntegerD 1000) (fn "f" 1)) 0 boot0
              (handle 0) scheduled1 1000)
    as (p & t & tm & Hd & Hp & Ht & _ & _ & _ & _ & _ & Hdue).
  - vm_compute. left.
  - reflexivity.
  - exists p, t, tm. repeat (split; [done|]).
    rewrite Hdue; [reflexivity|lia|simpl; lia|simpl; lia].
Defined.

(** [(schedule 9223372036855 f)] *)
Definition scheduled2 : Sys :=
  after_call ScheduleImpl (args2 (IntegerD 9223372036855) (fn "f" 1)) 0 boot0.

Lemma schedule_delay_overflows_witness :
  (Milliseconds 9223372036855 < 0)%Z
  ∧ ∃ tm, timers scheduled2 !! 0 = Some tm
          ∧ due tm = 0%Z
          ∧ is_Some (fire (now scheduled2) tm).
Proof.
  apply (schedule_delay_overflows (args2 (IntegerD 9223372036855) (fn "f" 1)) 0
           boot0 (handle 0) scheduled2 9223372036855).
  - vm_compute. left.
  - reflexivity.
  - lia.
Defined.

Lemma reachable_states_well_formed_witness :
  reachable fired0 ∧ length (tasks fired0) = length (procs fired0).
Proof.
  split; [apply reachable_fired0|].
  apply (reachable_states_well_formed fired0 reachable_fired0).
Defined.

(** [(proc-sleep p 5)] *)
Lemma proc_sleep_not_early_witness :
  reachable forked0
  ∧ when (now forked0) (Milliseconds 5) = 5000000%Z.
Proof.
  split; [apply reachable_forked0|].
  destruct (proc_sleep_not_early (args2 (handle 0) (IntegerD 5)) 0 forked0 0 5
              reachable_forked0 eq_refl eq_refl) as (_ & _ & Hdue).
  rewrite Hdue; [reflexivity|lia|simpl; lia|simpl; lia].
Defined.

(** [(wake p)], then [(proc-sleep p 5)] *)
Lemma wake_then_sleep_witness :
  reachable forked0
  ∧ exec (WakeImpl (args1 (handle 0)) 0) forked0
    = [Done OK (delivered (WakeOf 0) (evaluated (handle 0) 0 forked0))].
Proof.
  split; [apply reachable_forked0|].
  apply (wake_then_sleep (args1 (handle 0)) 0 (args2 (handle 0) (IntegerD 5)) 0
           forked0 0 (newProcess 0 (fn "f" 1) None) 5 reachable_forked0);
    [reflexivity..|lia].
Defined.

(** [(schedule 0 f)], then [(reset-timeout p)] twice *)
Lemma reset_timeout_reports_slot_witness :
  reachable scheduled0
  ∧ exec (ResetTimeoutImpl (args1 (handle 0)) 0) scheduled0
    = [Done OK (delivered (RestartOf 0) (evaluated (handle 0) 0 scheduled0))].
Proof.
  split; [apply reachable_scheduled0|].
  destruct (reset_timeout_reports_slot (args1 (handle 0)) 0 scheduled0 0
              (newProcess 0 (fn "f" 1) (Some 0)) reachable_scheduled0
              eq_refl eq_refl) as [Hempty _].
  apply Hempty. reflexivity.
Defined.

(** [(schedule 0 f)], then [(abandon p)] before the timer ticks *)
Lemma abandon_cancels_witness :
  reachable scheduled0
  ∧ exec (AbandonImpl (args1 (handle 0)) 0) scheduled0
    = [Done OK (delivered (AbortOf 0) (evaluated (handle 0) 0 scheduled0))].
Proof.
  split; [apply reachable_scheduled0|].
  apply (abandon_cancels (args1 (handle 0)) 0 scheduled0 0 0 (IntegerD 0)
           (fn "f" 1) (handle 0) 0 false (newProcess 0 (fn "f" 1) (Some 0))
           reachable_scheduled0); try reflexivity.
  intros t tm [= <-]. vm_compute. by intros [= <-].
Defined.

(** [(schedule 0 f)], the timer ticks, then [(reset-timeout p)] *)
Definition reset0 : Sys :=
  after_call ResetTimeoutImpl (args1 (handle 0)) 0 ticked0.

Lemma reachable_reset0 : reachable reset0.
Proof.
  eapply reachable_next; [apply reachable_ticked0|].
  by eapply next_after_call; [apply registered_reset_timeout|].
Defined.

Lemma restart_keeps_sent_tick_witness :
  ∃ s1, step reset0 (LSchedule 0 (Some (false, Continue))) s1
        ∧ tasks s1 !! 0
          = Some (ScheduleTask 0 (IntegerD 0) (fn "f" 1) (handle 0) 0 false true)
        ∧ is_Some (guard_fire (TimerG (ScheduleTimerOf 0)) s1).
Proof.
  destruct (restart_keeps_sent_tick reset0 0 0 (IntegerD 0) (fn "f" 1) (handle 0)
              0 false
              {| Env := 0; Code := fn "f" 1; Wake := make 1; Abort := make 1;
                 Restart := {| cap := 1; buf := [true] |};
                 ScheduleTimer := Some 0 |}
              0 {| C := {| cap := 1; buf := [0%Z] |}; due := 0; active := false |}
              reachable_reset0)
    as (s1 & Hstep & Ht & _ & _ & _ & _ & _ & _ & s1' & Hg & _);
    try reflexivity; try discriminate.
  exists s1. split; [done|]. split; [done|]. by eexists.
Defined.

(** [(schedule 1000 f)], one second passes, the timer ticks, and the
    controller runs the callback. *)
Definition elapsed1 : Sys := set_now (now scheduled1 + 1000000000) scheduled1.
Definition ticked1 : Sys := after_fire 0 elapsed1.
Definition fired1 : Sys := after_iteration 0 ticked1.

Lemma scheduled1_fired1 : rtc next scheduled1 fired1.
Proof.
  eapply rtc_l; [exists (LTick 1000000000); by apply step_tick|].
  eapply rtc_l; [apply (next_after_fire 0 elapsed1); vm_compute; by eexists|].
  eapply rtc_l; [apply (next_after_iteration 0 ticked1); by vm_compute|].
  apply rtc_refl.
Defined.

Lemma schedule_not_early_witness :
  invocations (handle 0) fired1 = 1
  ∧ (now boot0 + 1000 * 1000000 ≤ now fired1)%Z.
Proof.
  split; [reflexivity|].
  destruct (schedule_not_early (args2 (IntegerD 1000) (fn "f" 1)) 0 boot0 0
              scheduled1 1000 fired1 reachable_boot) as [_ Hlate].
  - vm_compute. left.
  - reflexivity.
  - apply scheduled1_fired1.
  - simpl. lia.
  - vm_compute. reflexivity.
  - vm_compute. lia.
  - apply Hlate; [lia|simpl; lia].
Defined.

(** [(schedule 0 f)]: the timer is due at once. *)
Lemma schedule_can_fire_witness :
  reachable scheduled0
  ∧ ∃ s1 o s2, (s1 = scheduled0 ∨ step scheduled0 (LFire 0) s1)
               ∧ step s1 (LSchedule 0 o) s2
               ∧ invocations (handle 0) s2 = 1.
Proof.
  split; [apply reachable_scheduled0|].
  destruct (schedule_can_fire scheduled0 0 0 (IntegerD 0) (fn "f" 1) (handle 0)
              0 false (newProcess 0 (fn "f" 1) (Some 0)) 0
              (NewTimer 0 (Milliseconds 0)) reachable_scheduled0)
    as (_ & s1 & s1' & Hfire & _ & _ & _ & Hg & Hrun);
    [reflexivity|reflexivity|reflexivity|reflexivity|by vm_compute|].
  destruct Hrun as (o & s2 & Hstep & Hcount & _).
  - destruct Hfire as [->|Hfire].
    + vm_compute in Hg. discriminate.
    + inversion Hfire as [| | | | |j tm tm' s Htm Hfired|]; subst.
      vm_compute in Htm. injection Htm as <-.
      vm_compute in Hfired. injection Hfired as <-.
      vm_compute in Hg. injection Hg as <-. vm_compute. by eexists.
  - by exists s1, o, s2.
Defined.

(** [(proc-sleep p 5)], and five milliseconds pass. *)
Definition asleep0 : Sys :=
  let s3 := asleep (args2 (handle 0) (IntegerD 5)) 0 (IntegerD 5) forked0 in
  set_parked (parked s3 ++ [sleepWait 0 0]) s3.
Definition overslept0 : Sys := set_now (now asleep0 + 5000000) asleep0.

Lemma proc_sleep_can_time_out_witness :
  reachable forked0
  ∧ ∃ s5 j s6, (s5 = overslept0 ∨ step overslept0 (LFire 0) s5)
               ∧ parked s5 !! j = Some (sleepWait 0 0)
               ∧ step s5 (LResume j (Ok (BooleanD false))) s6.
Proof.
  split; [apply reachable_forked0|].
  apply (proc_sleep_can_time_out (args2 (handle 0) (IntegerD 5)) 0 forked0 0 5
           reachable_forked0 eq_refl eq_refl overslept0).
  - eapply rtc_l; [|apply rtc_refl].
    exists (LTick 5000000). split; [by apply step_tick|]. discriminate.
  - vm_compute. discriminate.
Defined.

End Instances.
